(** * Recursive-descent parser visualiser: tokenizer, parser and tree layout

    A shallow embedding of [src/compiler/tokenizer.js], [src/compiler/parser.js]
    and [src/compiler/treeLayout.js], with the properties of the three public
    functions [tokenize], [parse] and [computeTreeLayout]; and of the code
    that calls them: the hook [useParser] and the computations of the
    components [TokenTable], [StepLog] and [ParseTreeView].

    The embedding comes first, one module per source file; then the
    predicates the properties are stated with; then the proofs.  A theorem
    whose comment begins with one of C1 ... C10 settles that claim of the
    specification: "as the code has it" marks a claim restated to what the
    code does, and the lemma "as stated fails" next to it refutes the original
    wording on a concrete input.  A comment that begins with X1, X2, ...
    marks a further property, read off the code. *)

From Stdlib Require Import List ZArith NArith String Ascii Bool Lia QArith Lqa.
From Stdlib Require Import DecimalString.
Import ListNotations.
Close Scope Q_scope.
Open Scope nat_scope.
Open Scope list_scope.

(** ** JavaScript strings

    A JavaScript string is a sequence of UTF-16 code units; [input[pos]] is the
    one-unit string at index [pos] and [input.length] counts units.  A code
    unit is kept as its number.  String literals of the source that are plain
    ASCII are written with [lit]; the four other characters the parser uses
    are named below. *)
Module JS.

Definition char := N.
Definition jsstring := list char.

Definition lit (s : string) : jsstring :=
  map N_of_ascii (list_ascii_of_string s).

(** [`${n}`] for an integer [n]: its decimal digits, with a minus sign when
    negative. *)
Definition decimal (n : Z) : jsstring :=
  lit (NilZero.string_of_int (Z.to_int n)).

Definition dquote : jsstring := [34%N].
Definition arrow : jsstring := [8594%N].       (* U+2192 *)
Definition epsilon : jsstring := [949%N].      (* U+03B5 *)
Definition check_mark : jsstring := [10003%N]. (* U+2713 *)
Definition cross_mark : jsstring := [10007%N]. (* U+2717 *)

Definition eqb (a b : jsstring) : bool :=
  if list_eq_dec N.eq_dec a b then true else false.

(** [arr.includes(s)] on an array of strings. *)
Definition includes (arr : list jsstring) (s : jsstring) : bool :=
  existsb (eqb s) arr.

(** [s.slice(start, stop)] for [0 <= start], [stop <= s.length]. *)
Definition slice (s : jsstring) (start stop : nat) : jsstring :=
  firstn (stop - start) (skipn start s).

(** [s.startsWith(sub)] and [s.includes(sub)] on strings. *)
Fixpoint startsWith (s sub : jsstring) {struct sub} : bool :=
  match sub, s with
  | [], _ => true
  | c :: sub', d :: s' => (c =? d)%N && startsWith s' sub'
  | _ :: _, [] => false
  end.

Fixpoint str_includes (s sub : jsstring) : bool :=
  startsWith s sub
  || match s with [] => false | _ :: s' => str_includes s' sub end.

End JS.
Import JS.

(** ** The tokenizer ([src/compiler/tokenizer.js]) *)
Module Tokenizer.

Inductive TokenType :=
  NUMBER | ID | PLUS | MINUS | STAR | SLASH | LPAREN | RPAREN | EOF.

Definition TokenType_eqb (a b : TokenType) : bool :=
  match a, b with
  | NUMBER, NUMBER | ID, ID | PLUS, PLUS | MINUS, MINUS | STAR, STAR
  | SLASH, SLASH | LPAREN, LPAREN | RPAREN, RPAREN | EOF, EOF => true
  | _, _ => false
  end.

(** A token object [{ type, value, pos, end }].  The parser's stand-in for a
    missing token has no [end] field, hence the option. *)
Record Token := mkToken {
  type : TokenType;
  value : jsstring;
  pos : Z;
  end_ : option Z
}.

Definition createToken (type : TokenType) (value : jsstring) (pos end_ : nat) : Token :=
  mkToken type value (Z.of_nat pos) (Some (Z.of_nat end_)).

(** The object [SINGLE_CHAR_TOKENS], keyed by the characters
    [+ - * / ( )], and the lookup [SINGLE_CHAR_TOKENS[char]]; an absent key
    gives [undefined], which the [if] reads as false. *)
Definition SINGLE_CHAR_TOKENS : list (char * TokenType) :=
  [ (43%N, PLUS); (45%N, MINUS); (42%N, STAR); (47%N, SLASH);
    (40%N, LPAREN); (41%N, RPAREN) ].

Definition property (obj : list (char * TokenType)) (c : char) : option TokenType :=
  option_map snd (find (fun entry => (fst entry =? c)%N) obj).

(** [/\s/]: the white space and line terminator code points of ECMAScript. *)
Definition isSpace (c : char) : bool :=
  ((9 <=? c) && (c <=? 13) || (c =? 32) || (c =? 160) || (c =? 5760)
   || (8192 <=? c) && (c <=? 8202) || (c =? 8232) || (c =? 8233)
   || (c =? 8239) || (c =? 8287) || (c =? 12288) || (c =? 65279))%N.

(** [/[0-9]/] *)
Definition isDigit (c : char) : bool := ((48 <=? c) && (c <=? 57))%N.

(** [/[a-zA-Z_]/] *)
Definition isIdStart (c : char) : bool :=
  ((97 <=? c) && (c <=? 122) || (65 <=? c) && (c <=? 90) || (c =? 95))%N.

(** [/[a-zA-Z0-9_]/] *)
Definition isIdChar (c : char) : bool := isIdStart c || isDigit c.

Definition isDot (c : char) : bool := (c =? 46)%N.

Record TokenizeResult := mkResult {
  tokens : list Token;
  error : option jsstring;
  errorPos : option nat
}.

(** The inner loop of the number branch,
    [while (pos < input.length && (digit(input[pos]) || input[pos] === '.'))],
    walking the unread part [rest = input.slice(pos)]; the result is the
    value of [pos] when the loop is left. *)
Fixpoint numberLoop (rest : jsstring) (pos : nat) (hasDecimal : bool) : nat :=
  match rest with
  | [] => pos
  | c :: rest' =>
      if isDigit c || isDot c then
        if isDot c then
          if hasDecimal then pos
          else numberLoop rest' (S pos) true
        else numberLoop rest' (S pos) hasDecimal
      else pos
  end.

(** The inner loop of the identifier branch. *)
Fixpoint idLoop (rest : jsstring) (pos : nat) : nat :=
  match rest with
  | [] => pos
  | c :: rest' => if isIdChar c then idLoop rest' (S pos) else pos
  end.

Definition unexpectedCharacter (c : char) (pos : nat) : jsstring :=
  lit "Unexpected character '" ++ [c] ++ lit "' at position "
  ++ decimal (Z.of_nat pos).

(** One pass through the body of the main [while] loop: either the loop goes
    on with an updated token array and position, or the function returns. *)
Inductive Iteration :=
| Continue (tokens : list Token) (pos : nat)
| Return (r : TokenizeResult).

Definition loopBody (input : jsstring) (tokens : list Token) (pos : nat)
  : Iteration :=
  match nth_error input pos with
  | None =>
      Return (mkResult (tokens ++ [createToken EOF (lit "EOF") pos pos]) None None)
  | Some c =>
      if isSpace c then Continue tokens (S pos)
      else match property SINGLE_CHAR_TOKENS c with
      | Some ty => Continue (tokens ++ [createToken ty [c] pos (pos + 1)]) (S pos)
      | None =>
          if isDigit c then
            let start := pos in
            let pos := numberLoop (skipn pos input) pos false in
            Continue (tokens ++ [createToken NUMBER (slice input start pos) start pos]) pos
          else if isIdStart c then
            let start := pos in
            let pos := idLoop (skipn pos input) pos in
            Continue (tokens ++ [createToken ID (slice input start pos) start pos]) pos
          else
            Return (mkResult [] (Some (unexpectedCharacter c pos)) (Some pos))
      end
  end.

(** The main loop; [None] only when [fuel] passes do not reach the end. *)
Fixpoint tokenizeLoop (fuel : nat) (input : jsstring) (tokens : list Token)
  (pos : nat) : option TokenizeResult :=
  match fuel with
  | O => None
  | S fuel' =>
      match loopBody input tokens pos with
      | Continue tokens' pos' => tokenizeLoop fuel' input tokens' pos'
      | Return r => Some r
      end
  end.

(** Every pass but the last moves [pos] forward, so [input.length + 1] passes
    are enough (lemma [tokenize_total]). *)
Definition tokenize (input : jsstring) : option TokenizeResult :=
  tokenizeLoop (S (List.length input)) input [] 0.

(** The string a token type is in the source: [TokenType.NUMBER] is
    ['NUMBER'], and so on. *)
Definition typeName (type : TokenType) : jsstring :=
  match type with
  | NUMBER => lit "NUMBER"
  | ID => lit "ID"
  | PLUS => lit "PLUS"
  | MINUS => lit "MINUS"
  | STAR => lit "STAR"
  | SLASH => lit "SLASH"
  | LPAREN => lit "LPAREN"
  | RPAREN => lit "RPAREN"
  | EOF => lit "EOF"
  end.

(** The object [labels] of [tokenTypeLabel]; the signs in three of the labels
    are U+2212, U+00D7 and U+00F7. *)
Definition labels : list (TokenType * jsstring) :=
  [ (NUMBER, lit "Number"); (ID, lit "Identifier"); (PLUS, lit "Plus (+)");
    (MINUS, lit "Minus (" ++ [8722%N] ++ lit ")");
    (STAR, lit "Multiply (" ++ [215%N] ++ lit ")");
    (SLASH, lit "Divide (" ++ [247%N] ++ lit ")");
    (LPAREN, lit "Left Paren"); (RPAREN, lit "Right Paren");
    (EOF, lit "End of Input") ].

(** [tokenTypeLabel(type)], for [type] one of the nine token types:
    [labels[type] || type], the right-hand side being taken when the lookup
    gives nothing or the empty string. *)
Definition tokenTypeLabel (type : TokenType) : jsstring :=
  match option_map snd (find (fun entry => TokenType_eqb (fst entry) type) labels) with
  | Some (c :: l) => c :: l
  | _ => typeName type
  end.

End Tokenizer.

(** ** Parse tree nodes

    [createNode] of the parser makes [{ label, children, id }];
    [computeTreeLayout] later stores [_depth] and [_x] on the same objects, so
    the two fields are part of the node and absent ([None]) until written. *)
#[local] Unset Elimination Schemes.
Inductive Node := mkNode {
  label : jsstring;
  children : list Node;
  id : nat;
  _depth : option Z;
  _x : option Q
}.
#[local] Set Elimination Schemes.

(** ** The parser ([src/compiler/parser.js])

    The state of the parser is in five variables of the module, which the
    functions below read and write; they are threaded through as a record.
    A [ParseError] thrown inside the descent is caught in [parse]. *)
Module Parser.
Import Tokenizer.

(** A step log entry. *)
Module Step.
Record t := new {
  rule : jsstring;
  action : jsstring;
  token : jsstring;
  tokenType : TokenType;
  depth : Z;
  timestamp : nat
}.
End Step.

(** The five module-level variables of the parser.  They outlive a call of
    [parse]: the next call finds what the previous one left. *)
Module State.
Record t := new {
  tokens : list Token;
  currentIndex : nat;
  steps : list Step.t;
  nodeId : nat;
  depth : Z
}.
End State.

(** The exception class [ParseError]. *)
Module ParseError.
Record t := new {
  message : jsstring;
  pos : Z;
  token : Token
}.
End ParseError.

(** A computation over the module state either returns, throws a
    [ParseError], or (in the model only) runs out of recursion fuel. *)
Inductive Outcome (A : Type) :=
| Returns (a : A) (s : State.t)
| Throws (e : ParseError.t) (s : State.t)
| OutOfFuel.
Arguments Returns {A} a s.
Arguments Throws {A} e s.
Arguments OutOfFuel {A}.

Definition M (A : Type) := State.t -> Outcome A.

Definition ret {A} (a : A) : M A := fun s => Returns a s.

Definition bind {A B} (c : M A) (k : A -> M B) : M B :=
  fun s =>
    match c s with
    | Returns a s' => k a s'
    | Throws e s' => Throws e s'
    | OutOfFuel => OutOfFuel
    end.

(** [try { body } catch (err) { handler(err) }] *)
Definition try_catch {A} (body : M A) (handler : ParseError.t -> M A) : M A :=
  fun s =>
    match body s with
    | Returns a s' => Returns a s'
    | Throws e s' => handler e s'
    | OutOfFuel => OutOfFuel
    end.

Declare Scope parser_scope.
Delimit Scope parser_scope with parser.
Notation "x <- c ;; k" := (bind c (fun x => k))
  (at level 61, c at next level, right associativity) : parser_scope.
Notation "c ;; k" := (bind c (fun _ => k))
  (at level 61, right associativity) : parser_scope.
Local Open Scope parser_scope.

(** [tokens[currentIndex] || { type: EOF, value: 'EOF', pos: -1 }] *)
Definition lookahead (s : State.t) : Token :=
  match nth_error (State.tokens s) (State.currentIndex s) with
  | Some token => token
  | None => mkToken EOF (lit "EOF") (-1) None
  end.

(** [peek()]: the current token, not consumed. *)
Definition peek : M Token := fun s => Returns (lookahead s) s.

(** [consume()]: returns [tokens[currentIndex]], which may be [undefined],
    and advances the index. *)
Definition consume : M (option Token) :=
  fun s =>
    let token := nth_error (State.tokens s) (State.currentIndex s) in
    Returns token
      (State.new (State.tokens s) (S (State.currentIndex s)) (State.steps s)
         (State.nodeId s) (State.depth s)).

(** [createNode(label, children)]: the node takes the next id. *)
Definition createNode (label : jsstring) (children : list Node) : M Node :=
  fun s =>
    Returns (mkNode label children (State.nodeId s) None None)
      (State.new (State.tokens s) (State.currentIndex s) (State.steps s)
         (S (State.nodeId s)) (State.depth s)).

(** [logStep(rule, action, tokenInfo = null)]: every call in the source
    leaves [tokenInfo] out, so the token logged is the lookahead. *)
Definition logStep (rule action : jsstring) (tokenInfo : option Token) : M unit :=
  token <- match tokenInfo with Some t => ret t | None => peek end ;;
  fun s =>
    Returns tt
      (State.new (State.tokens s) (State.currentIndex s)
         (State.steps s ++
            [Step.new rule action (value token) (type token) (State.depth s)
               (List.length (State.steps s))])
         (State.nodeId s) (State.depth s)).

(** [parseError(expected)] throws; it never returns. *)
Definition parseError {A} (expected : jsstring) : M A :=
  token <- peek ;;
  let posInfo :=
    if (pos token >=? 0)%Z then lit " at position " ++ decimal (pos token)
    else [] in
  let got :=
    if TokenType_eqb (type token) EOF then lit "end of input"
    else lit "'" ++ value token ++ lit "'" in
  fun s =>
    Throws
      (ParseError.new
         (lit "Syntax Error" ++ posInfo ++ lit ": Expected " ++ expected
            ++ lit ", but found " ++ got)
         (pos token) token) s.

(** [depth++] and [depth--] *)
Definition depth_incr : M unit :=
  fun s =>
    Returns tt
      (State.new (State.tokens s) (State.currentIndex s) (State.steps s)
         (State.nodeId s) (State.depth s + 1)%Z).

Definition depth_decr : M unit :=
  fun s =>
    Returns tt
      (State.new (State.tokens s) (State.currentIndex s) (State.steps s)
         (State.nodeId s) (State.depth s - 1)%Z).

Definition rule_E : jsstring := lit "E " ++ arrow ++ lit " T E'".
Definition rule_T : jsstring := lit "T " ++ arrow ++ lit " F T'".

(** The five mutually recursive functions, one per nonterminal.  [fuel]
    bounds the nesting of calls. *)
Fixpoint parseE (fuel : nat) : M Node :=
  match fuel with
  | O => fun _ => OutOfFuel
  | S fuel =>
      depth_incr ;;
      logStep rule_E (lit "Enter E") None ;;
      tNode <- parseT fuel ;;
      ePrimeNode <- parseEPrime fuel ;;
      node <- createNode (lit "E") [tNode; ePrimeNode] ;;
      logStep rule_E (lit "Exit E") None ;;
      depth_decr ;;
      ret node
  end

with parseEPrime (fuel : nat) : M Node :=
  match fuel with
  | O => fun _ => OutOfFuel
  | S fuel =>
      depth_incr ;;
      token <- peek ;;
      if TokenType_eqb (type token) PLUS then
        logStep (lit "E' " ++ arrow ++ lit " + T E'") (lit "Match '+'") None ;;
        plusToken <- consume ;;
        plusNode <- createNode (lit "+") [] ;;
        tNode <- parseT fuel ;;
        ePrimeNode <- parseEPrime fuel ;;
        node <- createNode (lit "E'") [plusNode; tNode; ePrimeNode] ;;
        depth_decr ;;
        ret node
      else if TokenType_eqb (type token) MINUS then
        logStep (lit "E' " ++ arrow ++ lit " - T E'") (lit "Match '-'") None ;;
        minusToken <- consume ;;
        minusNode <- createNode (lit "-") [] ;;
        tNode <- parseT fuel ;;
        ePrimeNode <- parseEPrime fuel ;;
        node <- createNode (lit "E'") [minusNode; tNode; ePrimeNode] ;;
        depth_decr ;;
        ret node
      else
        logStep (lit "E' " ++ arrow ++ lit " " ++ epsilon)
          (lit "Epsilon (no match needed)") None ;;
        eps <- createNode epsilon [] ;;
        node <- createNode (lit "E'") [eps] ;;
        depth_decr ;;
        ret node
  end

with parseT (fuel : nat) : M Node :=
  match fuel with
  | O => fun _ => OutOfFuel
  | S fuel =>
      depth_incr ;;
      logStep rule_T (lit "Enter T") None ;;
      fNode <- parseF fuel ;;
      tPrimeNode <- parseTPrime fuel ;;
      node <- createNode (lit "T") [fNode; tPrimeNode] ;;
      logStep rule_T (lit "Exit T") None ;;
      depth_decr ;;
      ret node
  end

with parseTPrime (fuel : nat) : M Node :=
  match fuel with
  | O => fun _ => OutOfFuel
  | S fuel =>
      depth_incr ;;
      token <- peek ;;
      if TokenType_eqb (type token) STAR then
        logStep (lit "T' " ++ arrow ++ lit " * F T'") (lit "Match '*'") None ;;
        starToken <- consume ;;
        starNode <- createNode (lit "*") [] ;;
        fNode <- parseF fuel ;;
        tPrimeNode <- parseTPrime fuel ;;
        node <- createNode (lit "T'") [starNode; fNode; tPrimeNode] ;;
        depth_decr ;;
        ret node
      else if TokenType_eqb (type token) SLASH then
        logStep (lit "T' " ++ arrow ++ lit " / F T'") (lit "Match '/'") None ;;
        slashToken <- consume ;;
        slashNode <- createNode (lit "/") [] ;;
        fNode <- parseF fuel ;;
        tPrimeNode <- parseTPrime fuel ;;
        node <- createNode (lit "T'") [slashNode; fNode; tPrimeNode] ;;
        depth_decr ;;
        ret node
      else
        logStep (lit "T' " ++ arrow ++ lit " " ++ epsilon)
          (lit "Epsilon (no match needed)") None ;;
        eps <- createNode epsilon [] ;;
        node <- createNode (lit "T'") [eps] ;;
        depth_decr ;;
        ret node
  end

with parseF (fuel : nat) : M Node :=
  match fuel with
  | O => fun _ => OutOfFuel
  | S fuel =>
      depth_incr ;;
      token <- peek ;;
      if TokenType_eqb (type token) LPAREN then
        logStep (lit "F " ++ arrow ++ lit " ( E )") (lit "Match '('") None ;;
        consume ;;
        lparenNode <- createNode (lit "(") [] ;;
        eNode <- parseE fuel ;;
        closeParen <- peek ;;
        (if negb (TokenType_eqb (type closeParen) RPAREN)
         then parseError (lit "')'") else ret tt) ;;
        logStep (lit "F " ++ arrow ++ lit " ( E )") (lit "Match ')'") None ;;
        consume ;;
        rparenNode <- createNode (lit ")") [] ;;
        node <- createNode (lit "F") [lparenNode; eNode; rparenNode] ;;
        depth_decr ;;
        ret node
      else if TokenType_eqb (type token) NUMBER then
        logStep (lit "F " ++ arrow ++ lit " number")
          (lit "Match number '" ++ value token ++ lit "'") None ;;
        consume ;;
        leaf <- createNode (value token) [] ;;
        node <- createNode (lit "F") [leaf] ;;
        depth_decr ;;
        ret node
      else if TokenType_eqb (type token) ID then
        logStep (lit "F " ++ arrow ++ lit " id")
          (lit "Match identifier '" ++ value token ++ lit "'") None ;;
        consume ;;
        leaf <- createNode (value token) [] ;;
        node <- createNode (lit "F") [leaf] ;;
        depth_decr ;;
        ret node
      else
        parseError (lit "number, identifier, or " ++ dquote ++ lit "(" ++ dquote)
  end.

(** What [parse] returns. *)
Module Result.
Record t := new {
  tree : option Node;
  steps : list Step.t;
  error : option jsstring;
  errorPos : option Z
}.
End Result.

(** The first five statements of [parse]: every module variable is
    overwritten, whatever the previous call left in it. *)
Definition reset (tokenArray : list Token) : M unit :=
  fun _ => Returns tt (State.new tokenArray 0 [] 0 0%Z).

(** [[...steps]]: a copy of the step log. *)
Definition get_steps : M (list Step.t) :=
  fun s => Returns (State.steps s) s.

(** The body of the [try] block of [parse]. *)
Definition parse_try (fuel : nat) : M Result.t :=
  tree <- parseE fuel ;;
  remaining <- peek ;;
  (if negb (TokenType_eqb (type remaining) EOF)
   then parseError (lit "end of expression") else ret tt) ;;
  logStep (check_mark ++ lit " Parse Complete")
    (lit "Expression parsed successfully!") None ;;
  steps <- get_steps ;;
  ret (Result.new (Some tree) steps None None).

(** The [catch] block.  Only [ParseError]s are thrown in this model, so the
    [instanceof] test holds and the re-throw is not reached. *)
Definition parse_catch (err : ParseError.t) : M Result.t :=
  logStep (cross_mark ++ lit " Parse Error") (ParseError.message err) None ;;
  steps <- get_steps ;;
  ret (Result.new None steps (Some (ParseError.message err))
         (Some (ParseError.pos err))).

Definition parse_with (fuel : nat) (tokenArray : list Token) : M Result.t :=
  reset tokenArray ;;
  try_catch (parse_try fuel) parse_catch.

(** Nested calls beyond a fixed few each follow a consumed token, so a nesting
    bound of [4 * tokenArray.length + 3] is never reached (lemma
    [parse_returns]); a larger bound gives the same outcome (lemma
    [parse_with_more_fuel]). *)
Definition parse (tokenArray : list Token) : M Result.t :=
  parse_with (4 * List.length tokenArray + 3) tokenArray.

End Parser.

(** ** The layout engine ([src/compiler/treeLayout.js])

    Numbers are exact rationals.  The coordinates computed below are sums of
    multiples of 80 and 30, halved once per level of centring; a double holds
    such a value exactly as long as it needs no more than 53 bits, which is
    the case for the leaves always and for inner nodes unless several dozen
    centrings are nested.  Rounding beyond that is not modelled.  [None]
    stands for [NaN], the result of arithmetic on an absent field.

    A tree is a value here: a node object that occurred twice in a tree
    would be two nodes.  [parse] attaches every node it creates once. *)
Module TreeLayout.

Definition number := option Q.

Definition num (q : Q) : number := Some q.
Definition num_add (a b : number) : number :=
  match a, b with Some p, Some q => Some (p + q)%Q | _, _ => None end.
Definition num_sub (a b : number) : number :=
  match a, b with Some p, Some q => Some (p - q)%Q | _, _ => None end.
Definition num_mul (a b : number) : number :=
  match a, b with Some p, Some q => Some (p * q)%Q | _, _ => None end.
Definition num_div (a b : number) : number :=
  match a, b with Some p, Some q => Some (p / q)%Q | _, _ => None end.
(** [a > b], false when either side is [NaN] *)
Definition num_gt (a b : number) : bool :=
  match a, b with
  | Some p, Some q => match (p ?= q)%Q with Gt => true | _ => false end
  | _, _ => false
  end.
Definition num_of_Z (z : option Z) : number := option_map inject_Z z.
(** [a > b] on depths, false when either is absent *)
Definition Z_gt (a b : option Z) : bool :=
  match a, b with Some p, Some q => (p >? q)%Z | _, _ => false end.

Definition NODE_WIDTH : Q := 60.
Definition NODE_HEIGHT : Q := 50.
Definition LEVEL_HEIGHT : Q := 80.
Definition MIN_SIBLING_SEP : Q := 20.

Record Point := mkPoint { px : number; py : number }.

Record LayoutNode := mkLayoutNode {
  lid : nat;
  llabel : jsstring;
  x : number;
  y : number;
  depth : option Z;
  isLeaf : bool;
  isEpsilon : bool;
  isOperator : bool;
  isNonTerminal : bool
}.

Record Edge := mkEdge {
  fromId : nat;
  toId : nat;
  from : Point;
  to : Point
}.

Record Layout := mkLayout {
  nodes : list LayoutNode;
  edges : list Edge;
  width : number;
  height : number
}.

(** [assignDepth(node, d)] writes [node._depth]; the result is the node as the
    call leaves it. *)
Fixpoint assignDepth (node : Node) (d : Z) : Node :=
  match node with
  | mkNode label children id _ _x =>
      mkNode label (map (fun child => assignDepth child (d + 1)%Z) children)
        id (Some d) _x
  end.

(** [for (const child of children) assignX(child)], with [nextX] passed
    along; the children come back as the calls leave them. *)
Definition assignX_children (assignX : Node -> Q -> Node * Q)
  : list Node -> Q -> list Node * Q :=
  fix each (l : list Node) (nextX : Q) : list Node * Q :=
    match l with
    | [] => ([], nextX)
    | child :: l' =>
        let '(child, nextX) := assignX child nextX in
        let '(l', nextX) := each l' nextX in
        (child :: l', nextX)
    end.

(** [assignX(node)] with the closure variable [nextX] passed in and out; the
    result is the node as the call leaves it. *)
Fixpoint assignX (node : Node) (nextX : Q) : Node * Q :=
  match node with
  | mkNode label children id _depth _ =>
      match children with
      | [] =>
          (mkNode label [] id _depth (Some nextX),
           (nextX + (NODE_WIDTH + MIN_SIBLING_SEP))%Q)
      | _ :: _ =>
          let '(children, nextX) := assignX_children assignX children nextX in
          let firstChild := nth_error children 0 in
          let lastChild := nth_error children (List.length children - 1) in
          let mid :=
            match firstChild, lastChild with
            | Some f, Some l => num_div (num_add (_x f) (_x l)) (num 2)
            | _, _ => None
            end in
          (mkNode label children id _depth mid, nextX)
      end
  end.

(** The four variables [collect] updates. *)
Record Collected := mkCollected {
  c_nodes : list LayoutNode;
  c_edges : list Edge;
  maxX : number;
  maxDepth : option Z
}.

Definition half_width : number := num (NODE_WIDTH / 2).
Definition y_of (d : option Z) : number :=
  num_add (num_add (num_mul (num_of_Z d) (num LEVEL_HEIGHT))
             (num (NODE_HEIGHT / 2))) (num 20).

Definition layoutNode (node : Node) : LayoutNode :=
  mkLayoutNode (id node) (label node)
    (num_add (_x node) half_width) (y_of (_depth node)) (_depth node)
    (match children node with [] => true | _ => false end)
    (JS.eqb (label node) epsilon)
    (includes [lit "+"; lit "-"; lit "*"; lit "/"; lit "("; lit ")"] (label node))
    (includes [lit "E"; lit "E'"; lit "T"; lit "T'"; lit "F"] (label node)).

(** The loop over the children in [collect]: an edge is pushed, then the
    child is collected. *)
Definition collect_children (collect : Node -> Collected -> Collected)
  (nid : nat) (x y : number) : list Node -> Collected -> Collected :=
  fix each (l : list Node) (acc : Collected) : Collected :=
    match l with
    | [] => acc
    | child :: l' =>
        let childX := num_add (_x child) half_width in
        let childY := y_of (_depth child) in
        let acc :=
          mkCollected (c_nodes acc)
            (c_edges acc ++
               [mkEdge nid (id child)
                  (mkPoint x (num_add y (num 18)))
                  (mkPoint childX (num_sub childY (num 18)))])
            (maxX acc) (maxDepth acc) in
        each l' (collect child acc)
    end.

Fixpoint collect (node : Node) (acc : Collected) : Collected :=
  match node with
  | mkNode _ children nid _depth _x =>
      let x := num_add _x half_width in
      let y := y_of _depth in
      let acc :=
        mkCollected (c_nodes acc ++ [layoutNode node]) (c_edges acc)
          (if num_gt x (maxX acc) then x else maxX acc)
          (if Z_gt _depth (maxDepth acc) then _depth else maxDepth acc) in
      collect_children collect nid x y children acc
  end.

(** [computeTreeLayout(root)]: the layout it returns, and the tree as the call
    leaves it ([_depth] and [_x] are written on the caller's node objects). *)
Definition computeTreeLayout (root : option Node) : Layout * option Node :=
  match root with
  | None => (mkLayout [] [] (num 0) (num 0), None)
  | Some root =>
      let root := assignDepth root 0 in
      let nextX := 0%Q in
      let '(root, nextX) := assignX root nextX in
      let acc := collect root (mkCollected [] [] (num 0) (Some 0%Z)) in
      (mkLayout (c_nodes acc) (c_edges acc)
         (num_add (num_add (maxX acc) (num NODE_WIDTH)) (num 40))
         (num_add
            (num_mul (num_add (num_of_Z (maxDepth acc)) (num 1)) (num LEVEL_HEIGHT))
            (num 60)),
       Some root)
  end.

End TreeLayout.

(** ** The token table ([src/components/TokenTable.jsx])

    What the component computes before it renders: the tokens it shows and,
    for each, the cells of its row. *)
Module TokenTable.
Import Tokenizer.

(** [tokens.filter(t => t.type !== 'EOF')] *)
Definition displayTokens (tokens : list Token) : list Token :=
  filter (fun t => negb (JS.eqb (typeName (type t)) (lit "EOF"))) tokens.

(** A row of the table: the number shown in the first column, the label of
    the type, the value and the position. *)
Record Row := mkRow {
  number : nat;
  badge : jsstring;
  cell_value : jsstring;
  cell_pos : Z
}.

(** [displayTokens.map((token, index) => ...)] *)
Fixpoint rows_from (l : list Token) (index : nat) : list Row :=
  match l with
  | [] => []
  | token :: l' =>
      mkRow (index + 1) (tokenTypeLabel (type token)) (value token) (pos token)
      :: rows_from l' (S index)
  end.

(** The rows of the table, [None] when the component renders nothing
    ([!tokens || tokens.length === 0]). *)
Definition rows (tokens : list Token) : option (list Row) :=
  match tokens with
  | [] => None
  | _ :: _ => Some (rows_from (displayTokens tokens) 0)
  end.

End TokenTable.

(** ** The step log ([src/components/StepLog.jsx])

    How the component classifies a step, from the text of its action. *)
Module StepLog.
Import Parser.

Definition isError (step : Step.t) : bool :=
  str_includes (Step.action step) (lit "Error").
Definition isSuccess (step : Step.t) : bool :=
  str_includes (Step.action step) (lit "successfully").
Definition isEpsilon (step : Step.t) : bool :=
  str_includes (Step.action step) (lit "Epsilon").
Definition isMatch (step : Step.t) : bool :=
  str_includes (Step.action step) (lit "Match").
Definition isEnter (step : Step.t) : bool :=
  str_includes (Step.action step) (lit "Enter").
Definition isExit (step : Step.t) : bool :=
  str_includes (Step.action step) (lit "Exit").

(** [stepClass], for a step at [index] when [activeStep] is the active
    one. *)
Definition stepClass (step : Step.t) (index activeStep : Z) : jsstring :=
  lit "step-item"
  ++ (if (index =? activeStep)%Z then lit " active" else [])
  ++ (if (index <? activeStep)%Z then lit " past" else [])
  ++ (if isError step then lit " error" else [])
  ++ (if isSuccess step then lit " success" else []).

(** The seven icons, as UTF-16 code units. *)
Definition icon_play : jsstring := [9654%N].          (* U+25B6 *)
Definition icon_check : jsstring := [9989%N].         (* U+2705 *)
Definition icon_bolt : jsstring := [9889%N].          (* U+26A1 *)
Definition icon_inbox : jsstring := [55357%N; 56549%N].  (* U+1F4E5 *)
Definition icon_outbox : jsstring := [55357%N; 56548%N]. (* U+1F4E4 *)
Definition icon_cross : jsstring := [10060%N].        (* U+274C *)
Definition icon_party : jsstring := [55356%N; 57225%N].  (* U+1F389 *)

(** [actionIcon]: each [if] of the source overwrites the icon chosen by
    the ones before it. *)
Definition actionIcon (step : Step.t) : jsstring :=
  let actionIcon := icon_play in
  let actionIcon := if isMatch step then icon_check else actionIcon in
  let actionIcon := if isEpsilon step then icon_bolt else actionIcon in
  let actionIcon := if isEnter step then icon_inbox else actionIcon in
  let actionIcon := if isExit step then icon_outbox else actionIcon in
  let actionIcon := if isError step then icon_cross else actionIcon in
  let actionIcon := if isSuccess step then icon_party else actionIcon in
  actionIcon.

End StepLog.

(** ** The tree view ([src/components/ParseTreeView.jsx])

    The geometry the component computes from a layout and from the size of
    its container: the view box, the offset of the tree in it, and for each
    node its class, its radius and the centre of its circle. *)
Module ParseTreeView.
Import TreeLayout.

(** The state [dimensions]. *)
Record Dimensions := mkDimensions { dim_width : Q; dim_height : Q }.

(** [Math.max(a, b)], [NaN] when either is. *)
Definition num_max (a b : number) : number :=
  match a, b with
  | Some p, Some q => Some (if Qle_bool p q then q else p)
  | _, _ => None
  end.

Definition padding : Q := 40.

Definition viewBoxWidth (layout : Layout) (dimensions : Dimensions) : number :=
  num_max (num_add (width layout) (num (padding * 2))) (num (dim_width dimensions)).

Definition viewBoxHeight (layout : Layout) : number :=
  num_max (num_add (height layout) (num (padding * 2))) (num 400).

Definition offsetX (layout : Layout) (dimensions : Dimensions) : number :=
  num_max
    (num_div (num_sub (viewBoxWidth layout dimensions) (width layout)) (num 2))
    (num padding).

Definition offsetY : number := num padding.

(** [nodeClass] and [radius] of a node of the layout. *)
Definition nodeClass (node : LayoutNode) : jsstring :=
  if isEpsilon node then lit "epsilon"
  else if isOperator node then lit "operator"
  else if isLeaf node && negb (isNonTerminal node) then lit "terminal"
  else lit "non-terminal".

Definition radius (node : LayoutNode) : Q :=
  if isEpsilon node then 16
  else if isOperator node then 18
  else if isLeaf node && negb (isNonTerminal node) then 20
  else 22.

(** The centre of the circle drawn for a node. *)
Definition cx (layout : Layout) (dimensions : Dimensions) (node : LayoutNode)
  : number :=
  num_add (x node) (offsetX layout dimensions).

Definition cy (node : LayoutNode) : number := num_add (y node) offsetY.

End ParseTreeView.

(** ** The hook ([src/hooks/useParser.js])

    The nine state variables of the hook are a record; an event handler is a
    function from the state it finds to the state it leaves, each [setX(v)]
    of the handler being a write to the field.  [handleParse] calls [parse],
    so it runs over the module variables of the parser as well. *)
Module UseParser.
Import Tokenizer Parser.
Local Open Scope parser_scope.

Record HookState := mkHookState {
  input : jsstring;
  tokens : list Token;
  parseTree : option Node;
  steps : list Step.t;
  error : option jsstring;
  errorPos : option Z;
  isParsed : bool;
  activeStep : Z;
  isAnimating : bool
}.

(** [useState] initial values. *)
Definition initial : HookState :=
  mkHookState [] [] None [] None None false (-1) false.

(** [s.trim()]: white space and line terminators, the characters [/\s/]
    matches, are removed from both ends. *)
Fixpoint trimStart (s : jsstring) : jsstring :=
  match s with
  | [] => []
  | c :: s' => if isSpace c then trimStart s' else s
  end.

Definition trim (s : jsstring) : jsstring :=
  rev (trimStart (rev (trimStart s))).

(** A string or [null] read as a condition: [null] and the empty string are
    false. *)
Definition truthy (v : option jsstring) : bool :=
  match v with
  | Some (_ :: _) => true
  | _ => false
  end.

Definition handleParse (h : HookState) : M HookState :=
  (* Clear previous results *)
  let h := mkHookState (input h) [] None [] None None (isParsed h) (-1) false in
  if negb (truthy (Some (trim (input h)))) then
    ret (mkHookState (input h) (tokens h) (parseTree h) (steps h)
           (Some (lit "Please enter an expression to parse.")) (errorPos h)
           (isParsed h) (activeStep h) (isAnimating h))
  else
    (* Step 1: Tokenize *)
    match tokenize (input h) with
    | None => fun _ => OutOfFuel
    | Some result =>
        let tokenResult := Tokenizer.tokens result in
        let tokenError := Tokenizer.error result in
        let tokenErrorPos := Tokenizer.errorPos result in
        if truthy tokenError then
          ret (mkHookState (input h) (tokens h) (parseTree h) (steps h)
                 tokenError (option_map Z.of_nat tokenErrorPos)
                 false (activeStep h) (isAnimating h))
        else
          let h := mkHookState (input h) tokenResult (parseTree h) (steps h)
                     (error h) (errorPos h) (isParsed h) (activeStep h)
                     (isAnimating h) in
          (* Step 2: Parse *)
          result <- parse tokenResult ;;
          let h := mkHookState (input h) (tokens h) (parseTree h)
                     (Result.steps result) (error h) (errorPos h) (isParsed h)
                     (activeStep h) (isAnimating h) in
          if truthy (Result.error result) then
            ret (mkHookState (input h) (tokens h) (parseTree h) (steps h)
                   (Result.error result) (Result.errorPos result)
                   true (activeStep h) (isAnimating h))
          else
            ret (mkHookState (input h) (tokens h) (Result.tree result) (steps h)
                   (error h) (errorPos h) true (activeStep h) (isAnimating h))
    end.

Definition handleReset (h : HookState) : HookState :=
  mkHookState [] [] None [] None None false (-1) false.

End UseParser.

Import Tokenizer Parser TreeLayout.

(** * Vocabulary of the properties *)

(** ** Tokenizer *)

(** A character that begins no token: the main loop has no branch for it. *)
Definition beginsNoToken (c : char) : bool :=
  negb (isSpace c)
  && match property SINGLE_CHAR_TOKENS c with Some _ => false | None => true end
  && negb (isDigit c) && negb (isIdStart c).

(** The positions at which the main loop starts a pass. *)
Inductive TokenStart (input : jsstring) : nat -> Prop :=
| TokenStart_first : TokenStart input 0
| TokenStart_next pos tokens tokens' pos' :
    TokenStart input pos ->
    loopBody input tokens pos = Continue tokens' pos' ->
    TokenStart input pos'.

(** A token other than the end marker. *)
Definition notEOF (t : Token) : Prop := type t <> EOF.

(** ** Parser *)

(** What [parseError(expected)] throws when the lookahead is [token]. *)
Definition syntaxError (token : Token) (expected : jsstring) : ParseError.t :=
  ParseError.new
    (lit "Syntax Error"
       ++ (if (pos token >=? 0)%Z then lit " at position " ++ decimal (pos token) else [])
       ++ lit ": Expected " ++ expected ++ lit ", but found "
       ++ (if TokenType_eqb (type token) EOF then lit "end of input"
           else lit "'" ++ value token ++ lit "'"))
    (pos token) token.

(** The token array and the index: a call leaves the array alone and moves the
    index forward only, never past the end. *)
Definition frame (s s' : State.t) : Prop :=
  State.tokens s' = State.tokens s
  /\ State.currentIndex s <= State.currentIndex s'
  /\ (State.currentIndex s' <= Nat.max (State.currentIndex s) (List.length (State.tokens s))).

(** With [4 * remaining tokens + k] levels of nesting allowed, [c] does not
    run out of them, and it keeps the frame. *)
Definition framed {A} (k : nat) (fuel : nat) (c : M A) : Prop :=
  forall s,
    4 * (List.length (State.tokens s) - State.currentIndex s) + k <= fuel ->
    match c s with
    | Returns _ s' => frame s s'
    | Throws _ s' => frame s s'
    | OutOfFuel => False
    end.

(** The string [number, identifier, or "("] that [parseF] expects. *)
Definition expected_factor : jsstring :=
  lit "number, identifier, or " ++ dquote ++ lit "(" ++ dquote.

(** [e] is what [parseError] builds in state [s], for one of the two
    expectations of the nonterminal functions. *)
Definition raised (e : ParseError.t) (s : State.t) : Prop :=
  exists expected,
    (expected = lit "')'" \/ expected = expected_factor)
    /\ e = syntaxError (lookahead s) expected.

(** Whatever [c] throws was built by [parseError] in the state of the
    throw. *)
Definition throws_raised {A} (c : M A) : Prop :=
  forall s, match c s with Throws e s' => raised e s' | _ => True end.

(** The ids of a tree, children before their parent, left to right: the
    order in which [createNode] was called for them. *)
Fixpoint postorder (node : Node) : list nat :=
  match node with
  | mkNode _ children id _ _ => flat_map postorder children ++ [id]
  end.

(** [l] is [a, a+1, ..., b-1]. *)
Definition counts (a b : nat) (l : list nat) : Prop :=
  l = seq a (b - a) /\ a <= b.

(** The tree [c] returns carries, in creation order, the ids from the value
    of [nodeId] before the call up to its value after. *)
Definition numbers_nodes (c : M Node) : Prop :=
  forall s,
    match c s with
    | Returns node s' => counts (State.nodeId s) (State.nodeId s') (postorder node)
    | _ => True
    end.

(** From each entry of the list to the next, the value goes up by one at
    most. *)
Definition gentle (l : list Z) : Prop :=
  forall i a b, nth_error l i = Some a -> nth_error l (S i) = Some b -> (b <= a + 1)%Z.

(** The depth fields of a step log. *)
Definition depths (steps : list Step.t) : list Z := map Step.depth steps.

(** The depth of the last step logged, 0 before the first. *)
Definition level (steps : list Step.t) : Z := last (depths steps) 0%Z.

(** Between two calls: the log rises gently and the depth counter [d] is at
    most the depth of the last step. *)
Definition settled (steps : list Step.t) (d : Z) : Prop :=
  gentle (depths steps) /\ (d <= level steps)%Z.

(** Just after [depth++]: the counter may be one above the last step. *)
Definition entering (steps : list Step.t) (d : Z) : Prop :=
  gentle (depths steps) /\ (d <= level steps + 1)%Z.

(** [c] keeps the log gentle: settled when it returns, and when it throws
    ready for the failure step the [catch] block logs at the current depth. *)
Definition climbs_gently {A} (c : M A) : Prop :=
  forall s,
    settled (State.steps s) (State.depth s) ->
    match c s with
    | Returns _ s' => settled (State.steps s') (State.depth s')
    | Throws _ s' => entering (State.steps s') (State.depth s')
    | OutOfFuel => True
    end.


(** The [try] block of [parse], run after the five module variables have
    been reset. *)
Definition attempt (tokenArray : list Token) : Outcome Result.t :=
  parse_try (4 * List.length tokenArray + 3) (State.new tokenArray 0 [] 0 0%Z).

(** The step the [catch] block logs for [err] when the module state is [s]. *)
Definition failure_step (s : State.t) (err : ParseError.t) : Step.t :=
  Step.new (cross_mark ++ lit " Parse Error") (ParseError.message err)
    (value (lookahead s)) (type (lookahead s)) (State.depth s)
    (List.length (State.steps s)).

(** The module state and the result after the [catch] block. *)
Definition failure_state (s : State.t) (err : ParseError.t) : State.t :=
  State.new (State.tokens s) (State.currentIndex s)
    (State.steps s ++ [failure_step s err]) (State.nodeId s) (State.depth s).

Definition failure_result (s : State.t) (err : ParseError.t) : Result.t :=
  Result.new None (State.steps s ++ [failure_step s err])
    (Some (ParseError.message err)) (Some (ParseError.pos err)).

(** The three ways the [try] block ends. *)
Inductive attempt_spec (fuel : nat) (tokenArray : list Token) : Outcome Result.t -> Prop :=
| attempt_complete tree s :
    parseE fuel (State.new tokenArray 0 [] 0 0%Z) = Returns tree s ->
    type (lookahead s) = EOF ->
    attempt_spec fuel tokenArray
      (Returns
         (Result.new (Some tree)
            (State.steps s ++
               [Step.new (check_mark ++ lit " Parse Complete")
                  (lit "Expression parsed successfully!")
                  (value (lookahead s)) (type (lookahead s)) (State.depth s)
                  (List.length (State.steps s))])
            None None)
         (State.new (State.tokens s) (State.currentIndex s)
            (State.steps s ++
               [Step.new (check_mark ++ lit " Parse Complete")
                  (lit "Expression parsed successfully!")
                  (value (lookahead s)) (type (lookahead s)) (State.depth s)
                  (List.length (State.steps s))])
            (State.nodeId s) (State.depth s)))
| attempt_trailing tree s :
    parseE fuel (State.new tokenArray 0 [] 0 0%Z) = Returns tree s ->
    type (lookahead s) <> EOF ->
    attempt_spec fuel tokenArray
      (Throws (syntaxError (lookahead s) (lit "end of expression")) s)
| attempt_mismatch err s :
    parseE fuel (State.new tokenArray 0 [] 0 0%Z) = Throws err s ->
    attempt_spec fuel tokenArray (Throws err s).

(** ** The grammar

    Section 4.2 of the specification, as derivations over token lists; a
    terminal matches a token by its type. *)
Inductive Nonterminal := nE | nE' | nT | nT' | nF.

Inductive Derives : Nonterminal -> list Token -> Prop :=
| Derives_E t e :
    Derives nT t -> Derives nE' e -> Derives nE (t ++ e)
| Derives_E'_op op t e :
    type op = PLUS \/ type op = MINUS ->
    Derives nT t -> Derives nE' e -> Derives nE' (op :: t ++ e)
| Derives_E'_eps : Derives nE' []
| Derives_T f t :
    Derives nF f -> Derives nT' t -> Derives nT (f ++ t)
| Derives_T'_op op f t :
    type op = STAR \/ type op = SLASH ->
    Derives nF f -> Derives nT' t -> Derives nT' (op :: f ++ t)
| Derives_T'_eps : Derives nT' []
| Derives_F_paren l e r :
    type l = LPAREN -> Derives nE e -> type r = RPAREN ->
    Derives nF (l :: e ++ [r])
| Derives_F_number n : type n = NUMBER -> Derives nF [n]
| Derives_F_id i : type i = ID -> Derives nF [i].

(** The function of the parser for each nonterminal. *)
Definition parse_nonterminal (nt : Nonterminal) : nat -> M Node :=
  match nt with
  | nE => parseE | nE' => parseEPrime | nT => parseT | nT' => parseTPrime
  | nF => parseF
  end.

(** The type of the token the parser sees in front of [rest]. *)
Definition next_type (rest : list Token) : TokenType :=
  match rest with [] => EOF | t :: _ => type t end.

(** A token type after which the function for [nt] stops. *)
Definition stops (nt : Nonterminal) (ty : TokenType) : Prop :=
  match nt with
  | nF => True
  | nT | nT' => ty <> STAR /\ ty <> SLASH
  | nE | nE' => ty <> PLUS /\ ty <> MINUS /\ ty <> STAR /\ ty <> SLASH
  end.

(** Started in front of [ts ++ rest], with [rest] beginning with a token
    after which [nt] stops, the function for [nt] does not throw: it returns
    with the index in front of [rest]. *)
Definition parsed_by (nt : Nonterminal) (ts : list Token) : Prop :=
  forall fuel s rest,
    skipn (State.currentIndex s) (State.tokens s) = ts ++ rest ->
    stops nt (next_type rest) ->
    match parse_nonterminal nt fuel s with
    | Returns _ s' =>
        State.tokens s' = State.tokens s
        /\ skipn (State.currentIndex s') (State.tokens s') = rest
    | Throws _ _ => False
    | OutOfFuel => True
    end.

(** Token arrays of the examples, as [tokenize] produces them. *)
Definition tok (ty : TokenType) (v : string) (start stop : nat) : Token :=
  createToken ty (lit v) start stop.

Definition tokens_1_plus_2 : list Token :=
  [tok NUMBER "1" 0 1; tok PLUS "+" 1 2; tok NUMBER "2" 2 3; tok EOF "EOF" 3 3].

Definition tokens_3_4 : list Token :=
  [tok NUMBER "3" 0 1; tok NUMBER "4" 2 3; tok EOF "EOF" 3 3].

Definition tokens_3_plus : list Token :=
  [tok NUMBER "3" 0 1; tok PLUS "+" 1 2; tok EOF "EOF" 2 2].

(** An array without [EOF] token at its end. *)
Definition tokens_unclosed : list Token :=
  [tok LPAREN "(" 0 1; tok NUMBER "1" 1 2].

(** The module variables as the module initialises them. *)
Definition fresh_state : State.t := State.new [] 0 [] 0 0%Z.

(** The tokens of ["(1+2"] and of ["2*(3+4)-5/1"] (section 8 of the
    specification). *)
Definition tokens_open_1_plus_2 : list Token :=
  [tok LPAREN "(" 0 1; tok NUMBER "1" 1 2; tok PLUS "+" 2 3; tok NUMBER "2" 3 4;
   tok EOF "EOF" 4 4].

Definition tokens_long : list Token :=
  [tok NUMBER "2" 0 1; tok STAR "*" 1 2; tok LPAREN "(" 2 3; tok NUMBER "3" 3 4;
   tok PLUS "+" 4 5; tok NUMBER "4" 5 6; tok RPAREN ")" 6 7; tok MINUS "-" 7 8;
   tok NUMBER "5" 8 9; tok SLASH "/" 9 10; tok NUMBER "1" 10 11;
   tok EOF "EOF" 11 11].

(** The call [parseE()] that [parse] makes after resetting the module
    variables. *)
Definition descent (tokenArray : list Token) : Outcome Node :=
  parseE (4 * List.length tokenArray + 3) (State.new tokenArray 0 [] 0 0%Z).

(** ** Layout *)

(** The nodes of a tree, a parent before its children, left to right: the
    order in which [collect] visits them. *)
Fixpoint preorder (node : Node) : list Node :=
  node :: match node with
          | mkNode _ children _ _ _ => flat_map preorder children
          end.

(** The leaves of a tree, left to right. *)
Fixpoint leaves (node : Node) : list Node :=
  match node with
  | mkNode _ children _ _ _ =>
      match children with
      | [] => [node]
      | _ :: _ => flat_map leaves children
      end
  end.

(** A tree without the two fields the layout writes. *)
Fixpoint erase (node : Node) : Node :=
  match node with
  | mkNode label children id _ _ => mkNode label (map erase children) id None None
  end.

(** The distance from one leaf to the next. *)
Definition step_x : Q := (NODE_WIDTH + MIN_SIBLING_SEP)%Q.

(** The leaves [l] hold, in turn, [nextX], [nextX + step_x], ... in [_x]. *)
Fixpoint spaced (nextX : Q) (l : list Node) : Prop :=
  match l with
  | [] => True
  | a :: l' => _x a = Some nextX /\ spaced (nextX + step_x)%Q l'
  end.

(** The value of [nextX] after the leaves [l]. *)
Fixpoint after (nextX : Q) (l : list Node) : Q :=
  match l with
  | [] => nextX
  | _ :: l' => after (nextX + step_x)%Q l'
  end.

(** A node with children holds in [_x] the midpoint of the [_x] of its first
    and of its last child. *)
Definition centred (node : Node) : Prop :=
  match children node with
  | [] => True
  | first :: rest =>
      exists xf xl,
        _x first = Some xf /\ _x (last rest first) = Some xl
        /\ _x node = Some ((xf + xl) / 2)%Q
  end.

(** The field is present on the node. *)
Definition has_x (node : Node) : Prop := _x node <> None.
Definition has_depth (node : Node) : Prop := _depth node <> None.

(** What [assignX] does to a tree [before], called with [nextX]: [result] is
    the tree it leaves and the new value of [nextX]. *)
Record placed (nextX : Q) (before : Node) (result : Node * Q) : Prop := {
  placed_erase : erase (fst result) = erase before;
  placed_depth : Forall has_depth (preorder before) ->
                 Forall has_depth (preorder (fst result));
  placed_x : Forall has_x (preorder (fst result));
  placed_centred : Forall centred (preorder (fst result));
  placed_leaves : spaced nextX (leaves (fst result));
  placed_next : snd result = after nextX (leaves (fst result));
  placed_some : leaves (fst result) <> []
}.

(** The same for the loop over the children of a node. *)
Record placed_all (nextX : Q) (before : list Node) (result : list Node * Q) : Prop := {
  all_length : List.length (fst result) = List.length before;
  all_erase : map erase (fst result) = map erase before;
  all_depth : Forall has_depth (flat_map preorder before) ->
              Forall has_depth (flat_map preorder (fst result));
  all_x : Forall has_x (flat_map preorder (fst result));
  all_root_x : Forall has_x (fst result);
  all_centred : Forall centred (flat_map preorder (fst result));
  all_leaves : spaced nextX (flat_map leaves (fst result));
  all_next : snd result = after nextX (flat_map leaves (fst result));
  all_some : before <> [] -> flat_map leaves (fst result) <> []
}.

(** The tree [parse] returns for a token array, null when it fails. *)
Definition parse_tree (tokenArray : list Token) : option Node :=
  match Parser.parse tokenArray fresh_state with
  | Parser.Returns r _ => Parser.Result.tree r
  | _ => None
  end.

(** The tokens of ["3"] and of ["(1)"]. *)
Definition tokens_3 : list Token := [tok NUMBER "3" 0 1; tok EOF "EOF" 1 1].

Definition tokens_paren_1 : list Token :=
  [tok LPAREN "(" 0 1; tok NUMBER "1" 1 2; tok RPAREN ")" 2 3; tok EOF "EOF" 3 3].

(** ** Tokens and the input *)

(** The text a token of each type holds: a number is a digit followed by
    digits and one dot at most; an identifier is a letter or an underscore
    followed by letters, digits and underscores; an operator or a parenthesis
    is its one character. *)
Definition lexeme (ty : TokenType) (v : jsstring) : bool :=
  match ty with
  | NUMBER =>
      match v with
      | d :: ds =>
          isDigit d && forallb (fun c => isDigit c || isDot c) ds
          && (List.length (filter isDot ds) <=? 1)
      | [] => false
      end
  | ID =>
      match v with
      | c :: cs => isIdStart c && forallb isIdChar cs
      | [] => false
      end
  | PLUS => JS.eqb v (lit "+")
  | MINUS => JS.eqb v (lit "-")
  | STAR => JS.eqb v (lit "*")
  | SLASH => JS.eqb v (lit "/")
  | LPAREN => JS.eqb v (lit "(")
  | RPAREN => JS.eqb v (lit ")")
  | EOF => JS.eqb v (lit "EOF")
  end.

(** The character [c] that follows a token in the input could not have been
    added to it: after a number comes no digit, and a dot only when the number
    holds one; after an identifier comes no letter, digit or underscore. *)
Definition ends_scan (ty : TokenType) (v : jsstring) (c : char) : bool :=
  match ty with
  | NUMBER => negb (isDigit c) && (negb (isDot c) || existsb isDot v)
  | ID => negb (isIdChar c)
  | _ => true
  end.

(** [t] is a token scanned from the characters [p] to [e - 1] of [input]. *)
Record lexed (input : jsstring) (p e : nat) (t : Token) : Prop := {
  lexed_pos : pos t = Z.of_nat p;
  lexed_end : end_ t = Some (Z.of_nat e);
  lexed_range : p < e <= List.length input;
  lexed_value : value t = slice input p e;
  lexed_type : type t <> EOF;
  lexed_lexeme : lexeme (type t) (value t) = true;
  lexed_longest : forall c, nth_error input e = Some c ->
                            ends_scan (type t) (value t) c = true
}.

(** The main loop at work: [tiles input tokens n] when the passes over the
    first [n] characters of [input] skipped white space and pushed
    [tokens]. *)
Inductive tiles (input : jsstring) : list Token -> nat -> Prop :=
| tiles_start : tiles input [] 0
| tiles_space tokens p c :
    tiles input tokens p -> nth_error input p = Some c -> isSpace c = true ->
    tiles input tokens (S p)
| tiles_token tokens p e t :
    tiles input tokens p -> lexed input p e t ->
    tiles input (tokens ++ [t]) e.

(** [a] ends before [b] begins. *)
Definition precedes (a b : Token) : Prop :=
  exists e, end_ a = Some e /\ (e <= pos b)%Z.

(** The characters of a string that are not white space. *)
Definition visible (s : jsstring) : jsstring :=
  filter (fun c => negb (isSpace c)) s.

(** ** Parse trees *)

(** The token at index [i] of the array, or the stand-in the parser sees
    past its end. *)
Definition token_at (tokenArray : list Token) (i : nat) : Token :=
  match nth_error tokenArray i with
  | Some token => token
  | None => mkToken EOF (lit "EOF") (-1) None
  end.

(** [ParseTree nt ts node]: [node] is the tree the parser builds for a
    derivation of the tokens [ts] from [nt].  Inner nodes carry the name of
    their nonterminal; below them, in order, are the nodes of the right-hand
    side of the production used: a leaf with the character of an operator or
    parenthesis, a leaf with the text of a number or identifier, and a leaf
    with the letter epsilon where the production is empty.  Ids are free. *)
Inductive ParseTree : Nonterminal -> list Token -> Node -> Prop :=
| ParseTree_E t e a b id :
    ParseTree nT t a -> ParseTree nE' e b ->
    ParseTree nE (t ++ e) (mkNode (lit "E") [a; b] id None None)
| ParseTree_E'_plus op t e a b i id :
    type op = PLUS -> ParseTree nT t a -> ParseTree nE' e b ->
    ParseTree nE' (op :: t ++ e)
      (mkNode (lit "E'") [mkNode (lit "+") [] i None None; a; b] id None None)
| ParseTree_E'_minus op t e a b i id :
    type op = MINUS -> ParseTree nT t a -> ParseTree nE' e b ->
    ParseTree nE' (op :: t ++ e)
      (mkNode (lit "E'") [mkNode (lit "-") [] i None None; a; b] id None None)
| ParseTree_E'_eps i id :
    ParseTree nE' [] (mkNode (lit "E'") [mkNode epsilon [] i None None] id None None)
| ParseTree_T f t a b id :
    ParseTree nF f a -> ParseTree nT' t b ->
    ParseTree nT (f ++ t) (mkNode (lit "T") [a; b] id None None)
| ParseTree_T'_star op f t a b i id :
    type op = STAR -> ParseTree nF f a -> ParseTree nT' t b ->
    ParseTree nT' (op :: f ++ t)
      (mkNode (lit "T'") [mkNode (lit "*") [] i None None; a; b] id None None)
| ParseTree_T'_slash op f t a b i id :
    type op = SLASH -> ParseTree nF f a -> ParseTree nT' t b ->
    ParseTree nT' (op :: f ++ t)
      (mkNode (lit "T'") [mkNode (lit "/") [] i None None; a; b] id None None)
| ParseTree_T'_eps i id :
    ParseTree nT' [] (mkNode (lit "T'") [mkNode epsilon [] i None None] id None None)
| ParseTree_F_paren l e r a i j id :
    type l = LPAREN -> ParseTree nE e a -> type r = RPAREN ->
    ParseTree nF (l :: e ++ [r])
      (mkNode (lit "F")
         [mkNode (lit "(") [] i None None; a; mkNode (lit ")") [] j None None]
         id None None)
| ParseTree_F_number n i id :
    type n = NUMBER ->
    ParseTree nF [n] (mkNode (lit "F") [mkNode (value n) [] i None None] id None None)
| ParseTree_F_id n i id :
    type n = ID ->
    ParseTree nF [n] (mkNode (lit "F") [mkNode (value n) [] i None None] id None None).

(** The tree [c] returns is a tree for the tokens [c] has consumed. *)
Definition builds (nt : Nonterminal) (c : M Node) : Prop :=
  forall s,
    match c s with
    | Returns node s' =>
        State.tokens s' = State.tokens s
        /\ exists ts,
             skipn (State.currentIndex s) (State.tokens s) =
               ts ++ skipn (State.currentIndex s') (State.tokens s)
             /\ ParseTree nt ts node
    | _ => True
    end.

(** The leaf the parser makes for a token: the character of an operator or
    parenthesis, the text of a number or identifier. *)
Definition symbol (t : Token) : jsstring :=
  match type t with
  | PLUS => lit "+"
  | MINUS => lit "-"
  | STAR => lit "*"
  | SLASH => lit "/"
  | LPAREN => lit "("
  | RPAREN => lit ")"
  | _ => value t
  end.

(** The labels of the leaves of a tree, left to right. *)
Fixpoint frontier (node : Node) : list jsstring :=
  match node with
  | mkNode label children _ _ _ =>
      match children with
      | [] => [label]
      | _ :: _ => flat_map frontier children
      end
  end.

(** A list of labels without the epsilon leaves. *)
Definition spoken (labels : list jsstring) : list jsstring :=
  filter (fun l => negb (JS.eqb l epsilon)) labels.

(** The tokens of ["(a)*2"]. *)
Definition tokens_paren_a_times_2 : list Token :=
  [tok LPAREN "(" 0 1; tok ID "a" 1 2; tok RPAREN ")" 2 3; tok STAR "*" 3 4;
   tok NUMBER "2" 4 5; tok EOF "EOF" 5 5].

(** ** Step logs *)

(** The timestamps of a log are 0, 1, 2, ... *)
Definition stamped (steps : list Step.t) : Prop :=
  map Step.timestamp steps = seq 0 (List.length steps).

Definition stamps {A} (c : M A) : Prop :=
  forall s,
    stamped (State.steps s) ->
    match c s with
    | Returns _ s' => stamped (State.steps s')
    | Throws _ s' => stamped (State.steps s')
    | OutOfFuel => True
    end.

(** [steps'] is [steps] followed by steps that are all logged at a depth
    above [d]. *)
Definition deeper (d : Z) (steps steps' : list Step.t) : Prop :=
  exists new,
    steps' = steps ++ new /\ Forall (fun st => (d < Step.depth st)%Z) new.

(** A call leaves the depth counter as it found it, and logs above it; when
    it throws, the counter is left above where it was. *)
Definition nests {A} (c : M A) : Prop :=
  forall s,
    match c s with
    | Returns _ s' =>
        State.depth s' = State.depth s
        /\ deeper (State.depth s) (State.steps s) (State.steps s')
    | Throws _ s' =>
        (State.depth s < State.depth s')%Z
        /\ deeper (State.depth s) (State.steps s) (State.steps s')
    | OutOfFuel => True
    end.

(** The step [parseE] logs first. *)
Definition enter_step (s : State.t) : Step.t :=
  Step.new rule_E (lit "Enter E") (value (lookahead s)) (type (lookahead s))
    (State.depth s + 1)%Z (List.length (State.steps s)).

(** The steps [StepLog] marks as matches, each with the token it records,
    are the tokens before index [i] of the array. *)
Definition replayed (tokenArray : list Token) (i : nat) (steps : list Step.t)
  : Prop :=
  map (fun step => (Step.token step, Step.tokenType step))
    (filter StepLog.isMatch steps)
  = map (fun t => (value t, type t)) (firstn i tokenArray).

Definition replays {A} (c : M A) : Prop :=
  forall s,
    replayed (State.tokens s) (State.currentIndex s) (State.steps s) ->
    match c s with
    | Returns _ s' =>
        replayed (State.tokens s') (State.currentIndex s') (State.steps s')
    | Throws _ s' =>
        replayed (State.tokens s') (State.currentIndex s') (State.steps s')
    | OutOfFuel => True
    end.

(** No token before index [i] is an [EOF] token. *)
Definition unread (tokenArray : list Token) (i : nat) : Prop :=
  Forall notEOF (firstn i tokenArray).

Definition keeps_end {A} (c : M A) : Prop :=
  forall s,
    unread (State.tokens s) (State.currentIndex s) ->
    match c s with
    | Returns _ s' => unread (State.tokens s') (State.currentIndex s')
    | Throws _ s' => unread (State.tokens s') (State.currentIndex s')
    | OutOfFuel => True
    end.

(** ** Levels, edges and extent *)

(** [Leveled d node]: [node] holds [d] in [_depth], its children [d + 1],
    and so on down the tree. *)
#[local] Unset Elimination Schemes.
Inductive Leveled : Z -> Node -> Prop :=
| Leveled_node d label children id x :
    Forall (Leveled (d + 1)) children ->
    Leveled d (mkNode label children id (Some d) x).
#[local] Set Elimination Schemes.

(** Two nodes on one level are at least a node and a gap apart, the first to
    the left. *)
Definition clear_of (a b : Node) : Prop :=
  _depth a = _depth b ->
  exists qa qb, _x a = Some qa /\ _x b = Some qb
    /\ (qa + (NODE_WIDTH + MIN_SIBLING_SEP) <= qb)%Q.

(** [node] holds an [_x] from [lo] on, and leaves room for itself and a gap
    before [hi]. *)
Definition between (lo hi : Q) (node : Node) : Prop :=
  exists q, _x node = Some q /\ (lo <= q)%Q
    /\ (q + (NODE_WIDTH + MIN_SIBLING_SEP) <= hi)%Q.

(** [node] holds a depth of [d] or more. *)
Definition at_least (d : Z) (node : Node) : Prop :=
  exists e, _depth node = Some e /\ (d <= e)%Z.

(** What [assignX] does to a tree that holds its depths. *)
Record arranged (d : Z) (nextX : Q) (result : Node * Q) : Prop := {
  arranged_leveled : Leveled d (fst result);
  arranged_depths : Forall (at_least d) (preorder (fst result));
  arranged_next : (nextX + (NODE_WIDTH + MIN_SIBLING_SEP) <= snd result)%Q;
  arranged_between : Forall (between nextX (snd result)) (preorder (fst result));
  arranged_clear : ForallOrdPairs clear_of (preorder (fst result))
}.

Record arranged_all (d : Z) (nextX : Q) (result : list Node * Q) : Prop := {
  all_leveled : Forall (Leveled d) (fst result);
  all_depths : Forall (at_least d) (flat_map preorder (fst result));
  all_next_le : (nextX <= snd result)%Q;
  all_between : Forall (between nextX (snd result)) (flat_map preorder (fst result));
  all_clear : ForallOrdPairs clear_of (flat_map preorder (fst result))
}.

(** The edges [collect] pushes for a node [nid] whose lower end is [from]:
    for each child in turn, the edge to it and then the edges below it. *)
Definition child_edges (tree_edges : Node -> list Edge) (nid : nat) (from : Point)
  : list Node -> list Edge :=
  fix each (l : list Node) : list Edge :=
    match l with
    | [] => []
    | child :: l' =>
        mkEdge nid (id child) from
          (mkPoint (num_add (_x child) half_width)
             (num_sub (y_of (_depth child)) (num 18)))
        :: tree_edges child ++ each l'
    end.

Fixpoint tree_edges (node : Node) : list Edge :=
  match node with
  | mkNode _ children nid d x =>
      child_edges tree_edges nid
        (mkPoint (num_add x half_width) (num_add (y_of d) (num 18))) children
  end.

(** The edge from [parent] to [child]. *)
Definition edge_of (parent child : Node) : Edge :=
  mkEdge (id parent) (id child)
    (mkPoint (x (layoutNode parent)) (num_add (y (layoutNode parent)) (num 18)))
    (mkPoint (x (layoutNode child)) (num_sub (y (layoutNode child)) (num 18))).

(** [if (v > max) max = v] *)
Definition raise (max v : number) : number := if num_gt v max then v else max.
Definition raise_depth (max v : option Z) : option Z := if Z_gt v max then v else max.

(** The tree of ["3"]: an [F] node over the leaf [3]. *)
Definition tree_F_3 : Node :=
  mkNode (lit "F") [mkNode (lit "3") [] 0 None None] 1 None None.

(** ** Hook and components *)

(** The [EOF] token [tokenize] appends for [input]. *)
Definition end_token (input : jsstring) : Token :=
  createToken EOF (lit "EOF") (List.length input) (List.length input).

(** The state [handleParse] leaves when the input is blank, when the
    tokenizer fails at the character [c] at [p], and when the parser has
    returned [r] for [tokenArray]. *)
Definition blank_state (h : UseParser.HookState) : UseParser.HookState :=
  UseParser.mkHookState (UseParser.input h) [] None []
    (Some (lit "Please enter an expression to parse.")) None
    (UseParser.isParsed h) (-1) false.

Definition lexical_error_state (h : UseParser.HookState) (c : char) (p : nat)
  : UseParser.HookState :=
  UseParser.mkHookState (UseParser.input h) [] None []
    (Some (unexpectedCharacter c p)) (Some (Z.of_nat p)) false (-1) false.

Definition parsed_state (h : UseParser.HookState) (tokenArray : list Token)
  (r : Result.t) : UseParser.HookState :=
  if UseParser.truthy (Result.error r) then
    UseParser.mkHookState (UseParser.input h) tokenArray None (Result.steps r)
      (Result.error r) (Result.errorPos r) true (-1) false
  else
    UseParser.mkHookState (UseParser.input h) tokenArray (Result.tree r)
      (Result.steps r) None None true (-1) false.

(** The hook states of two input lines. *)
Definition hook_with (input : string) : UseParser.HookState :=
  UseParser.mkHookState (lit input) [] None [] None None false (-1) false.

(** The class [ParseTreeView] gives a node with [label] that is a leaf, or
    is not. *)
Definition class_of (label : jsstring) (leaf : bool) : jsstring :=
  ParseTreeView.nodeClass
    (mkLayoutNode 0 label None None None leaf
       (JS.eqb label epsilon)
       (includes [lit "+"; lit "-"; lit "*"; lit "/"; lit "("; lit ")"] label)
       (includes [lit "E"; lit "E'"; lit "T"; lit "T'"; lit "F"] label)).

(** A node with children is drawn as a non-terminal; a leaf is drawn as one
    only when its label is [E], [T] or [F]. *)
Definition well_classed (label : jsstring) (leaf : bool) : Prop :=
  if leaf then
    class_of label true = lit "non-terminal"
    <-> In label [lit "E"; lit "T"; lit "F"]
  else class_of label false = lit "non-terminal".

(** Whether a node is a leaf. *)
Definition is_leaf (node : Node) : bool :=
  match children node with [] => true | _ :: _ => false end.

(** * Properties of the tokenizer *)

Lemma numberLoop_bounds rest :
  forall pos hasDecimal,
    pos <= numberLoop rest pos hasDecimal <= pos + List.length rest.
Proof.
  induction rest as [|c rest IH]; intros pos hasDecimal; simpl; [lia|].
  destruct (isDigit c || isDot c); [|lia].
  destruct (isDot c).
  - destruct hasDecimal; [lia|]. specialize (IH (S pos) true). lia.
  - specialize (IH (S pos) hasDecimal). lia.
Qed.

Lemma digit_not_dot c : isDigit c = true -> isDot c = false.
Proof.
  unfold isDigit, isDot. intros H.
  apply andb_true_iff in H as [H1 H2].
  apply N.leb_le in H1. apply N.eqb_neq. lia.
Qed.

Lemma numberLoop_progress c rest pos hasDecimal :
  isDigit c = true -> pos < numberLoop (c :: rest) pos hasDecimal.
Proof.
  intros Hd. simpl. rewrite Hd, (digit_not_dot _ Hd). simpl.
  pose proof (numberLoop_bounds rest (S pos) hasDecimal). lia.
Qed.

Lemma idLoop_bounds rest :
  forall pos, pos <= idLoop rest pos <= pos + List.length rest.
Proof.
  induction rest as [|c rest IH]; intros pos; simpl; [lia|].
  destruct (isIdChar c); [|lia]. specialize (IH (S pos)). lia.
Qed.

Lemma idLoop_progress c rest pos :
  isIdStart c = true -> pos < idLoop (c :: rest) pos.
Proof.
  intros Hd. simpl. unfold isIdChar. rewrite Hd. simpl.
  pose proof (idLoop_bounds rest (S pos)). lia.
Qed.

Lemma skipn_nth_error_cons {A} (l : list A) n x :
  nth_error l n = Some x -> exists rest, skipn n l = x :: rest /\ List.length l = n + S (List.length rest).
Proof.
  revert l. induction n as [|n IH]; intros [|y l] H; simpl in *; try discriminate.
  - injection H as ->. eauto.
  - destruct (IH _ H) as (rest & -> & ->). eauto.
Qed.

Lemma SINGLE_CHAR_TOKENS_notEOF c ty :
  property SINGLE_CHAR_TOKENS c = Some ty -> ty <> EOF.
Proof.
  unfold property, SINGLE_CHAR_TOKENS. cbn [find fst snd].
  repeat match goal with |- context [if ?b then _ else _] => destruct b end;
    cbn [option_map snd]; intros H; try discriminate; injection H as <-; discriminate.
Qed.

(** What one pass that goes on does: [pos] moves forward, stays within the
    input, and one token that is not [EOF] is pushed at most. *)
Lemma loopBody_Continue input tokens pos tokens' pos' :
  loopBody input tokens pos = Continue tokens' pos' ->
  pos < pos' <= List.length input /\
  exists new, tokens' = tokens ++ new /\ Forall notEOF new.
Proof.
  unfold loopBody. destruct (nth_error input pos) as [c|] eqn:Hc; [|discriminate].
  destruct (skipn_nth_error_cons _ _ _ Hc) as (rest & Hrest & Hlen).
  destruct (isSpace c).
  { intros H; injection H as <- <-. split; [lia|]. exists []. rewrite app_nil_r. auto. }
  destruct (property SINGLE_CHAR_TOKENS c) as [ty|] eqn:Hty.
  { intros H; injection H as <- <-. split; [lia|]. eexists; split; [reflexivity|].
    constructor; [|constructor]. exact (SINGLE_CHAR_TOKENS_notEOF _ _ Hty). }
  destruct (isDigit c) eqn:Hd.
  { intros H; injection H as <- <-. rewrite Hrest. split.
    - pose proof (numberLoop_progress c rest pos false Hd).
      pose proof (numberLoop_bounds (c :: rest) pos false). simpl in *. lia.
    - eexists; split; [reflexivity|]. constructor; [discriminate|constructor]. }
  destruct (isIdStart c) eqn:Hi; [|discriminate].
  intros H; injection H as <- <-. rewrite Hrest. split.
  - pose proof (idLoop_progress c rest pos Hi).
    pose proof (idLoop_bounds (c :: rest) pos). simpl in *. lia.
  - eexists; split; [reflexivity|]. constructor; [discriminate|constructor].
Qed.

(** The two ways a pass returns. *)
Lemma loopBody_Return input tokens pos r :
  loopBody input tokens pos = Return r ->
  (List.length input <= pos /\
   r = mkResult (tokens ++ [createToken EOF (lit "EOF") pos pos]) None None)
  \/ (exists c, nth_error input pos = Some c /\ beginsNoToken c = true /\
      r = mkResult [] (Some (unexpectedCharacter c pos)) (Some pos)).
Proof.
  unfold loopBody, beginsNoToken.
  destruct (nth_error input pos) as [c|] eqn:Hc.
  - destruct (isSpace c) eqn:Hs; [discriminate|].
    destruct (property SINGLE_CHAR_TOKENS c) eqn:Ht; [discriminate|].
    destruct (isDigit c) eqn:Hd; [discriminate|].
    destruct (isIdStart c) eqn:Hi; [discriminate|].
    intros H; injection H as <-. right. exists c.
    rewrite Hs, Ht, Hd, Hi. repeat split; reflexivity.
  - intros H; injection H as <-. left. split; [|reflexivity].
    apply nth_error_None. exact Hc.
Qed.

Lemma loopBody_bad input tokens pos c :
  nth_error input pos = Some c -> beginsNoToken c = true ->
  loopBody input tokens pos =
  Return (mkResult [] (Some (unexpectedCharacter c pos)) (Some pos)).
Proof.
  unfold loopBody, beginsNoToken. intros -> H.
  apply andb_true_iff in H as [H Hi]. apply andb_true_iff in H as [H Hd].
  apply andb_true_iff in H as [Hs Ht].
  apply negb_true_iff in Hi, Hd, Hs. rewrite Hs, Hd, Hi.
  destruct (property SINGLE_CHAR_TOKENS c); [discriminate|reflexivity].
Qed.

(** The position a pass moves to does not depend on the tokens so far. *)
Lemma loopBody_pos_indep input tokens pos tokens' pos' other :
  loopBody input tokens pos = Continue tokens' pos' ->
  exists other', loopBody input other pos = Continue other' pos'.
Proof.
  unfold loopBody. destruct (nth_error input pos) as [c|]; [|discriminate].
  destruct (isSpace c). { intros H; injection H as <- <-; eauto. }
  destruct (property SINGLE_CHAR_TOKENS c). { intros H; injection H as <- <-; eauto. }
  destruct (isDigit c). { intros H; injection H as <- <-; eauto. }
  destruct (isIdStart c); [|discriminate]. intros H; injection H as <- <-; eauto.
Qed.

(** More passes than needed change nothing. *)
Lemma tokenizeLoop_more fuel :
  forall input tokens pos r extra,
    tokenizeLoop fuel input tokens pos = Some r ->
    tokenizeLoop (fuel + extra) input tokens pos = Some r.
Proof.
  induction fuel as [|fuel IH]; intros input tokens pos r extra; simpl; [discriminate|].
  destruct (loopBody input tokens pos); [apply IH|auto].
Qed.

Lemma tokenizeLoop_agree f1 f2 input tokens pos r1 r2 :
  tokenizeLoop f1 input tokens pos = Some r1 ->
  tokenizeLoop f2 input tokens pos = Some r2 -> r1 = r2.
Proof.
  intros H1 H2.
  apply (tokenizeLoop_more _ _ _ _ _ f2) in H1.
  apply (tokenizeLoop_more _ _ _ _ _ f1) in H2.
  rewrite Nat.add_comm in H2. congruence.
Qed.

(** The main loop ends within [input.length - pos + 1] passes, and what it
    returns is one of two things. *)
Lemma tokenizeLoop_result fuel :
  forall input tokens pos,
    pos <= List.length input -> List.length input - pos < fuel ->
    Forall notEOF tokens ->
    exists r, tokenizeLoop fuel input tokens pos = Some r /\
      ((exists body,
          r = mkResult (body ++ [createToken EOF (lit "EOF") (List.length input) (List.length input)]) None None
          /\ Forall notEOF body /\ exists new, body = tokens ++ new)
       \/ (exists p c, pos <= p /\ nth_error input p = Some c /\ beginsNoToken c = true /\
           r = mkResult [] (Some (unexpectedCharacter c p)) (Some p))).
Proof.
  induction fuel as [|fuel IH]; intros input tokens pos Hle Hfuel Htok; [lia|].
  simpl. destruct (loopBody input tokens pos) as [tokens' pos'|r] eqn:Hbody.
  - destruct (loopBody_Continue _ _ _ _ _ Hbody) as (Hpos & new & -> & Hnew).
    destruct (IH input (tokens ++ new) pos') as (r & Hr & Hcase); [lia|lia| |].
    { apply Forall_app; auto. }
    exists r. split; [exact Hr|].
    destruct Hcase as [(body & -> & Hb & new' & ->)|(p & c & Hp & Hc & Hbad & ->)].
    + left. eexists. split; [reflexivity|]. split; [exact Hb|].
      exists (new ++ new'). now rewrite app_assoc.
    + right. exists p, c. repeat split; auto. lia.
  - exists r. split; [reflexivity|].
    destruct (loopBody_Return _ _ _ _ Hbody) as [[Hlen ->]|(c & Hc & Hbad & ->)].
    + left. exists tokens. replace pos with (List.length input) by lia.
      repeat split; auto. exists []. now rewrite app_nil_r.
    + right. exists pos, c. auto.
Qed.

Lemma tokenize_total input : exists r, tokenize input = Some r.
Proof.
  destruct (tokenizeLoop_result (S (List.length input)) input [] 0) as (r & Hr & _);
    [lia|lia|constructor|].
  exists r. exact Hr.
Qed.

(** A position the main loop arrives at: the outcome from there is the
    outcome of the whole call. *)
Lemma TokenStart_outcome input pos :
  TokenStart input pos ->
  exists tokens, forall fuel r,
    tokenizeLoop fuel input tokens pos = Some r -> tokenize input = Some r.
Proof.
  induction 1 as [|pos tokens tokens' pos' _ (toks & IH) Hbody].
  - exists []. intros fuel r Hr.
    destruct (tokenize_total input) as (r' & Hr').
    rewrite Hr'. f_equal. exact (tokenizeLoop_agree _ _ _ _ _ _ _ Hr' Hr).
  - destruct (loopBody_pos_indep _ _ _ _ _ toks Hbody) as (toks' & Hbody').
    exists toks'. intros fuel r Hr. apply (IH (S fuel)). simpl. now rewrite Hbody'.
Qed.

Lemma TokenStart_bad input pos c :
  TokenStart input pos -> nth_error input pos = Some c -> beginsNoToken c = true ->
  tokenize input = Some (mkResult [] (Some (unexpectedCharacter c pos)) (Some pos)).
Proof.
  intros Hs Hc Hbad. destruct (TokenStart_outcome _ _ Hs) as (toks & H).
  apply (H 1). simpl. now rewrite (loopBody_bad _ _ _ _ Hc Hbad).
Qed.

(** ** Claims about [tokenize] *)

Lemma numberLoop_stops rest :
  forall pos hasDecimal k c,
    nth_error rest k = Some c -> isDigit c = false -> isDot c = false ->
    numberLoop rest pos hasDecimal <= pos + k.
Proof.
  induction rest as [|d rest IH]; intros pos hasDecimal k c Hk Hd Hdot.
  - destruct k; discriminate.
  - destruct k as [|k]; simpl in *.
    + injection Hk as ->. rewrite Hd, Hdot. simpl. lia.
    + destruct (isDigit d || isDot d); [|lia].
      destruct (isDot d).
      * destruct hasDecimal; [lia|].
        specialize (IH (S pos) true k c Hk Hd Hdot). lia.
      * specialize (IH (S pos) hasDecimal k c Hk Hd Hdot). lia.
Qed.

Lemma idLoop_stops rest :
  forall pos k c,
    nth_error rest k = Some c -> isIdChar c = false ->
    idLoop rest pos <= pos + k.
Proof.
  induction rest as [|d rest IH]; intros pos k c Hk Hc.
  - destruct k; discriminate.
  - destruct k as [|k]; simpl in *.
    + injection Hk as ->. rewrite Hc. lia.
    + destruct (isIdChar d); [|lia].
      specialize (IH (S pos) k c Hk Hc). lia.
Qed.

Lemma beginsNoToken_true c :
  beginsNoToken c = true ->
  isSpace c = false /\ property SINGLE_CHAR_TOKENS c = None /\ isDigit c = false
  /\ isIdStart c = false.
Proof.
  unfold beginsNoToken. intros H.
  apply andb_true_iff in H as [H Hi]. apply andb_true_iff in H as [H Hd].
  apply andb_true_iff in H as [Hs Ht].
  apply negb_true_iff in Hi, Hd, Hs.
  destruct (property SINGLE_CHAR_TOKENS c); [discriminate|auto].
Qed.

(** When no character before [pos] is one that begins no token and the one at
    [pos] is neither a digit, a dot nor an identifier character, the main loop
    arrives at [pos]. *)
Lemma first_bad_TokenStart input pos c :
  nth_error input pos = Some c -> beginsNoToken c = true -> isDot c = false ->
  (forall q c', q < pos -> nth_error input q = Some c' -> beginsNoToken c' = false) ->
  TokenStart input pos.
Proof.
  intros Hc Hbad Hdot Hfirst.
  destruct (beginsNoToken_true _ Hbad) as (_ & _ & Hd & Hi).
  assert (Hidc : isIdChar c = false) by (unfold isIdChar; now rewrite Hd, Hi).
  assert (Hgo : forall n q, pos - q <= n -> q <= pos -> TokenStart input q ->
                            TokenStart input pos).
  { induction n as [|n IH]; intros q Hn Hq Hs.
    { replace pos with q by lia. exact Hs. }
    destruct (Nat.eq_dec q pos) as [->|Hne]; [exact Hs|].
    assert (Hlt : q < pos) by lia.
    destruct (nth_error input q) as [c'|] eqn:Hq'.
    2:{ apply nth_error_None in Hq'.
        assert (pos < List.length input) by (apply nth_error_Some; congruence). lia. }
    pose proof (Hfirst q c' Hlt Hq') as Hgood.
    assert (Hk : nth_error (skipn q input) (pos - q) = Some c).
    { rewrite nth_error_skipn. replace (q + (pos - q)) with pos by lia. exact Hc. }
    destruct (loopBody input [] q) as [tokens' q'|r] eqn:Hbody.
    - destruct (loopBody_Continue _ _ _ _ _ Hbody) as ([Hlo _] & _).
      assert (q' <= pos).
      { revert Hbody. unfold loopBody. rewrite Hq'.
        destruct (isSpace c'). { intros H; injection H as _ <-. lia. }
        destruct (property SINGLE_CHAR_TOKENS c'). { intros H; injection H as _ <-. lia. }
        destruct (isDigit c').
        { intros H; injection H as _ <-.
          pose proof (numberLoop_stops _ q false _ _ Hk Hd Hdot). lia. }
        destruct (isIdStart c'); [|discriminate].
        intros H; injection H as _ <-.
        pose proof (idLoop_stops _ q _ _ Hk Hidc). lia. }
      apply (IH q'); [lia|lia|].
      exact (TokenStart_next _ _ _ _ _ Hs Hbody).
    - destruct (loopBody_Return _ _ _ _ Hbody) as [[Hlen _]|(c2 & Hc2 & Hbad2 & _)].
      + assert (q < List.length input) by (apply nth_error_Some; congruence). lia.
      + congruence. }
  apply (Hgo pos 0); [lia|lia|constructor].
Qed.

(** C1, as the code has it: [tokenize("1.2.3")] returns an EMPTY token list
    with the error [Unexpected character '.' at position 3] and [errorPos] 3.
    The first pass of the main loop does scan [NUMBER "1.2"] (positions 0 to
    3) and leaves the second dot unread; the next pass, at position 3, returns
    the error object, which holds [tokens: []] and not the array built so
    far. *)
Theorem tokenize_second_dot :
  tokenize (lit "1.2.3") =
    Some (mkResult [] (Some (lit "Unexpected character '.' at position 3")) (Some 3))
  /\ loopBody (lit "1.2.3") [] 0 = Continue [createToken NUMBER (lit "1.2") 0 3] 3
  /\ loopBody (lit "1.2.3") [createToken NUMBER (lit "1.2") 0 3] 3 =
       Return (mkResult [] (Some (lit "Unexpected character '.' at position 3")) (Some 3)).
Proof. repeat split; vm_compute; reflexivity. Qed.

(** C1 as stated fails: the call that reports the error at position 3 does
    not return the token list [NUMBER "1.2"]. *)
Lemma tokenize_second_dot_keeps_no_token :
  ~ (exists r, tokenize (lit "1.2.3") = Some r
       /\ map (fun t => (type t, value t)) (tokens r) = [(NUMBER, lit "1.2")]
       /\ error r = Some (lit "Unexpected character '.' at position 3")
       /\ errorPos r = Some 3).
Proof.
  intros (r & Hr & Htok & _).
  assert (H : tokenize (lit "1.2.3") =
              Some (mkResult [] (Some (lit "Unexpected character '.' at position 3")) (Some 3)))
    by (vm_compute; reflexivity).
  rewrite H in Hr. injection Hr as <-. discriminate Htok.
Qed.

(** C6: every call of [tokenize] returns; when the error it returns is null,
    so is [errorPos], and the token list is a run of tokens none of which is
    [EOF], followed by one [EOF] token with value ["EOF"] whose [pos] and
    [end] are the input length.  On the empty string the result is that
    single [EOF] token, at position 0, with a null error. *)
Theorem tokenize_success_one_EOF (input : jsstring) :
  exists r, tokenize input = Some r
    /\ (error r = None ->
        errorPos r = None
        /\ exists body,
             tokens r = body ++ [mkToken EOF (lit "EOF")
                                   (Z.of_nat (List.length input))
                                   (Some (Z.of_nat (List.length input)))]
             /\ Forall (fun t => type t <> EOF) body)
    /\ (input = [] -> r = mkResult [mkToken EOF (lit "EOF") 0 (Some 0%Z)] None None).
Proof.
  destruct (tokenizeLoop_result (S (List.length input)) input [] 0) as (r & Hr & Hcase);
    [lia|lia|constructor|].
  exists r. split; [exact Hr|]. split.
  - intros Herr.
    destruct Hcase as [(body & -> & Hb & _)|(p & c & _ & _ & _ & ->)]; [|discriminate].
    split; [reflexivity|]. exists body. split; [reflexivity|exact Hb].
  - intros ->. vm_compute in Hr. injection Hr as <-. reflexivity.
Qed.

Lemma tokenize_success_one_EOF_witness :
  exists r body,
    tokenize (lit "(3+5)*2") = Some r
    /\ error r = None /\ errorPos r = None
    /\ tokens r = body ++ [mkToken EOF (lit "EOF") 7 (Some 7%Z)]
    /\ Forall (fun t => type t <> EOF) body.
Proof.
  destruct (tokenize_success_one_EOF (lit "(3+5)*2")) as (r & Hr & Hok & _).
  assert (Herr : error r = None).
  { vm_compute in Hr. injection Hr as <-. reflexivity. }
  destruct (Hok Herr) as (Hpos & body & Htok & Hbody).
  exists r, body. repeat split; assumption.
Defined.

(** C7, as the code has it: when the main loop arrives at a character that
    begins no token, [tokenize] returns there, with an empty token list, the
    message [Unexpected character '<ch>' at position <pos>] and that position.
    The loop arrives at the first such character of the input whenever that
    character is not a dot; a dot that follows the digits of a number is read
    as part of the number and the loop never starts a pass at it. *)
Theorem tokenize_unexpected_character (input : jsstring) (pos : nat) (c : char) :
  nth_error input pos = Some c ->
  beginsNoToken c = true ->
  TokenStart input pos
  \/ (isDot c = false /\
      forall q c', q < pos -> nth_error input q = Some c' -> beginsNoToken c' = false) ->
  tokenize input =
    Some (mkResult [] (Some (lit "Unexpected character '" ++ [c]
                             ++ lit "' at position " ++ decimal (Z.of_nat pos)))
            (Some pos)).
Proof.
  intros Hc Hbad [Hs|[Hdot Hfirst]].
  - exact (TokenStart_bad _ _ _ Hs Hc Hbad).
  - apply (TokenStart_bad _ _ _ (first_bad_TokenStart _ _ _ Hc Hbad Hdot Hfirst) Hc Hbad).
Qed.

Lemma tokenize_unexpected_character_witness :
  tokenize (lit "1$2") =
    Some (mkResult [] (Some (lit "Unexpected character '$' at position 1")) (Some 1)).
Proof.
  apply (tokenize_unexpected_character (lit "1$2") 1 36%N).
  - reflexivity.
  - reflexivity.
  - right. split; [reflexivity|].
    intros q c' Hq Hc'. destruct q as [|q]; [|lia].
    injection Hc' as <-. reflexivity.
Defined.

(** A dot at the start of a token is an error; after the digits of a number
    it is not. *)
Lemma tokenize_dot_examples :
  tokenize (lit ".5") =
    Some (mkResult [] (Some (lit "Unexpected character '.' at position 0")) (Some 0))
  /\ tokenize (lit "1.2") =
       Some (mkResult [createToken NUMBER (lit "1.2") 0 3; createToken EOF (lit "EOF") 3 3]
               None None).
Proof. split; vm_compute; reflexivity. Qed.

(** C7 as stated fails: ["1.2"] contains a dot, a character that begins no
    token and the first such character of the input, and [tokenize] does not
    abort at it. *)
Lemma tokenize_dot_inside_number :
  ~ (forall input pos c,
       nth_error input pos = Some c ->
       beginsNoToken c = true ->
       (forall q c', q < pos -> nth_error input q = Some c' -> beginsNoToken c' = false) ->
       tokenize input =
         Some (mkResult [] (Some (unexpectedCharacter c pos)) (Some pos))).
Proof.
  intros H. specialize (H (lit "1.2") 1 46%N eq_refl eq_refl).
  assert (Hfirst : forall q c', q < 1 -> nth_error (lit "1.2") q = Some c' ->
                                beginsNoToken c' = false).
  { intros q c' Hq Hc'. destruct q as [|q]; [|lia]. injection Hc' as <-. reflexivity. }
  specialize (H Hfirst). vm_compute in H. discriminate H.
Qed.

(** * Properties of the parser *)

#[local] Arguments lit : simpl never.
#[local] Arguments decimal : simpl never.
#[local] Arguments Nat.mul : simpl never.

Lemma TokenType_eqb_eq a b : TokenType_eqb a b = true <-> a = b.
Proof. destruct a, b; simpl; split; intros H; try reflexivity; discriminate. Qed.

Lemma TokenType_eqb_neq a b : TokenType_eqb a b = false <-> a <> b.
Proof. destruct a, b; simpl; split; intros H; try reflexivity; try discriminate; congruence. Qed.

(** A lookahead that is not [EOF] is a real element of the token array. *)
Lemma lookahead_real s :
  type (lookahead s) <> EOF -> State.currentIndex s < List.length (State.tokens s).
Proof.
  unfold lookahead. intros H.
  destruct (nth_error (State.tokens s) (State.currentIndex s)) eqn:Hn.
  - apply nth_error_Some. congruence.
  - simpl in H. congruence.
Qed.

Lemma lookahead_real_eqb s t :
  TokenType_eqb (type (lookahead s)) t = true -> t <> EOF ->
  State.currentIndex s < List.length (State.tokens s).
Proof.
  intros H Ht. apply lookahead_real. apply TokenType_eqb_eq in H. congruence.
Qed.

Lemma parseError_eq {A} expected s :
  @parseError A expected s = Throws (syntaxError (lookahead s) expected) s.
Proof. reflexivity. Qed.

(** Symbolic execution of one level of a nonterminal function: each nested
    call is replaced by its three outcomes, with the induction hypothesis for
    it, proved applicable by [pre], in the context. *)
Ltac call_with IH pre f fuel s :=
  let H := fresh "Hcall" in
  pose proof (IH s) as H;
  try (match type of H with
       | ?P -> _ => let HP := fresh in assert (HP : P) by pre; specialize (H HP); clear HP
       end);
  cbn [State.tokens State.currentIndex State.steps State.nodeId State.depth] in H;
  let n := fresh "node" in let s' := fresh "s" in let e := fresh "err" in
  destruct (f fuel s) as [n s'|e s'|].

Ltac next_call IHE IHE' IHT IHT' IHF pre :=
  match goal with
  | |- context [parseE ?fuel ?s] => call_with IHE pre parseE fuel s
  | |- context [parseEPrime ?fuel ?s] => call_with IHE' pre parseEPrime fuel s
  | |- context [parseT ?fuel ?s] => call_with IHT pre parseT fuel s
  | |- context [parseTPrime ?fuel ?s] => call_with IHT' pre parseTPrime fuel s
  | |- context [parseF ?fuel ?s] => call_with IHF pre parseF fuel s
  end.

Ltac prims :=
  cbv beta iota zeta delta
    [bind ret peek consume createNode logStep depth_incr depth_decr negb];
  rewrite ?parseError_eq; cbv beta iota;
  cbn [State.tokens State.currentIndex State.steps State.nodeId State.depth].

Ltac branch :=
  match goal with
  | |- context [if TokenType_eqb ?a ?b then _ else _] =>
      let E := fresh "Etype" in
      destruct (TokenType_eqb a b) eqn:E;
      [ try (let R := fresh "Hreal" in
             pose proof (lookahead_real_eqb _ _ E ltac:(discriminate)) as R;
             cbn [State.tokens State.currentIndex] in R)
      | ]
  end.

Ltac exec IHE IHE' IHT IHT' IHF pre :=
  prims;
  repeat (first [ branch | next_call IHE IHE' IHT IHT' IHF pre ]; prims).

Ltac frame_solve :=
  unfold frame in *; cbn [State.tokens State.currentIndex State.steps State.nodeId State.depth] in *;
  repeat match goal with
         | H : _ /\ _ |- _ => destruct H
         | H : State.tokens _ = _ |- _ => rewrite H in *; clear H
         end;
  try contradiction; try (repeat split; lia).

Lemma parse_functions_framed fuel :
  framed 3 fuel (parseE fuel) /\ framed 1 fuel (parseEPrime fuel)
  /\ framed 2 fuel (parseT fuel) /\ framed 1 fuel (parseTPrime fuel)
  /\ framed 1 fuel (parseF fuel).
Proof.
  induction fuel as [|fuel (IHE & IHE' & IHT & IHT' & IHF)].
  { unfold framed. repeat split; intros s H; exfalso; lia. }
  unfold framed in *.
  repeat split; intros [tokens i steps n d] Hfuel; cbn [parseE parseEPrime parseT parseTPrime parseF].
  all: exec IHE IHE' IHT IHT' IHF ltac:(frame_solve).
  all: frame_solve.
Qed.

Lemma parse_functions_return fuel s :
  4 * (List.length (State.tokens s) - State.currentIndex s) + 3 <= fuel ->
  parseE fuel s <> OutOfFuel.
Proof.
  intros H. destruct (parse_functions_framed fuel) as (HE & _).
  specialize (HE s H). destruct (parseE fuel s); [discriminate|discriminate|contradiction].
Qed.

(** ** The exception a nonterminal function throws *)

Lemma parse_functions_raise fuel :
  throws_raised (parseE fuel) /\ throws_raised (parseEPrime fuel)
  /\ throws_raised (parseT fuel) /\ throws_raised (parseTPrime fuel)
  /\ throws_raised (parseF fuel).
Proof.
  induction fuel as [|fuel (IHE & IHE' & IHT & IHT' & IHF)].
  { unfold throws_raised. repeat split; intros s; exact I. }
  unfold throws_raised in *.
  repeat split; intros [tokens i steps n d]; cbn [parseE parseEPrime parseT parseTPrime parseF].
  all: exec IHE IHE' IHT IHT' IHF ltac:(idtac).
  all: try exact I; try assumption.
  all: unfold raised, expected_factor; eexists; split; [|reflexivity]; auto.
Qed.

(** ** Node ids *)

Lemma counts_nil a : counts a a [].
Proof. unfold counts. rewrite Nat.sub_diag. auto. Qed.

Lemma counts_cons a b l : counts (S a) b l -> counts a b (a :: l).
Proof.
  unfold counts. intros [-> H]. split; [|lia].
  replace (b - a) with (S (b - S a)) by lia. reflexivity.
Qed.

Lemma counts_app a b c l1 l2 : counts a b l1 -> counts b c l2 -> counts a c (l1 ++ l2).
Proof.
  unfold counts. intros [-> H1] [-> H2]. split; [|lia].
  replace (c - a) with ((b - a) + (c - b)) by lia.
  rewrite seq_app. do 2 f_equal. lia.
Qed.

Ltac count :=
  first [ apply counts_nil | eassumption | apply counts_cons; count
        | eapply counts_app; [count | count] ].

Lemma parse_functions_number_nodes fuel :
  numbers_nodes (parseE fuel) /\ numbers_nodes (parseEPrime fuel)
  /\ numbers_nodes (parseT fuel) /\ numbers_nodes (parseTPrime fuel)
  /\ numbers_nodes (parseF fuel).
Proof.
  induction fuel as [|fuel (IHE & IHE' & IHT & IHT' & IHF)].
  { unfold numbers_nodes. repeat split; intros s; exact I. }
  unfold numbers_nodes in *.
  repeat split; intros [tokens i steps n d]; cbn [parseE parseEPrime parseT parseTPrime parseF].
  all: exec IHE IHE' IHT IHT' IHF ltac:(idtac).
  all: try exact I.
  all: cbn [postorder flat_map app]; count.
Qed.

(** ** Depths along the step log *)

Lemma gentle_snoc l d : gentle l -> (d <= last l 0 + 1)%Z -> gentle (l ++ [d]).
Proof.
  intros Hl Hd i a b Ha Hb.
  destruct (Nat.lt_ge_cases (S i) (List.length l)) as [Hlt|Hge].
  - rewrite nth_error_app1 in Ha, Hb by lia. eauto.
  - assert (Hi : nth_error (l ++ [d]) (S i) <> None) by congruence.
    apply nth_error_Some in Hi. rewrite length_app in Hi. simpl in Hi.
    assert (S i = List.length l) by lia.
    rewrite nth_error_app2 in Hb by lia.
    replace (S i - List.length l) with 0 in Hb by lia. injection Hb as <-.
    rewrite nth_error_app1 in Ha by lia.
    destruct l as [|x l] using rev_ind; [simpl in *; lia|].
    rewrite last_last in Hd. rewrite length_app in H. simpl in H.
    rewrite nth_error_app2 in Ha by lia.
    replace (i - List.length l) with 0 in Ha by lia. injection Ha as <-. exact Hd.
Qed.

Lemma entering_incr steps d : settled steps d -> entering steps (d + 1).
Proof. unfold settled, entering. intros [H1 H2]. split; [exact H1|lia]. Qed.

Lemma settled_entering steps d : settled steps d -> entering steps d.
Proof. unfold settled, entering. intros [H1 H2]. split; [exact H1|lia]. Qed.

Lemma settled_decr steps d : settled steps d -> settled steps (d - 1).
Proof. unfold settled. intros [H1 H2]. split; [exact H1|lia]. Qed.

Lemma settled_log steps d rule action token tokenType timestamp :
  entering steps d ->
  settled (steps ++ [Step.new rule action token tokenType d timestamp]) d.
Proof.
  unfold settled, entering, level, depths. intros [H1 H2].
  rewrite map_app. simpl. rewrite last_last. split; [|lia].
  apply gentle_snoc; assumption.
Qed.

Ltac gently :=
  first [ assumption | exact I
        | apply settled_log; gently
        | apply settled_decr; gently
        | apply entering_incr; gently
        | apply settled_entering; gently ].

Lemma parse_functions_climb_gently fuel :
  climbs_gently (parseE fuel) /\ climbs_gently (parseEPrime fuel)
  /\ climbs_gently (parseT fuel) /\ climbs_gently (parseTPrime fuel)
  /\ climbs_gently (parseF fuel).
Proof.
  induction fuel as [|fuel (IHE & IHE' & IHT & IHT' & IHF)].
  { unfold climbs_gently. repeat split; intros s _; exact I. }
  unfold climbs_gently in *.
  repeat split; intros [tokens i steps n d] Hs;
    cbn [State.steps State.depth] in Hs;
    cbn [parseE parseEPrime parseT parseTPrime parseF].
  all: exec IHE IHE' IHT IHT' IHF ltac:(gently).
  all: gently.
Qed.

(** ** More fuel changes nothing *)




(** ** The public function *)

Lemma parse_with_eq fuel tokenArray st :
  parse_with fuel tokenArray st =
  match parse_try fuel (State.new tokenArray 0 [] 0 0%Z) with
  | Returns r s => Returns r s
  | Throws err s => Returns (failure_result s err) (failure_state s err)
  | OutOfFuel => OutOfFuel
  end.
Proof.
  unfold parse_with, reset, try_catch, bind.
  destruct (parse_try fuel _); reflexivity.
Qed.

Lemma parse_eq tokenArray st :
  parse tokenArray st =
  match attempt tokenArray with
  | Returns r s => Returns r s
  | Throws err s => Returns (failure_result s err) (failure_state s err)
  | OutOfFuel => OutOfFuel
  end.
Proof. apply parse_with_eq. Qed.

Lemma parse_try_spec fuel tokenArray :
  4 * List.length tokenArray + 3 <= fuel ->
  attempt_spec fuel tokenArray (parse_try fuel (State.new tokenArray 0 [] 0 0%Z)).
Proof.
  intros Hfuel.
  pose proof (parse_functions_return fuel (State.new tokenArray 0 [] 0 0%Z)) as Hret.
  cbn [State.tokens State.currentIndex] in Hret.
  specialize (Hret ltac:(lia)).
  unfold parse_try, get_steps.
  prims.
  destruct (parseE fuel (State.new tokenArray 0 [] 0 0%Z)) as [tree s|err s|] eqn:HE;
    [|now apply attempt_mismatch|congruence].
  destruct (TokenType_eqb (type (lookahead s)) EOF) eqn:Heof; prims.
  - apply attempt_complete; [exact HE|]. now apply TokenType_eqb_eq.
  - apply (attempt_trailing _ _ tree); [exact HE|]. now apply TokenType_eqb_neq.
Qed.

Lemma attempt_cases tokenArray :
  attempt_spec (4 * List.length tokenArray + 3) tokenArray (attempt tokenArray).
Proof. apply parse_try_spec. lia. Qed.

(** [parse] returns, whatever the tokens and whatever the previous call left
    in the module variables. *)
Lemma parse_returns tokenArray st :
  exists r s', parse tokenArray st = Returns r s'.
Proof.
  rewrite parse_eq. destruct (attempt_cases tokenArray); eauto.
Qed.


(** What [parseE] and the completion check throw is what [parseError] built
    for the lookahead of the moment. *)
Lemma attempt_throws tokenArray err s :
  attempt tokenArray = Throws err s ->
  State.tokens s = tokenArray
  /\ exists expected,
       (expected = lit "')'" \/ expected = expected_factor
        \/ expected = lit "end of expression")
       /\ err = syntaxError (lookahead s) expected.
Proof.
  intros H. pose proof (attempt_cases tokenArray) as Hspec. rewrite H in Hspec.
  set (fuel := 4 * List.length tokenArray + 3) in *.
  destruct (parse_functions_framed fuel) as (Hframe & _).
  specialize (Hframe (State.new tokenArray 0 [] 0 0%Z)).
  cbn [State.tokens State.currentIndex] in Hframe. specialize (Hframe ltac:(lia)).
  destruct (parse_functions_raise fuel) as (Hraise & _).
  specialize (Hraise (State.new tokenArray 0 [] 0 0%Z)).
  inversion Hspec as [| tree s1 HE Hty Heq | err1 s1 HE Heq]; subst.
  - rewrite HE in Hframe. destruct Hframe as (Htok & _). split; [exact Htok|].
    eexists. split; [|reflexivity]. auto.
  - rewrite HE in Hframe, Hraise. destruct Hframe as (Htok & _). split; [exact Htok|].
    destruct Hraise as (expected & Hexp & ->). exists expected. split; [tauto|reflexivity].
Qed.

(** ** The parser accepts what the grammar derives *)

Lemma lookahead_type s :
  type (lookahead s) = next_type (skipn (State.currentIndex s) (State.tokens s)).
Proof.
  unfold lookahead. destruct s as [tokens i steps n d]. cbn [State.tokens State.currentIndex].
  revert i. induction tokens as [|t tokens IH]; intros [|i]; try reflexivity.
  simpl. apply IH.
Qed.

Lemma skipn_S_tail {A} (l : list A) i x r : skipn i l = x :: r -> skipn (S i) l = r.
Proof.
  revert i. induction l as [|y l IH]; intros [|i] H; simpl in *; try discriminate.
  - now injection H.
  - now apply IH.
Qed.

Lemma Derives_E'_next e rest :
  Derives nE' e -> stops nE (next_type rest) -> stops nT (next_type (e ++ rest)).
Proof.
  intros H (_ & _ & H3 & H4). inversion H as [| op t e' Hop | | | | | | |]; subst; simpl.
  - destruct Hop as [-> | ->]; split; discriminate.
  - auto.
Qed.

Ltac look Hrem :=
  rewrite ?lookahead_type;
  cbn [State.tokens State.currentIndex State.steps State.nodeId State.depth];
  rewrite ?Hrem; cbn [next_type app].

Ltac known_false H := rewrite (proj2 (TokenType_eqb_neq _ _) H).

Ltac sub_parse IH f fuel s rest' :=
  let H := fresh "Hsub" in
  pose proof (IH fuel s rest') as H;
  cbn [State.tokens State.currentIndex State.steps State.nodeId State.depth
       parse_nonterminal] in H;
  let n := fresh "node" in let s' := fresh "s" in
  destruct (f fuel s) as [n s'| |]; [|exfalso|exact I].

(** The parser accepts what the grammar derives: the function for a
    nonterminal consumes exactly a derivation of it, provided the token that
    follows cannot continue it. *)
Lemma parser_complete nt ts : Derives nt ts -> parsed_by nt ts.
Proof.
  induction 1 as [t e Ht IHt He IHe
                 | op t e Hop Ht IHt He IHe
                 |
                 | f t Hf IHf Ht IHt
                 | op f t Hop Hf IHf Ht IHt
                 |
                 | l e r Hl He IHe Hr
                 | n Hn
                 | i Hi];
    intros [|fuel] [tokens idx steps nid d] rest Hrem Hstop; try exact I;
    cbn [State.tokens State.currentIndex] in Hrem;
    cbn [parse_nonterminal parseE parseEPrime parseT parseTPrime parseF]; prims.
  - (* E -> T E' *)
    rewrite <- app_assoc in Hrem.
    sub_parse IHt parseT fuel
      (State.new tokens idx
         (steps ++ [Step.new rule_E (lit "Enter E")
                      (value (lookahead (State.new tokens idx steps nid (d + 1)%Z)))
                      (type (lookahead (State.new tokens idx steps nid (d + 1)%Z)))
                      (d + 1)%Z (List.length steps)]) nid (d + 1)%Z) (e ++ rest).
    2:{ apply Hsub; [exact Hrem|]. exact (Derives_E'_next _ _ He Hstop). }
    destruct Hsub as [Htok Hrem']; [exact Hrem|exact (Derives_E'_next _ _ He Hstop)|].
    prims. sub_parse IHe parseEPrime fuel s rest.
    2:{ apply Hsub; assumption. }
    destruct Hsub as [Htok' Hrem'']; [assumption|assumption|].
    prims. split; [congruence|assumption].
  - (* E' -> + T E' | - T E' *)
    cbn [app] in Hrem. look Hrem. pose proof (skipn_S_tail _ _ _ _ Hrem) as Hrem1.
    rewrite <- app_assoc in Hrem1.
    destruct Hop as [Hop|Hop]; rewrite Hop; cbn [TokenType_eqb]; prims;
      (match goal with
       | |- context [parseT fuel ?s1] => sub_parse IHt parseT fuel s1 (e ++ rest)
       end;
       [ destruct Hsub as [Htok Hrem']; [exact Hrem1|exact (Derives_E'_next _ _ He Hstop)|]
       | apply Hsub; [exact Hrem1|exact (Derives_E'_next _ _ He Hstop)] ]);
      prims;
      (sub_parse IHe parseEPrime fuel s rest;
       [ destruct Hsub as [Htok' Hrem'']; [assumption|assumption|]
       | apply Hsub; assumption ]);
      prims; (split; [congruence|assumption]).
  - (* E' -> epsilon *)
    cbn [app] in Hrem. look Hrem. destruct Hstop as (H1 & H2 & _).
    known_false H1. known_false H2. prims. split; [reflexivity|exact Hrem].
  - (* T -> F T' *)
    rewrite <- app_assoc in Hrem.
    match goal with
    | |- context [parseF fuel ?s1] => sub_parse IHf parseF fuel s1 (t ++ rest)
    end.
    2:{ apply Hsub; [exact Hrem|exact I]. }
    destruct Hsub as [Htok Hrem']; [exact Hrem|exact I|].
    prims. sub_parse IHt parseTPrime fuel s rest.
    2:{ apply Hsub; assumption. }
    destruct Hsub as [Htok' Hrem'']; [assumption|assumption|].
    prims. split; [congruence|assumption].
  - (* T' -> * F T' | / F T' *)
    cbn [app] in Hrem. look Hrem. pose proof (skipn_S_tail _ _ _ _ Hrem) as Hrem1.
    rewrite <- app_assoc in Hrem1.
    destruct Hop as [Hop|Hop]; rewrite Hop; cbn [TokenType_eqb]; prims;
      (match goal with
       | |- context [parseF fuel ?s1] => sub_parse IHf parseF fuel s1 (t ++ rest)
       end;
       [ destruct Hsub as [Htok Hrem']; [exact Hrem1|exact I|]
       | apply Hsub; [exact Hrem1|exact I] ]);
      prims;
      (sub_parse IHt parseTPrime fuel s rest;
       [ destruct Hsub as [Htok' Hrem'']; [assumption|assumption|]
       | apply Hsub; assumption ]);
      prims; (split; [congruence|assumption]).
  - (* T' -> epsilon *)
    cbn [app] in Hrem. look Hrem. destruct Hstop as (H1 & H2).
    known_false H1. known_false H2. prims. split; [reflexivity|exact Hrem].
  - (* F -> ( E ) *)
    cbn [app] in Hrem. look Hrem. pose proof (skipn_S_tail _ _ _ _ Hrem) as Hrem1.
    rewrite <- app_assoc in Hrem1.
    rewrite Hl; cbn [TokenType_eqb]; prims.
    assert (Hclose : stops nE (next_type ([r] ++ rest))).
    { simpl. rewrite Hr. repeat split; discriminate. }
    match goal with
    | |- context [parseE fuel ?s1] => sub_parse IHe parseE fuel s1 ([r] ++ rest)
    end.
    2:{ apply Hsub; assumption. }
    destruct Hsub as [Htok Hrem']; [assumption|assumption|].
    look Hrem'. rewrite Hr. cbn [TokenType_eqb]. prims.
    split; [exact Htok|]. rewrite Htok. rewrite Htok in Hrem'.
    exact (skipn_S_tail _ _ _ _ Hrem').
  - (* F -> number *)
    cbn [app] in Hrem. look Hrem. rewrite Hn. cbn [TokenType_eqb]. prims.
    split; [reflexivity|]. exact (skipn_S_tail _ _ _ _ Hrem).
  - (* F -> id *)
    cbn [app] in Hrem. look Hrem. rewrite Hi. cbn [TokenType_eqb]. prims.
    split; [reflexivity|]. exact (skipn_S_tail _ _ _ _ Hrem).
Qed.

(** ** Claims about [parse] *)

Lemma startsWith_app sub after : startsWith (sub ++ after) sub = true.
Proof.
  induction sub as [|c sub IH]; simpl; [reflexivity|].
  now rewrite N.eqb_refl, IH.
Qed.

Lemma str_includes_start s sub : startsWith s sub = true -> str_includes s sub = true.
Proof. destruct s; simpl; intros ->; reflexivity. Qed.

Lemma str_includes_app before sub after :
  str_includes (before ++ sub ++ after) sub = true.
Proof.
  induction before as [|c before IH]; simpl.
  - apply str_includes_start, startsWith_app.
  - rewrite IH. apply orb_true_r.
Qed.

Lemma examples_are_tokenized :
  option_map tokens (tokenize (lit "1+2")) = Some tokens_1_plus_2
  /\ option_map tokens (tokenize (lit "3 4")) = Some tokens_3_4
  /\ option_map tokens (tokenize (lit "3+")) = Some tokens_3_plus.
Proof. repeat split; vm_compute; reflexivity. Qed.

Lemma tokenize_examples :
  tokenize (lit "(3+5)*2") =
    Some (mkResult
            [tok LPAREN "(" 0 1; tok NUMBER "3" 1 2; tok PLUS "+" 2 3;
             tok NUMBER "5" 3 4; tok RPAREN ")" 4 5; tok STAR "*" 5 6;
             tok NUMBER "2" 6 7; tok EOF "EOF" 7 7] None None)
  /\ tokenize (lit "(1+2") = Some (mkResult tokens_open_1_plus_2 None None)
  /\ tokenize (lit "2*(3+4)-5/1") = Some (mkResult tokens_long None None)
  /\ tokenize (lit "a_1 + b2") =
       Some (mkResult [tok ID "a_1" 0 3; tok PLUS "+" 4 5; tok ID "b2" 6 8;
                       tok EOF "EOF" 8 8] None None).
Proof. repeat split; vm_compute; reflexivity. Qed.

Lemma parse_examples :
  (exists r s',
      parse tokens_long fresh_state = Returns r s'
      /\ option_map label (Result.tree r) = Some (lit "E")
      /\ Result.error r = None
      /\ option_map Step.action (nth_error (Result.steps r)
                                   (List.length (Result.steps r) - 1)) =
         Some (lit "Expression parsed successfully!"))
  /\ (exists r s',
        parse tokens_open_1_plus_2 fresh_state = Returns r s'
        /\ Result.tree r = None
        /\ Result.error r =
           Some (lit "Syntax Error at position 4: Expected ')', but found end of input")
        /\ Result.errorPos r = Some 4%Z).
Proof.
  split; do 2 eexists;
    repeat (split; [vm_compute; reflexivity|]); vm_compute; reflexivity.
Qed.

(** The step log of ["1+2"]: each step's action and depth.  The second
    [E'] call, nested in the first, logs its epsilon step at depth 3 (step
    10); both [E'] calls return without logging, and [parseE], which called
    the first, logs [Exit E] at depth 1 (step 11). *)
Lemma steps_1_plus_2 :
  exists r s',
    parse tokens_1_plus_2 fresh_state = Returns r s'
    /\ map (fun s => (Step.action s, Step.depth s)) (Result.steps r) =
       [ (lit "Enter E", 1); (lit "Enter T", 2); (lit "Match number '1'", 3);
         (lit "Epsilon (no match needed)", 3); (lit "Exit T", 2);
         (lit "Match '+'", 2); (lit "Enter T", 3); (lit "Match number '2'", 4);
         (lit "Epsilon (no match needed)", 4); (lit "Exit T", 3);
         (lit "Epsilon (no match needed)", 3); (lit "Exit E", 1);
         (lit "Expression parsed successfully!", 0) ]%Z
    /\ option_map Step.rule (nth_error (Result.steps r) 10) =
       Some (lit "E' " ++ arrow ++ lit " " ++ epsilon)
    /\ option_map Step.rule (nth_error (Result.steps r) 11) = Some rule_E.
Proof.
  do 2 eexists. repeat (split; [vm_compute; reflexivity|]). vm_compute; reflexivity.
Qed.

(** C3, as the code has it: from one step of the log [parse] returns to the
    next, the depth goes up by one at most.  (It can go down by more: [E']
    and [T'] raise the depth and log no exit step.) *)
Theorem parse_depth_rises_by_one (tokenArray : list Token) (st : State.t) :
  exists r s',
    parse tokenArray st = Returns r s'
    /\ forall i a b,
         nth_error (Result.steps r) i = Some a ->
         nth_error (Result.steps r) (S i) = Some b ->
         (Step.depth b <= Step.depth a + 1)%Z.
Proof.
  assert (Hmap : forall (l : list Step.t) i a,
             nth_error l i = Some a -> nth_error (depths l) i = Some (Step.depth a)).
  { intros l i a H. unfold depths. now rewrite nth_error_map, H. }
  assert (Hstart : settled [] 0%Z).
  { split; [intros [|i] a b H; discriminate|]. unfold level, depths. simpl. lia. }
  set (fuel := 4 * List.length tokenArray + 3).
  destruct (parse_functions_climb_gently fuel) as (HE & _).
  specialize (HE (State.new tokenArray 0 [] 0 0%Z) Hstart).
  rewrite parse_eq.
  destruct (attempt_cases tokenArray) as [tree s Hp Hty|tree s Hp Hty|err s Hp];
    fold fuel in Hp; rewrite Hp in HE; do 2 eexists; (split; [reflexivity|]);
    cbn [Result.steps failure_result failure_step]; intros i a b Ha Hb;
    apply Hmap in Ha, Hb.
  - eapply (settled_log _ _ _ _ _ _ _ (settled_entering _ _ HE)); eassumption.
  - eapply (settled_log _ _ _ _ _ _ _ (settled_entering _ _ HE)); eassumption.
  - eapply (settled_log _ _ _ _ _ _ _ HE); eassumption.
Qed.

(** C3 as stated fails: in the log of ["1+2"] the epsilon step of the nested
    [E'] call (index 10, depth 3) is followed by [Exit E] (index 11, depth 1),
    logged by the [parseE] call both [E'] calls are nested in. *)
Lemma parse_depth_drops_by_two :
  ~ (forall tokenArray st r s' i a b,
       parse tokenArray st = Returns r s' ->
       nth_error (Result.steps r) i = Some a ->
       nth_error (Result.steps r) (S i) = Some b ->
       (Z.abs (Step.depth b - Step.depth a) <= 1)%Z).
Proof.
  intros H.
  destruct (parse_returns tokens_1_plus_2 fresh_state) as (r & s' & Hp).
  pose proof Hp as Hc. vm_compute in Hc. injection Hc as Hr _.
  destruct (nth_error (Result.steps r) 10) as [a|] eqn:Ha; [|subst r; discriminate Ha].
  destruct (nth_error (Result.steps r) 11) as [b|] eqn:Hb; [|subst r; discriminate Hb].
  specialize (H _ _ _ _ _ _ _ Hp Ha Hb).
  subst r. vm_compute in Ha, Hb. injection Ha as <-. injection Hb as <-.
  vm_compute in H. apply H. reflexivity.
Qed.

Lemma lookahead_skipn s t rest :
  skipn (State.currentIndex s) (State.tokens s) = t :: rest -> lookahead s = t.
Proof.
  unfold lookahead. destruct s as [tokens i steps n d]. cbn [State.tokens State.currentIndex].
  revert i. induction tokens as [|x tokens IH]; intros [|i] H; simpl in *; try discriminate.
  - now injection H.
  - now apply IH.
Qed.

Lemma lookahead_past_end s :
  List.length (State.tokens s) <= State.currentIndex s ->
  lookahead s = mkToken EOF (lit "EOF") (-1) None.
Proof.
  intros H. unfold lookahead. apply nth_error_None in H. now rewrite H.
Qed.

(** The completion check: when [parseE] has returned and the lookahead is not
    [EOF], [parse] returns the error built for that lookahead. *)
Lemma parse_completion_check tokenArray st tree s :
  parseE (4 * List.length tokenArray + 3) (State.new tokenArray 0 [] 0 0%Z)
  = Returns tree s ->
  type (lookahead s) <> EOF ->
  parse tokenArray st =
  Returns (failure_result s (syntaxError (lookahead s) (lit "end of expression")))
    (failure_state s (syntaxError (lookahead s) (lit "end of expression"))).
Proof.
  intros HE Hty. rewrite parse_eq.
  destruct (attempt_cases tokenArray) as [tree' s' Hp Hty'|tree' s' Hp Hty'|err s' Hp];
    rewrite HE in Hp; try discriminate; injection Hp as <- <-.
  - contradiction.
  - reflexivity.
Qed.

(** C4, as the code has it: when [parseE] has returned and the lookahead [t]
    is not [EOF], which is so whenever the tokens are an expression of the
    grammar followed by a token [t] that is neither [EOF] nor one of the
    operators [+ - * /], [parse] returns a null tree and the error
    [Syntax Error<position>: Expected end of expression, but found '<value>']
    for [t], with the position of [t] as [errorPos].  (An operator after an
    expression continues it: the descent goes on.) *)
Theorem parse_trailing_token (tokenArray : list Token) (t : Token) (st : State.t) :
  (exists tree s,
      descent tokenArray = Returns tree s /\ lookahead s = t /\ type t <> EOF)
  \/ (exists ts rest,
         tokenArray = ts ++ t :: rest /\ Derives nE ts
         /\ type t <> EOF
         /\ type t <> PLUS /\ type t <> MINUS /\ type t <> STAR /\ type t <> SLASH) ->
  exists r s' msg,
    parse tokenArray st = Returns r s'
    /\ Result.tree r = None
    /\ Result.error r = Some msg
    /\ msg = lit "Syntax Error"
             ++ (if (pos t >=? 0)%Z then lit " at position " ++ decimal (pos t) else [])
             ++ lit ": Expected end of expression, but found '" ++ value t ++ lit "'"
    /\ str_includes msg (lit "end of expression") = true
    /\ Result.errorPos r = Some (pos t).
Proof.
  intros H.
  assert (Hdescent : exists tree s,
             descent tokenArray = Returns tree s /\ lookahead s = t /\ type t <> EOF).
  { destruct H as [H|(ts & rest & -> & Hd & Heof & Hop)]; [exact H|].
    set (tokenArray := ts ++ t :: rest).
    set (fuel := 4 * List.length tokenArray + 3).
    pose proof (parser_complete _ _ Hd fuel (State.new tokenArray 0 [] 0 0%Z) (t :: rest))
      as Hc.
    cbn [State.tokens State.currentIndex parse_nonterminal skipn next_type stops] in Hc.
    specialize (Hc eq_refl Hop).
    pose proof (parse_functions_return fuel (State.new tokenArray 0 [] 0 0%Z)) as Hret.
    cbn [State.tokens State.currentIndex] in Hret. specialize (Hret ltac:(lia)).
    unfold descent. fold fuel.
    destruct (parseE fuel (State.new tokenArray 0 [] 0 0%Z)) as [tree s|err s|] eqn:HE;
      [|contradiction|congruence].
    destruct Hc as [_ Hrem]. exists tree, s.
    split; [reflexivity|]. split; [exact (lookahead_skipn _ _ _ Hrem)|exact Heof]. }
  destruct Hdescent as (tree & s & HE & Hlook & Heof).
  assert (Hty : type (lookahead s) <> EOF) by now rewrite Hlook.
  rewrite (parse_completion_check tokenArray st tree s HE Hty). rewrite Hlook.
  assert (Hmsg : ParseError.message (syntaxError t (lit "end of expression")) =
                 lit "Syntax Error"
                 ++ (if (pos t >=? 0)%Z then lit " at position " ++ decimal (pos t) else [])
                 ++ lit ": Expected end of expression, but found '" ++ value t ++ lit "'").
  { unfold syntaxError. cbn [ParseError.message].
    rewrite (proj2 (TokenType_eqb_neq _ _) Heof).
    reflexivity. }
  do 3 eexists. split; [reflexivity|].
  cbn [failure_result Result.tree Result.error Result.errorPos syntaxError
         ParseError.message ParseError.pos].
  split; [reflexivity|]. split; [reflexivity|]. split; [exact Hmsg|].
  split; [|reflexivity].
  rewrite (proj2 (TokenType_eqb_neq _ _) Heof).
  replace (lit "Syntax Error"
           ++ (if (pos t >=? 0)%Z then lit " at position " ++ decimal (pos t) else [])
           ++ lit ": Expected " ++ lit "end of expression"
           ++ lit ", but found " ++ lit "'" ++ value t ++ lit "'")
    with ((lit "Syntax Error"
           ++ (if (pos t >=? 0)%Z then lit " at position " ++ decimal (pos t) else [])
           ++ lit ": Expected ") ++ lit "end of expression"
           ++ (lit ", but found " ++ lit "'" ++ value t ++ lit "'"))
    by (now rewrite <- !app_assoc).
  apply str_includes_app.
Qed.

Lemma Derives_number n : type n = NUMBER -> Derives nE [n].
Proof.
  intros H. change [n] with (([n] ++ []) ++ []).
  apply Derives_E; [apply Derives_T; [now apply Derives_F_number|apply Derives_T'_eps]|].
  apply Derives_E'_eps.
Qed.

Lemma parse_trailing_token_witness :
  exists r s' msg,
    parse tokens_3_4 fresh_state = Returns r s'
    /\ Result.tree r = None
    /\ Result.error r = Some msg
    /\ msg = lit "Syntax Error at position 2: Expected end of expression, but found '4'"
    /\ str_includes msg (lit "end of expression") = true
    /\ Result.errorPos r = Some 2%Z.
Proof.
  apply (parse_trailing_token tokens_3_4 (tok NUMBER "4" 2 3) fresh_state).
  right. exists [tok NUMBER "3" 0 1], [tok EOF "EOF" 3 3].
  split; [reflexivity|]. split; [apply Derives_number; reflexivity|].
  repeat split; discriminate.
Defined.

(** C4 as stated fails: in the tokens of ["3+"] the expression [3] is
    followed by [+], a token other than [EOF]; [parse] fails, with
    [Syntax Error at position 2: Expected number, identifier, or "(", but
    found end of input], which does not mention the end of an expression. *)
Lemma parse_operator_after_expression :
  ~ (forall ts t rest st,
       Derives nE ts -> type t <> EOF ->
       exists r s' msg,
         parse (ts ++ t :: rest) st = Returns r s'
         /\ Result.tree r = None
         /\ Result.error r = Some msg
         /\ str_includes msg (lit "end of expression") = true).
Proof.
  intros H.
  destruct (H [tok NUMBER "3" 0 1] (tok PLUS "+" 1 2) [tok EOF "EOF" 2 2] fresh_state)
    as (r & s' & msg & Hp & _ & Hmsg & Hinc).
  - apply Derives_number. reflexivity.
  - discriminate.
  - vm_compute in Hp. injection Hp as <- _.
    vm_compute in Hmsg. injection Hmsg as <-.
    vm_compute in Hinc. discriminate Hinc.
Qed.

Lemma parse_3_plus :
  exists r s',
    parse tokens_3_plus fresh_state = Returns r s'
    /\ Result.error r =
       Some (lit "Syntax Error at position 2: Expected number, identifier, or "
             ++ dquote ++ lit "(" ++ dquote ++ lit ", but found end of input").
Proof. do 2 eexists. split; vm_compute; reflexivity. Qed.

(** C5: [parse] always returns a result object.  When its [error] is not
    null, the [try] block threw a [ParseError] [err] at some module state [s]
    whose token array is still the input; the result has a null tree, the
    steps logged up to the throw followed by one failure step whose action is
    the message of [err], that message as [error], and as [errorPos] the
    position of the lookahead at the throw, which is -1 when the index had
    run past the end of the array.  When [error] is null the tree is not. *)
Theorem parse_failure_is_data (tokenArray : list Token) (st : State.t) :
  exists r s',
    parse tokenArray st = Returns r s'
    /\ (Result.error r <> None ->
        exists err s,
          attempt tokenArray = Throws err s
          /\ State.tokens s = tokenArray
          /\ Result.tree r = None
          /\ Result.steps r =
             State.steps s ++
               [Step.new (cross_mark ++ lit " Parse Error") (ParseError.message err)
                  (value (lookahead s)) (type (lookahead s)) (State.depth s)
                  (List.length (State.steps s))]
          /\ Result.error r = Some (ParseError.message err)
          /\ Result.errorPos r = Some (pos (lookahead s))
          /\ (List.length tokenArray <= State.currentIndex s ->
              Result.errorPos r = Some (-1)%Z))
    /\ (Result.error r = None -> exists tree, Result.tree r = Some tree).
Proof.
  rewrite parse_eq.
  pose proof (attempt_throws tokenArray) as Hthrow.
  destruct (attempt tokenArray) as [r s|err s|] eqn:Ha.
  - pose proof (attempt_cases tokenArray) as Hspec. rewrite Ha in Hspec.
    inversion Hspec; subst. do 2 eexists. split; [reflexivity|].
    cbn [Result.error Result.tree]. split; [congruence|eauto].
  - destruct (Hthrow err s eq_refl) as (Htok & expected & _ & ->).
    do 2 eexists. split; [reflexivity|]. split.
    + intros _. exists (syntaxError (lookahead s) expected), s.
      cbn [failure_result failure_step Result.tree Result.steps Result.error
             Result.errorPos syntaxError ParseError.pos ParseError.message].
      repeat split; try reflexivity; try assumption.
      intros Hend. rewrite <- Htok in Hend.
      now rewrite (lookahead_past_end _ Hend).
    + cbn [failure_result Result.error]. discriminate.
  - pose proof (attempt_cases tokenArray) as Hspec. rewrite Ha in Hspec. inversion Hspec.
Qed.

Lemma parse_failure_is_data_witness :
  exists r s' err s,
    parse tokens_unclosed fresh_state = Returns r s'
    /\ Result.error r <> None
    /\ attempt tokens_unclosed = Throws err s
    /\ Result.tree r = None
    /\ Result.error r = Some (ParseError.message err)
    /\ Result.errorPos r = Some (-1)%Z.
Proof.
  destruct (parse_failure_is_data tokens_unclosed fresh_state)
    as (r & s' & Hp & Hfail & _).
  assert (Herr : Result.error r <> None).
  { vm_compute in Hp. injection Hp as <- _. discriminate. }
  destruct (Hfail Herr) as (err & s & Ha & _ & Htree & _ & He & _ & Hend).
  exists r, s', err, s. repeat split; try assumption.
  apply Hend. vm_compute in Ha. injection Ha as _ <-. vm_compute. lia.
Defined.

(** C9: the result of [parse] does not depend on what is in the module
    variables when it is called; a second call on the same tokens, made on the
    state the first one left, returns the same result (the same tree, ids
    included) and leaves the same state.  The ids of the tree returned, taken
    in creation order (children before their parent, left to right), are
    0, 1, 2, ... *)
Theorem parse_twice_same (tokenArray : list Token) (st : State.t) :
  exists r s1,
    parse tokenArray st = Returns r s1
    /\ parse tokenArray s1 = Returns r s1
    /\ (forall st', parse tokenArray st' = Returns r s1)
    /\ (forall tree, Result.tree r = Some tree ->
        postorder tree = seq 0 (List.length (postorder tree))).
Proof.
  destruct (parse_returns tokenArray st) as (r & s1 & Hp).
  assert (Hany : forall st', parse tokenArray st' = Returns r s1).
  { intros st'. rewrite <- Hp. rewrite !parse_eq. reflexivity. }
  exists r, s1. repeat split; auto.
  intros tree Htree. rewrite parse_eq in Hp.
  destruct (attempt_cases tokenArray) as [tree' s Hpe Hty|tree' s Hpe Hty|err s Hpe];
    injection Hp as <- _; try discriminate.
  injection Htree as ->.
  destruct (parse_functions_number_nodes (4 * List.length tokenArray + 3)) as (HE & _).
  specialize (HE (State.new tokenArray 0 [] 0 0%Z)). rewrite Hpe in HE.
  destruct HE as [HE _]. cbn [State.nodeId] in HE.
  rewrite HE at 2. rewrite length_seq. exact HE.
Qed.

Lemma parse_twice_same_witness :
  exists r s1 tree,
    parse tokens_1_plus_2 fresh_state = Returns r s1
    /\ parse tokens_1_plus_2 s1 = Returns r s1
    /\ Result.tree r = Some tree
    /\ postorder tree = seq 0 (List.length (postorder tree)).
Proof.
  destruct (parse_twice_same tokens_1_plus_2 fresh_state)
    as (r & s1 & H1 & H2 & _ & Hids).
  assert (Htree : exists tree, Result.tree r = Some tree).
  { vm_compute in H1. injection H1 as <- _. eexists. reflexivity. }
  destruct Htree as (tree & Htree).
  exists r, s1, tree. repeat split; auto.
Defined.



(** * Properties of the layout engine *)

(** Induction on a tree, with the property known of every child. *)
Lemma Node_induction (P : Node -> Prop) :
  (forall label children id _depth _x,
      Forall P children -> P (mkNode label children id _depth _x)) ->
  forall node, P node.
Proof.
  intros H. fix IH 1. intros [label children id d x]. apply H.
  induction children as [|c cs IHcs]; constructor; [apply IH|exact IHcs].
Qed.

Lemma spaced_app n l1 l2 :
  spaced n l1 -> spaced (after n l1) l2 -> spaced n (l1 ++ l2).
Proof.
  revert n. induction l1 as [|a l1 IH]; intros n H1 H2; simpl in *; [exact H2|].
  destruct H1 as [Ha H1]. split; [exact Ha|]. now apply IH.
Qed.

Lemma after_app n l1 l2 : after n (l1 ++ l2) = after (after n l1) l2.
Proof. revert n. induction l1 as [|a l1 IH]; intros n; simpl; [reflexivity|apply IH]. Qed.

Lemma last_default {A} (l : list A) a d d' : last (a :: l) d = last (a :: l) d'.
Proof.
  revert a. induction l as [|b l IH]; intros a; [reflexivity|].
  change (last (b :: l) d = last (b :: l) d'). apply IH.
Qed.

Lemma nth_error_last {A} (first : A) rest :
  nth_error (first :: rest) (List.length (first :: rest) - 1) = Some (last rest first).
Proof.
  cbn [List.length]. rewrite Nat.sub_succ, Nat.sub_0_r.
  revert first. induction rest as [|b rest IH]; intros first; [reflexivity|].
  cbn [List.length nth_error]. rewrite IH. f_equal.
  destruct rest as [|c rest]; [reflexivity|].
  change (last (c :: rest) b = last (c :: rest) first). apply last_default.
Qed.

(** ** [assignDepth] *)

Lemma assignDepth_erase : forall node d, erase (assignDepth node d) = erase node.
Proof.
  induction node as [label children id dep x IH] using Node_induction; intros d; simpl.
  f_equal. rewrite map_map. apply map_ext_Forall.
  eapply Forall_impl; [|exact IH]. intros c Hc. apply Hc.
Qed.

Lemma assignDepth_has_depth : forall node d, Forall has_depth (preorder (assignDepth node d)).
Proof.
  induction node as [label children id dep x IH] using Node_induction; intros d; simpl.
  constructor; [discriminate|].
  induction IH as [|c cs Hc _ IHcs]; simpl; [constructor|].
  apply Forall_app. split; [apply Hc|exact IHcs].
Qed.

(** ** [assignX] *)

Lemma preorder_head node : exists rest, preorder node = node :: rest.
Proof. destruct node; simpl; eauto. Qed.

Lemma Forall_preorder_root P node : Forall P (preorder node) -> P node.
Proof.
  destruct (preorder_head node) as (rest & ->). intros H. now inversion H.
Qed.

Lemma assignX_children_placed children :
  Forall (fun c => forall n, placed n c (assignX c n)) children ->
  forall n, placed_all n children (assignX_children assignX children n).
Proof.
  induction 1 as [|c cs Hc _ IH]; intros n.
  - simpl. constructor; simpl; auto; congruence.
  - simpl. specialize (Hc n). destruct (assignX c n) as [c' n1] eqn:Ec.
    specialize (IH n1). destruct (assignX_children assignX cs n1) as [cs' n2] eqn:Ecs.
    destruct Hc as [c1 c2 c3 c4 c5 c6 c7]. destruct IH as [a1 a2 a3 a4 a4' a5 a6 a7 a8].
    simpl in *. subst n1 n2.
    constructor; simpl.
    + congruence.
    + congruence.
    + intros H. apply Forall_app in H as [H1 H2]. apply Forall_app. auto.
    + apply Forall_app. auto.
    + constructor; [|exact a4']. exact (Forall_preorder_root _ _ c3).
    + apply Forall_app. auto.
    + apply spaced_app; assumption.
    + now rewrite after_app.
    + intros _ H. apply app_eq_nil in H as [H _]. contradiction.
Qed.

Lemma assignX_placed : forall node n, placed n node (assignX node n).
Proof.
  induction node as [label children id dep x IH] using Node_induction; intros n.
  destruct children as [|c cs].
  - simpl. constructor; simpl; auto.
    + intros H. inversion H; subst. constructor; [assumption|constructor].
    + constructor; [discriminate|constructor].
    + constructor; [exact I|constructor].
    + discriminate.
  - pose proof (assignX_children_placed _ IH n) as Hall.
    cbn [assignX].
    destruct (assignX_children assignX (c :: cs) n) as [cs' n'] eqn:Ecs.
    destruct Hall as [a1 a2 a3 a4 a4' a5 a6 a7 a8]. simpl in a1, a2, a3, a4, a4', a5, a6, a7, a8.
    destruct cs' as [|first rest]; [discriminate a1|].
    rewrite nth_error_last. cbn [nth_error].
    pose proof (Forall_inv a4') as Hfirst.
    assert (Hlast : has_x (last rest first)).
    { destruct rest as [|b rest]; [exact Hfirst|].
      apply (proj1 (Forall_forall _ _) a4'). right.
      destruct (@exists_last _ (b :: rest) ltac:(discriminate)) as (l0 & z & E).
      rewrite E. rewrite last_last. apply in_or_app. right. now left. }
    unfold has_x in Hfirst, Hlast.
    destruct (_x first) as [xf|] eqn:Exf; [|contradiction].
    destruct (_x (last rest first)) as [xl|] eqn:Exl; [|contradiction].
    constructor; cbn [fst snd erase preorder leaves children TreeLayout.num_add
                        TreeLayout.num_div TreeLayout.num].
    + f_equal. exact a2.
    + intros H. inversion H as [|? ? Hd Hcs]; subst.
      constructor; [exact Hd|]. apply a3. exact Hcs.
    + constructor; [discriminate|exact a4].
    + constructor; [|exact a5].
      unfold centred. cbn [children]. exists xf, xl. repeat split; assumption.
    + exact a6.
    + exact a7.
    + apply a8. discriminate.
Qed.


(** ** [collect] *)

Lemma collect_children_nodes nid x y children :
  Forall (fun c => forall acc,
              c_nodes (collect c acc) = c_nodes acc ++ map layoutNode (preorder c))
    children ->
  forall acc,
    c_nodes (collect_children collect nid x y children acc) =
    c_nodes acc ++ map layoutNode (flat_map preorder children).
Proof.
  induction 1 as [|c cs Hc _ IH]; intros acc; simpl.
  - now rewrite app_nil_r.
  - rewrite IH, Hc. simpl. now rewrite map_app, app_assoc.
Qed.

Lemma collect_nodes : forall node acc,
  c_nodes (collect node acc) = c_nodes acc ++ map layoutNode (preorder node).
Proof.
  induction node as [label children id dep x IH] using Node_induction; intros acc.
  cbn [collect preorder]. rewrite (collect_children_nodes _ _ _ _ IH).
  cbn [c_nodes map]. now rewrite <- app_assoc.
Qed.


(** ** The tree a call leaves depends on labels, ids and shape only *)

Lemma assignX_children_ext l1 l2 :
  Forall2 (fun a b => forall n, assignX a n = assignX b n) l1 l2 ->
  forall n, assignX_children assignX l1 n = assignX_children assignX l2 n.
Proof.
  induction 1 as [|a b l1 l2 Hab _ IH]; intros n; simpl; [reflexivity|].
  rewrite Hab. destruct (assignX b n) as [b' n1]. now rewrite IH.
Qed.

Lemma assignX_assignDepth_erase : forall node d n,
  assignX (assignDepth node d) n = assignX (assignDepth (erase node) d) n.
Proof.
  induction node as [label children id dep x IH] using Node_induction; intros d n.
  cbn [erase assignDepth].
  destruct children as [|c cs]; [reflexivity|].
  assert (Hch : forall m,
             assignX_children assignX
               (map (fun child => assignDepth child (d + 1)) (c :: cs)) m =
             assignX_children assignX
               (map (fun child => assignDepth child (d + 1)) (map erase (c :: cs))) m).
  { apply assignX_children_ext.
    induction IH as [|c' cs' Hc _ IHcs]; simpl; constructor; auto. }
  cbn [map] in Hch |- *. cbn [assignX]. now rewrite Hch.
Qed.

Lemma computeTreeLayout_erase root :
  computeTreeLayout (Some root) = computeTreeLayout (Some (erase root)).
Proof.
  unfold computeTreeLayout. now rewrite assignX_assignDepth_erase.
Qed.

(** What a call on a tree computes, in terms of the tree it leaves. *)
Lemma computeTreeLayout_placed root :
  exists layout t' n',
    computeTreeLayout (Some root) = (layout, Some t')
    /\ assignX (assignDepth root 0) 0 = (t', n')
    /\ nodes layout = map layoutNode (preorder t').
Proof.
  unfold computeTreeLayout.
  destruct (assignX (assignDepth root 0) 0) as [t' n'] eqn:E.
  do 3 eexists. split; [reflexivity|]. split; [reflexivity|].
  cbn [nodes]. now rewrite collect_nodes.
Qed.

(** ** Claims about [computeTreeLayout] *)



(** The rule is the midpoint of the first and the last child, not the mean of
    all: in the tree of ["(1)"] the root's only [T] child has the [F] node
    with children [(], [E], [)] at x = 30, 210, 350, and [F] itself is at
    190. *)
Lemma layout_midpoint_not_mean :
  exists layout,
    fst (computeTreeLayout (parse_tree tokens_paren_1)) = layout
    /\ map (fun n => (llabel n, option_map Qred (x n)))
         (firstn 5 (skipn 2 (nodes layout))) =
       [ (lit "F", Some 190%Q); (lit "(", Some 30%Q); (lit "E", Some 210%Q);
         (lit "T", Some 150%Q); (lit "F", Some 110%Q) ]
    /\ option_map (fun n => (llabel n, option_map Qred (x n)))
         (nth_error (nodes layout) 12) = Some (lit ")", Some 350%Q).
Proof. eexists. split; [reflexivity|]. split; vm_compute; reflexivity. Qed.

(** C2, as the code has it: a call writes [_depth] and [_x] on every node of
    the tree it is given and changes nothing else of it (labels, ids and
    children are as before).  The layout returned, and the tree left, depend
    on labels, ids and shape only: values of [_depth] and [_x] found on the
    nodes are overwritten and never read, so a second call, on the tree the
    first one left, gives the same layout and leaves the tree as it found
    it. *)
Theorem layout_annotates_tree (root : Node) :
  exists layout t',
    computeTreeLayout (Some root) = (layout, Some t')
    /\ erase t' = erase root
    /\ Forall (fun node => _depth node <> None /\ _x node <> None) (preorder t')
    /\ (forall root', erase root' = erase root ->
        computeTreeLayout (Some root') = (layout, Some t'))
    /\ computeTreeLayout (Some t') = (layout, Some t').
Proof.
  destruct (computeTreeLayout_placed root) as (layout & t' & n' & Hc & Hx & Hn).
  pose proof (assignX_placed (assignDepth root 0) 0) as Hp. rewrite Hx in Hp.
  destruct Hp as [He Hd Hhx _ _ _ _]. cbn [fst] in He, Hd, Hhx.
  rewrite assignDepth_erase in He.
  specialize (Hd (assignDepth_has_depth root 0)).
  assert (Hany : forall root', erase root' = erase root ->
                               computeTreeLayout (Some root') = (layout, Some t')).
  { intros root' H. rewrite computeTreeLayout_erase, H, <- computeTreeLayout_erase.
    exact Hc. }
  exists layout, t'. repeat split; auto.
  apply Forall_forall. intros node Hin. split.
  - exact (proj1 (Forall_forall _ _) Hd node Hin).
  - exact (proj1 (Forall_forall _ _) Hhx node Hin).
Qed.

(** C2 as stated fails: the call changes the tree it is given.  On the parse
    tree of ["3"], whose nodes have no [_depth] and no [_x], it leaves a tree
    whose root has [_depth] 0. *)
Lemma layout_changes_its_input :
  ~ (forall root, snd (computeTreeLayout root) = root).
Proof.
  intros H. specialize (H (parse_tree tokens_3)).
  vm_compute in H. discriminate H.
Qed.

(** * The tokens of a successful call *)

(** ** Character classes *)

Lemma isSpace_printable c : (33 <= c <= 159)%N -> isSpace c = false.
Proof.
  intros H. unfold isSpace.
  repeat match goal with
         | |- context [(?a <=? ?b)%N] =>
             destruct (N.leb_spec a b); try (exfalso; lia)
         | |- context [(?a =? ?b)%N] =>
             destruct (N.eqb_spec a b); try (exfalso; lia)
         end; reflexivity.
Qed.

Lemma isDigit_range c : isDigit c = true -> (48 <= c <= 57)%N.
Proof.
  unfold isDigit. intros H. apply andb_true_iff in H as [H1 H2].
  apply N.leb_le in H1, H2. lia.
Qed.

Lemma isDot_eq c : isDot c = true -> c = 46%N.
Proof. unfold isDot. apply N.eqb_eq. Qed.

Lemma isIdStart_range c : isIdStart c = true -> (65 <= c <= 122)%N.
Proof.
  unfold isIdStart. intros H.
  apply orb_true_iff in H as [H|H]; [apply orb_true_iff in H as [H|H]|].
  - apply andb_true_iff in H as [H1 H2]. apply N.leb_le in H1, H2. lia.
  - apply andb_true_iff in H as [H1 H2]. apply N.leb_le in H1, H2. lia.
  - apply N.eqb_eq in H. lia.
Qed.

Lemma isIdChar_range c : isIdChar c = true -> (48 <= c <= 122)%N.
Proof.
  unfold isIdChar. intros H. apply orb_true_iff in H as [H|H].
  - apply isIdStart_range in H. lia.
  - apply isDigit_range in H. lia.
Qed.

Lemma dot_not_digit c : isDot c = true -> isDigit c = false.
Proof.
  intros H. apply isDot_eq in H. subst c. reflexivity.
Qed.

Lemma number_char_visible c : isDigit c || isDot c = true -> isSpace c = false.
Proof.
  intros H. apply isSpace_printable. apply orb_true_iff in H as [H|H].
  - apply isDigit_range in H. lia.
  - apply isDot_eq in H. lia.
Qed.

Lemma visible_all v :
  forallb (fun c => negb (isSpace c)) v = true -> visible v = v.
Proof.
  unfold visible. induction v as [|c v IH]; simpl; [reflexivity|].
  intros H. apply andb_true_iff in H as [Hc Hv]. rewrite Hc. f_equal. now apply IH.
Qed.

Lemma eqb_eq a b : JS.eqb a b = true -> a = b.
Proof. unfold JS.eqb. destruct (list_eq_dec N.eq_dec a b); [auto|discriminate]. Qed.

Lemma eqb_refl a : JS.eqb a a = true.
Proof. unfold JS.eqb. destruct (list_eq_dec N.eq_dec a a); [reflexivity|contradiction]. Qed.

(** The text of a token holds no white space. *)
Lemma lexeme_visible ty v : lexeme ty v = true -> ty <> EOF -> visible v = v.
Proof.
  intros H Hty. destruct ty; cbn [lexeme] in H; try contradiction;
    try (apply eqb_eq in H; subst v; reflexivity).
  - destruct v as [|d ds]; [discriminate|].
    apply andb_true_iff in H as [H _]. apply andb_true_iff in H as [Hd Hds].
    apply visible_all. simpl. apply andb_true_iff. split.
    + apply negb_true_iff, isSpace_printable. apply isDigit_range in Hd. lia.
    + rewrite forallb_forall in Hds |- *. intros c Hc.
      apply negb_true_iff, number_char_visible, Hds, Hc.
  - destruct v as [|c cs]; [discriminate|].
    apply andb_true_iff in H as [Hc Hcs].
    apply visible_all. simpl. apply andb_true_iff. split.
    + apply negb_true_iff, isSpace_printable. apply isIdStart_range in Hc. lia.
    + rewrite forallb_forall in Hcs |- *. intros c' Hc'.
      apply negb_true_iff, isSpace_printable.
      specialize (Hcs c' Hc'). apply isIdChar_range in Hcs. lia.
Qed.

Lemma lexeme_nonempty ty v : lexeme ty v = true -> v <> [].
Proof.
  intros H ->. destruct ty; cbn [lexeme] in H; try discriminate;
    apply eqb_eq in H; discriminate H.
Qed.

(** ** The two inner loops *)

(** What the number loop walks over: digits and dots, with one dot at most,
    none when [hasDecimal] was set before. *)
Lemma numberLoop_scan rest :
  forall pos hasDecimal,
    forallb (fun c => isDigit c || isDot c)
      (firstn (numberLoop rest pos hasDecimal - pos) rest) = true
    /\ List.length (filter isDot (firstn (numberLoop rest pos hasDecimal - pos) rest))
       <= (if hasDecimal then 0 else 1).
Proof.
  induction rest as [|c rest IH]; intros pos hasDecimal.
  { simpl. rewrite firstn_nil. simpl. split; [reflexivity|lia]. }
  cbn [numberLoop].
  destruct (isDigit c || isDot c) eqn:Hc.
  2:{ rewrite Nat.sub_diag. simpl. split; [reflexivity|lia]. }
  destruct (isDot c) eqn:Hdot.
  - destruct hasDecimal.
    + rewrite Nat.sub_diag. simpl. split; [reflexivity|lia].
    + pose proof (numberLoop_bounds rest (S pos) true) as Hb.
      replace (numberLoop rest (S pos) true - pos)
        with (S (numberLoop rest (S pos) true - S pos)) by lia.
      destruct (IH (S pos) true) as [H1 H2].
      cbn [firstn forallb filter]. rewrite Hdot, orb_true_r, H1. simpl.
      split; [reflexivity|lia].
  - pose proof (numberLoop_bounds rest (S pos) hasDecimal) as Hb.
    replace (numberLoop rest (S pos) hasDecimal - pos)
      with (S (numberLoop rest (S pos) hasDecimal - S pos)) by lia.
    destruct (IH (S pos) hasDecimal) as [H1 H2].
    rewrite orb_false_r in Hc.
    cbn [firstn forallb filter]. rewrite Hdot, Hc, H1. split; [reflexivity|exact H2].
Qed.

(** Where the number loop stops: not at a digit, and at a dot only when one
    was seen. *)
Lemma numberLoop_longest rest :
  forall pos hasDecimal c,
    nth_error rest (numberLoop rest pos hasDecimal - pos) = Some c ->
    isDigit c = false
    /\ (isDot c = true ->
        hasDecimal = true
        \/ existsb isDot (firstn (numberLoop rest pos hasDecimal - pos) rest) = true).
Proof.
  induction rest as [|d rest IH]; intros pos hasDecimal c.
  { simpl. rewrite Nat.sub_diag. discriminate. }
  cbn [numberLoop].
  destruct (isDigit d || isDot d) eqn:Hd.
  2:{ rewrite Nat.sub_diag. simpl. intros H; injection H as <-.
      apply orb_false_iff in Hd as [H1 H2]. split; [exact H1|congruence]. }
  destruct (isDot d) eqn:Hdot.
  - destruct hasDecimal.
    + rewrite Nat.sub_diag. simpl. intros H; injection H as <-.
      split; [exact (dot_not_digit _ Hdot)|auto].
    + pose proof (numberLoop_bounds rest (S pos) true) as Hb.
      replace (numberLoop rest (S pos) true - pos)
        with (S (numberLoop rest (S pos) true - S pos)) by lia.
      cbn [nth_error firstn existsb]. intros H.
      destruct (IH _ _ _ H) as [H1 _]. split; [exact H1|].
      intros _. right. rewrite Hdot. reflexivity.
  - pose proof (numberLoop_bounds rest (S pos) hasDecimal) as Hb.
    replace (numberLoop rest (S pos) hasDecimal - pos)
      with (S (numberLoop rest (S pos) hasDecimal - S pos)) by lia.
    cbn [nth_error firstn existsb]. intros H.
    destruct (IH _ _ _ H) as [H1 H2]. split; [exact H1|].
    intros Hc. destruct (H2 Hc) as [H3|H3]; [auto|]. right. rewrite H3. apply orb_true_r.
Qed.

Lemma idLoop_scan rest :
  forall pos, forallb isIdChar (firstn (idLoop rest pos - pos) rest) = true.
Proof.
  induction rest as [|c rest IH]; intros pos.
  { simpl. rewrite firstn_nil. reflexivity. }
  cbn [idLoop]. destruct (isIdChar c) eqn:Hc.
  - pose proof (idLoop_bounds rest (S pos)) as Hb.
    replace (idLoop rest (S pos) - pos) with (S (idLoop rest (S pos) - S pos)) by lia.
    cbn [firstn forallb]. now rewrite Hc, IH.
  - rewrite Nat.sub_diag. reflexivity.
Qed.

Lemma idLoop_longest rest :
  forall pos c,
    nth_error rest (idLoop rest pos - pos) = Some c -> isIdChar c = false.
Proof.
  induction rest as [|d rest IH]; intros pos c.
  { simpl. rewrite Nat.sub_diag. discriminate. }
  cbn [idLoop]. destruct (isIdChar d) eqn:Hd.
  - pose proof (idLoop_bounds rest (S pos)) as Hb.
    replace (idLoop rest (S pos) - pos) with (S (idLoop rest (S pos) - S pos)) by lia.
    cbn [nth_error]. apply IH.
  - rewrite Nat.sub_diag. simpl. intros H; injection H as <-. exact Hd.
Qed.

(** The entries of [SINGLE_CHAR_TOKENS]. *)
Lemma SINGLE_CHAR_TOKENS_lexeme c ty :
  property SINGLE_CHAR_TOKENS c = Some ty ->
  lexeme ty [c] = true /\ ty <> NUMBER /\ ty <> ID.
Proof.
  unfold property, SINGLE_CHAR_TOKENS. cbn [find fst snd].
  repeat match goal with
         | |- context [(?a =? c)%N] => destruct (N.eqb_spec a c); [subst c|]
         end;
    cbn [option_map snd]; intros H; try discriminate; injection H as <-;
    (split; [reflexivity|split; discriminate]).
Qed.

(** ** One pass of the main loop *)

Lemma nth_error_after_skipn {A} (l : list A) p x rest k :
  skipn p l = x :: rest -> nth_error l (S p + k) = nth_error rest k.
Proof.
  intros H. rewrite <- (nth_error_skipn (S p) l k).
  now rewrite (skipn_S_tail _ _ _ _ H).
Qed.

(** A pass that goes on either skipped a white-space character or pushed
    one token, scanned from where the pass began to where it ended. *)
Lemma loopBody_lexes input tokens p tokens' p' :
  loopBody input tokens p = Continue tokens' p' ->
  (exists c, nth_error input p = Some c /\ isSpace c = true
             /\ tokens' = tokens /\ p' = S p)
  \/ (exists t, tokens' = tokens ++ [t] /\ lexed input p p' t).
Proof.
  intros Hbody. pose proof (loopBody_Continue _ _ _ _ _ Hbody) as [Hrange _].
  revert Hbody. unfold loopBody.
  destruct (nth_error input p) as [c|] eqn:Hc; [|discriminate].
  destruct (skipn_nth_error_cons _ _ _ Hc) as (rest & Hrest & Hlen).
  destruct (isSpace c) eqn:Hs.
  { intros H; injection H as <- <-. left. exists c. auto. }
  destruct (property SINGLE_CHAR_TOKENS c) as [ty|] eqn:Hty.
  { intros H; injection H as <- <-. right. eexists. split; [reflexivity|].
    destruct (SINGLE_CHAR_TOKENS_lexeme _ _ Hty) as (Hlex & Hn & Hi).
    assert (Hv : [c] = slice input p (S p)).
    { unfold slice. rewrite Hrest.
      replace (S p - p) with 1 by lia. reflexivity. }
    constructor; cbn [createToken pos end_ value type].
    - reflexivity.
    - now rewrite Nat.add_1_r.
    - lia.
    - exact Hv.
    - exact (SINGLE_CHAR_TOKENS_notEOF _ _ Hty).
    - exact Hlex.
    - intros c' _. destruct ty; try reflexivity; congruence. }
  destruct (isDigit c) eqn:Hd.
  { intros H; injection H as <- <-. right. eexists. split; [reflexivity|].
    revert Hrange. rewrite Hrest. cbn [numberLoop].
    rewrite Hd, (digit_not_dot _ Hd). cbn [orb].
    set (e := numberLoop rest (S p) false). intros Hrange.
    pose proof (numberLoop_bounds rest (S p) false) as Hb. fold e in Hb.
    assert (Hv : slice input p e = c :: firstn (e - S p) rest).
    { unfold slice. rewrite Hrest.
      replace (e - p) with (S (e - S p)) by lia. reflexivity. }
    destruct (numberLoop_scan rest (S p) false) as [Hall Hdots]. fold e in Hall, Hdots.
    constructor; cbn [createToken pos end_ value type].
    - reflexivity.
    - reflexivity.
    - lia.
    - reflexivity.
    - discriminate.
    - rewrite Hv. cbn [lexeme]. rewrite Hd, Hall. cbn [andb].
      apply Nat.leb_le. exact Hdots.
    - intros c' Hc'. cbn [ends_scan].
      replace e with (S p + (e - S p)) in Hc' by lia.
      rewrite (nth_error_after_skipn _ _ _ _ _ Hrest) in Hc'.
      destruct (numberLoop_longest rest (S p) false c' Hc') as [H1 H2].
      fold e in H2. rewrite H1. cbn [negb andb].
      destruct (isDot c') eqn:Hdot; [|reflexivity].
      destruct (H2 eq_refl) as [H3|H3]; [discriminate|].
      rewrite Hv. cbn [existsb negb orb]. rewrite H3. apply orb_true_r. }
  destruct (isIdStart c) eqn:Hi; [|discriminate].
  intros H; injection H as <- <-. right. eexists. split; [reflexivity|].
  assert (Hidc : isIdChar c = true) by (unfold isIdChar; now rewrite Hi).
  revert Hrange. rewrite Hrest. cbn [idLoop]. rewrite !Hidc.
  set (e := idLoop rest (S p)). intros Hrange.
  pose proof (idLoop_bounds rest (S p)) as Hb. fold e in Hb.
  assert (Hv : slice input p e = c :: firstn (e - S p) rest).
  { unfold slice. rewrite Hrest.
    replace (e - p) with (S (e - S p)) by lia. reflexivity. }
  pose proof (idLoop_scan rest (S p)) as Hall. fold e in Hall.
  constructor; cbn [createToken pos end_ value type].
  - reflexivity.
  - reflexivity.
  - lia.
  - reflexivity.
  - discriminate.
  - rewrite Hv. cbn [lexeme]. now rewrite Hi, Hall.
  - intros c' Hc'. cbn [ends_scan].
    replace e with (S p + (e - S p)) in Hc' by lia.
    rewrite (nth_error_after_skipn _ _ _ _ _ Hrest) in Hc'.
    pose proof (idLoop_longest rest (S p) c' Hc') as H1. now rewrite H1.
Qed.

(** ** The whole loop *)

Lemma tokenizeLoop_tiles input fuel :
  forall tokens pos r,
    tiles input tokens pos ->
    tokenizeLoop fuel input tokens pos = Some r ->
    error r = None ->
    exists body,
      r = mkResult (body ++ [createToken EOF (lit "EOF") (List.length input)
                               (List.length input)]) None None
      /\ tiles input body (List.length input).
Proof.
  induction fuel as [|fuel IH]; intros tokens pos r Ht; simpl; [discriminate|].
  destruct (loopBody input tokens pos) as [tokens' pos'|r'] eqn:Hbody.
  - intros Hr. apply (IH tokens' pos'); [|exact Hr].
    destruct (loopBody_lexes _ _ _ _ _ Hbody)
      as [(c & Hc & Hs & -> & ->)|(t & -> & Hlex)].
    + exact (tiles_space _ _ _ _ Ht Hc Hs).
    + exact (tiles_token _ _ _ _ _ Ht Hlex).
  - intros H; injection H as ->. intros Herr.
    destruct (loopBody_Return _ _ _ _ Hbody) as [[Hlen ->]|(c & _ & _ & ->)];
      [|discriminate].
    assert (Hpos : pos <= List.length input).
    { clear -Ht. induction Ht as [|tokens p c _ IH Hc _|tokens p e t _ _ [_ _ Hr _ _ _ _]].
      - lia.
      - assert (p < List.length input) by (apply nth_error_Some; congruence). lia.
      - lia. }
    replace pos with (List.length input) in * by lia.
    exists tokens. split; [reflexivity|exact Ht].
Qed.

(** A successful call: the tokens before [EOF] tile the input. *)
Lemma tokenize_tiles input r :
  tokenize input = Some r -> error r = None ->
  exists body,
    r = mkResult (body ++ [createToken EOF (lit "EOF") (List.length input)
                             (List.length input)]) None None
    /\ tiles input body (List.length input).
Proof. apply tokenizeLoop_tiles. constructor. Qed.

(** ** What a tiling tells *)

Lemma tiles_lexed input tokens n :
  tiles input tokens n ->
  n <= List.length input
  /\ Forall (fun t => exists p e, lexed input p e t /\ e <= n) tokens.
Proof.
  induction 1 as [|tokens p c _ [IHn IH] Hc _|tokens p e t _ [IHn IH] Hlex].
  - split; [lia|constructor].
  - assert (p < List.length input) by (apply nth_error_Some; congruence).
    split; [lia|].
    eapply Forall_impl; [|exact IH]. intros t (q & e & H1 & H2). exists q, e. split; [auto|lia].
  - pose proof (lexed_range _ _ _ _ Hlex) as Hr. split; [lia|].
    apply Forall_app. split.
    + eapply Forall_impl; [|exact IH]. intros t' (q & e' & H1 & H2).
      exists q, e'. split; [auto|lia].
    + constructor; [|constructor]. exists p, e. split; [exact Hlex|lia].
Qed.

Lemma tiles_in_order input tokens n :
  tiles input tokens n ->
  forall i j a b,
    i < j -> nth_error tokens i = Some a -> nth_error tokens j = Some b ->
    precedes a b.
Proof.
  induction 1 as [|tokens p c _ IH _ _|tokens p e t Ht IH Hlex]; intros i j a b Hij Ha Hb.
  - destruct i; discriminate.
  - eauto.
  - assert (Hj : j < List.length (tokens ++ [t])) by (apply nth_error_Some; congruence).
    rewrite length_app in Hj. simpl in Hj.
    rewrite nth_error_app1 in Ha by lia.
    destruct (Nat.eq_dec j (List.length tokens)) as [->|Hne].
    + rewrite nth_error_app2, Nat.sub_diag in Hb by lia. injection Hb as <-.
      destruct (tiles_lexed _ _ _ Ht) as [_ Hall].
      pose proof (proj1 (Forall_forall _ _) Hall a (nth_error_In _ _ Ha))
        as (q & ea & Hla & Hle).
      exists (Z.of_nat ea). split; [exact (lexed_end _ _ _ _ Hla)|].
      rewrite (lexed_pos _ _ _ _ Hlex). lia.
    + rewrite nth_error_app1 in Hb by lia. eauto.
Qed.

Lemma firstn_next {A} (l : list A) p c :
  nth_error l p = Some c -> firstn (S p) l = firstn p l ++ [c].
Proof.
  revert p. induction l as [|x l IH]; intros [|p] H; simpl in *; try discriminate.
  - now injection H as ->.
  - f_equal. now apply IH.
Qed.

Lemma firstn_slice (l : jsstring) p e :
  p <= e -> firstn e l = firstn p l ++ slice l p e.
Proof.
  unfold slice. revert l e. induction p as [|p IH]; intros l e H.
  - simpl. now rewrite Nat.sub_0_r.
  - destruct e as [|e]; [lia|]. destruct l as [|x l].
    + simpl. now rewrite firstn_nil.
    + simpl. f_equal. apply IH. lia.
Qed.

Lemma tiles_text input tokens n :
  tiles input tokens n -> flat_map value tokens = visible (firstn n input).
Proof.
  unfold visible.
  induction 1 as [|tokens p c _ IH Hc Hs|tokens p e t _ IH Hlex].
  - reflexivity.
  - rewrite (firstn_next _ _ _ Hc), filter_app, <- IH. simpl. rewrite Hs. simpl.
    now rewrite app_nil_r.
  - pose proof (lexed_range _ _ _ _ Hlex) as Hr.
    rewrite (firstn_slice input p e) by lia.
    rewrite flat_map_app, filter_app, <- IH. f_equal. simpl. rewrite app_nil_r.
    rewrite <- (lexed_value _ _ _ _ Hlex).
    symmetry. exact (lexeme_visible _ _ (lexed_lexeme _ _ _ _ Hlex) (lexed_type _ _ _ _ Hlex)).
Qed.

(** The two results of a call. *)
Lemma tokenize_cases input r :
  tokenize input = Some r ->
  (error r = None
   /\ exists body,
        r = mkResult (body ++ [createToken EOF (lit "EOF") (List.length input)
                                 (List.length input)]) None None
        /\ tiles input body (List.length input))
  \/ (exists p c,
         nth_error input p = Some c /\ beginsNoToken c = true
         /\ r = mkResult [] (Some (unexpectedCharacter c p)) (Some p)).
Proof.
  intros Hr. destruct (error r) as [msg|] eqn:Herr.
  - right.
    destruct (tokenizeLoop_result (S (List.length input)) input [] 0)
      as (r' & Hr' & Hcase); [lia|lia|constructor|].
    unfold tokenize in Hr. rewrite Hr in Hr'. injection Hr' as <-.
    destruct Hcase as [(body & -> & _)|(p & c & _ & Hc & Hbad & ->)]; [discriminate|].
    exists p, c. auto.
  - left. split; [reflexivity|]. exact (tokenize_tiles _ _ Hr Herr).
Qed.

(** The tokens of a call that succeeds all have the text of their type. *)
Lemma tiles_lexemes input body :
  tiles input body (List.length input) ->
  Forall (fun t => lexeme (type t) (value t) = true)
    (body ++ [createToken EOF (lit "EOF") (List.length input) (List.length input)]).
Proof.
  intros Ht. apply Forall_app. split; [|constructor; [reflexivity|constructor]].
  destruct (tiles_lexed _ _ _ Ht) as [_ Hall].
  eapply Forall_impl; [|exact Hall].
  intros t (p & e & Hlex & _). exact (lexed_lexeme _ _ _ _ Hlex).
Qed.

(** ** Properties of a successful call *)

(** X1: Every token before [EOF] records where it was read: [pos] and [end] are
    positions of the input with [pos < end], and [value] is the input from
    [pos] up to [end]. *)
Theorem tokenize_values_are_slices (input : jsstring) (r : TokenizeResult) :
  tokenize input = Some r -> error r = None ->
  exists body,
    tokens r = body ++ [createToken EOF (lit "EOF") (List.length input)
                          (List.length input)]
    /\ Forall (fun t =>
                 exists p e,
                   pos t = Z.of_nat p /\ end_ t = Some (Z.of_nat e)
                   /\ p < e <= List.length input
                   /\ value t = slice input p e) body.
Proof.
  intros Hr Herr. destruct (tokenize_tiles _ _ Hr Herr) as (body & -> & Ht).
  exists body. split; [reflexivity|].
  destruct (tiles_lexed _ _ _ Ht) as [_ Hall].
  eapply Forall_impl; [|exact Hall].
  intros t (p & e & [H1 H2 H3 H4 _ _ _] & _). exists p, e. auto.
Qed.

Lemma tokenize_values_are_slices_witness :
  exists body,
    [tok ID "a_1" 0 3; tok PLUS "+" 4 5; tok ID "b2" 6 8; tok EOF "EOF" 8 8] =
      body ++ [tok EOF "EOF" 8 8]
    /\ Forall (fun t =>
                 exists p e,
                   pos t = Z.of_nat p /\ end_ t = Some (Z.of_nat e)
                   /\ p < e <= 8
                   /\ value t = slice (lit "a_1 + b2") p e) body.
Proof.
  apply (tokenize_values_are_slices (lit "a_1 + b2")
           (mkResult [tok ID "a_1" 0 3; tok PLUS "+" 4 5; tok ID "b2" 6 8;
                      tok EOF "EOF" 8 8] None None)); reflexivity.
Defined.

(** X2: The tokens are in the order of the input and do not overlap: of two
    tokens of the list, the earlier one ends at or before the position at
    which the later one begins. *)
Theorem tokenize_tokens_in_order (input : jsstring) (r : TokenizeResult)
  (i j : nat) (a b : Token) :
  tokenize input = Some r -> error r = None ->
  i < j -> nth_error (tokens r) i = Some a -> nth_error (tokens r) j = Some b ->
  exists e, end_ a = Some e /\ (e <= pos b)%Z.
Proof.
  intros Hr Herr Hij Ha Hb.
  destruct (tokenize_tiles _ _ Hr Herr) as (body & -> & Ht).
  cbn [tokens] in Ha, Hb.
  assert (Hj : j < List.length (body ++ [createToken EOF (lit "EOF") (List.length input)
                                            (List.length input)]))
    by (apply nth_error_Some; congruence).
  rewrite length_app in Hj. simpl in Hj.
  rewrite nth_error_app1 in Ha by lia.
  destruct (Nat.eq_dec j (List.length body)) as [->|Hne].
  - rewrite nth_error_app2, Nat.sub_diag in Hb by lia. injection Hb as <-.
    destruct (tiles_lexed _ _ _ Ht) as [_ Hall].
    pose proof (proj1 (Forall_forall _ _) Hall a (nth_error_In _ _ Ha))
      as (q & ea & Hla & Hle).
    exists (Z.of_nat ea). split; [exact (lexed_end _ _ _ _ Hla)|].
    cbn [createToken pos]. lia.
  - rewrite nth_error_app1 in Hb by lia.
    exact (tiles_in_order _ _ _ Ht _ _ _ _ Hij Ha Hb).
Qed.

Lemma tokenize_tokens_in_order_witness :
  exists e, end_ (tok NUMBER "12" 0 2) = Some e /\ (e <= pos (tok ID "x" 4 5))%Z.
Proof.
  apply (tokenize_tokens_in_order (lit "12 *x")
           (mkResult [tok NUMBER "12" 0 2; tok STAR "*" 3 4; tok ID "x" 4 5;
                      tok EOF "EOF" 5 5] None None) 0 2).
  - reflexivity.
  - reflexivity.
  - lia.
  - reflexivity.
  - reflexivity.
Defined.

(** X3: The values of the tokens before [EOF], one after the other, are the input
    without its white space: the tokenizer drops white space and nothing
    else, and reads no character twice. *)
Theorem tokenize_round_trip (input : jsstring) (r : TokenizeResult) :
  tokenize input = Some r -> error r = None ->
  exists body,
    tokens r = body ++ [createToken EOF (lit "EOF") (List.length input)
                          (List.length input)]
    /\ flat_map value body = filter (fun c => negb (isSpace c)) input.
Proof.
  intros Hr Herr. destruct (tokenize_tiles _ _ Hr Herr) as (body & -> & Ht).
  exists body. split; [reflexivity|].
  rewrite (tiles_text _ _ _ Ht). unfold visible. now rewrite firstn_all.
Qed.

Lemma tokenize_round_trip_witness :
  exists body,
    [tok ID "a_1" 0 3; tok PLUS "+" 4 5; tok ID "b2" 6 8; tok EOF "EOF" 8 8] =
      body ++ [tok EOF "EOF" 8 8]
    /\ flat_map value body = lit "a_1+b2".
Proof.
  apply (tokenize_round_trip (lit "a_1 + b2")
           (mkResult [tok ID "a_1" 0 3; tok PLUS "+" 4 5; tok ID "b2" 6 8;
                      tok EOF "EOF" 8 8] None None)); reflexivity.
Defined.

(** X4: The value of every token has the form of its type: a [NUMBER] is a digit
    followed by digits and at most one dot, an [ID] a letter or underscore
    followed by letters, digits and underscores, an operator or parenthesis
    token the one character of its type, and [EOF] the text [EOF]. *)
Theorem tokenize_lexemes (input : jsstring) (r : TokenizeResult) :
  tokenize input = Some r ->
  Forall (fun t => lexeme (type t) (value t) = true) (tokens r).
Proof.
  intros Hr.
  destruct (tokenize_cases _ _ Hr) as [(_ & body & -> & Ht)|(p & c & _ & _ & ->)].
  - exact (tiles_lexemes _ _ Ht).
  - constructor.
Qed.

Lemma tokenize_lexemes_witness :
  Forall (fun t => lexeme (type t) (value t) = true)
    [tok NUMBER "3.14" 0 4; tok SLASH "/" 4 5; tok ID "_r2" 5 8; tok EOF "EOF" 8 8].
Proof.
  apply (tokenize_lexemes (lit "3.14/_r2")
           (mkResult [tok NUMBER "3.14" 0 4; tok SLASH "/" 4 5; tok ID "_r2" 5 8;
                      tok EOF "EOF" 8 8] None None)).
  reflexivity.
Defined.

(** X5: Longest match: the character that follows a [NUMBER] token in the input
    is not a digit, and is a dot only when the number already holds one; the
    character that follows an [ID] token is no letter, digit or
    underscore. *)
Theorem tokenize_longest_match (input : jsstring) (r : TokenizeResult)
  (t : Token) (e : nat) (c : char) :
  tokenize input = Some r ->
  In t (tokens r) -> end_ t = Some (Z.of_nat e) -> nth_error input e = Some c ->
  (type t = NUMBER ->
   isDigit c = false /\ (isDot c = true -> existsb isDot (value t) = true))
  /\ (type t = ID -> isIdChar c = false).
Proof.
  intros Hr Hin Hend Hc.
  destruct (tokenize_cases _ _ Hr) as [(_ & body & -> & Ht)|(p & c' & _ & _ & ->)];
    [|contradiction].
  cbn [tokens] in Hin.
  apply in_app_or in Hin as [Hin|[<-|[]]].
  2:{ cbn [createToken end_] in Hend. injection Hend as Hend.
      apply Nat2Z.inj in Hend. subst e.
      assert (List.length input < List.length input)
        by (apply nth_error_Some; congruence). lia. }
  destruct (tiles_lexed _ _ _ Ht) as [_ Hall].
  pose proof (proj1 (Forall_forall _ _) Hall t Hin) as (p & e' & Hlex & _).
  rewrite (lexed_end _ _ _ _ Hlex) in Hend. injection Hend as Hend.
  apply Nat2Z.inj in Hend. subst e'.
  pose proof (lexed_longest _ _ _ _ Hlex c Hc) as Hstop.
  split; intros Hty; rewrite Hty in Hstop; cbn [ends_scan] in Hstop.
  - apply andb_true_iff in Hstop as [H1 H2]. apply negb_true_iff in H1.
    split; [exact H1|]. intros Hdot. rewrite Hdot in H2. exact H2.
  - now apply negb_true_iff in Hstop.
Qed.

Lemma tokenize_longest_match_witness :
  (type (tok NUMBER "1.5" 0 3) = NUMBER ->
   isDigit 43%N = false
   /\ (isDot 43%N = true -> existsb isDot (value (tok NUMBER "1.5" 0 3)) = true))
  /\ (type (tok NUMBER "1.5" 0 3) = ID -> isIdChar 43%N = false).
Proof.
  apply (tokenize_longest_match (lit "1.5+x")
           (mkResult [tok NUMBER "1.5" 0 3; tok PLUS "+" 3 4; tok ID "x" 4 5;
                      tok EOF "EOF" 5 5] None None)
           (tok NUMBER "1.5" 0 3) 3 43%N).
  - reflexivity.
  - left. reflexivity.
  - reflexivity.
  - reflexivity.
Defined.

(** ** A call that fails *)

(** The position of the error is at or after the position the loop is at. *)
Lemma tokenizeLoop_error input fuel :
  forall tokens q r p,
    tokenizeLoop fuel input tokens q = Some r -> errorPos r = Some p ->
    q <= p
    /\ exists c, nth_error input p = Some c /\ beginsNoToken c = true
                 /\ r = mkResult [] (Some (unexpectedCharacter c p)) (Some p).
Proof.
  induction fuel as [|fuel IH]; intros tokens q r p; simpl; [discriminate|].
  destruct (loopBody input tokens q) as [tokens' q'|r'] eqn:Hbody.
  - intros Hr Hp. destruct (loopBody_Continue _ _ _ _ _ Hbody) as [Hq _].
    destruct (IH _ _ _ _ Hr Hp) as [Hle H]. split; [lia|exact H].
  - intros H; injection H as ->. intros Hp.
    destruct (loopBody_Return _ _ _ _ Hbody) as [[_ ->]|(c & Hc & Hbad & ->)];
      [discriminate|].
    injection Hp as <-. split; [lia|]. exists c. auto.
Qed.

Lemma numberLoop_firstn rest :
  forall q hasDecimal k,
    numberLoop rest q hasDecimal <= q + k ->
    numberLoop (firstn k rest) q hasDecimal = numberLoop rest q hasDecimal.
Proof.
  induction rest as [|c rest IH]; intros q hasDecimal k H.
  { now rewrite firstn_nil. }
  destruct k as [|k].
  { pose proof (numberLoop_bounds (c :: rest) q hasDecimal) as Hb.
    change (q = numberLoop (c :: rest) q hasDecimal). lia. }
  cbn [firstn numberLoop] in *.
  destruct (isDigit c || isDot c); [|reflexivity].
  destruct (isDot c).
  - destruct hasDecimal; [reflexivity|]. apply IH. lia.
  - apply IH. lia.
Qed.

Lemma idLoop_firstn rest :
  forall q k, idLoop rest q <= q + k -> idLoop (firstn k rest) q = idLoop rest q.
Proof.
  induction rest as [|c rest IH]; intros q k H.
  { now rewrite firstn_nil. }
  destruct k as [|k].
  { pose proof (idLoop_bounds (c :: rest) q) as Hb.
    change (q = idLoop (c :: rest) q). lia. }
  cbn [firstn idLoop] in *.
  destruct (isIdChar c); [|reflexivity]. apply IH. lia.
Qed.

Lemma slice_firstn (input : jsstring) p q e :
  e <= p -> slice (firstn p input) q e = slice input q e.
Proof.
  intros H. unfold slice. rewrite skipn_firstn_comm, firstn_firstn.
  f_equal. lia.
Qed.

(** A pass that ends at or before [p] is the same on the first [p]
    characters of the input. *)
Lemma loopBody_prefix input tokens q tokens' q' p :
  loopBody input tokens q = Continue tokens' q' -> q' <= p ->
  loopBody (firstn p input) tokens q = Continue tokens' q'.
Proof.
  intros Hbody Hle. pose proof (loopBody_Continue _ _ _ _ _ Hbody) as [Hq _].
  revert Hbody. unfold loopBody.
  rewrite nth_error_firstn.
  replace (q <? p) with true by (symmetry; apply Nat.ltb_lt; lia).
  destruct (nth_error input q) as [c|]; [|discriminate].
  destruct (isSpace c); [auto|].
  destruct (property SINGLE_CHAR_TOKENS c); [auto|].
  rewrite skipn_firstn_comm.
  destruct (isDigit c).
  { intros H; injection H as <- <-.
    rewrite numberLoop_firstn by lia. now rewrite slice_firstn by lia. }
  destruct (isIdStart c); [|discriminate].
  intros H; injection H as <- <-.
  rewrite idLoop_firstn by lia. now rewrite slice_firstn by lia.
Qed.

Lemma tokenizeLoop_prefix input fuel :
  forall tokens q r p,
    tokenizeLoop fuel input tokens q = Some r -> errorPos r = Some p ->
    exists r', tokenizeLoop fuel (firstn p input) tokens q = Some r'
               /\ error r' = None.
Proof.
  induction fuel as [|fuel IH]; intros tokens q r p; simpl; [discriminate|].
  destruct (loopBody input tokens q) as [tokens' q'|r'] eqn:Hbody.
  - intros Hr Hp. destruct (tokenizeLoop_error _ _ _ _ _ _ Hr Hp) as [Hle _].
    rewrite (loopBody_prefix _ _ _ _ _ _ Hbody Hle). eauto.
  - intros H; injection H as ->. intros Hp.
    destruct (loopBody_Return _ _ _ _ Hbody) as [[_ ->]|(c & Hc & Hbad & ->)];
      [discriminate|].
    injection Hp as <-. unfold loopBody.
    assert (Hnone : nth_error (firstn q input) q = None).
    { apply nth_error_None. rewrite length_firstn. lia. }
    rewrite Hnone. eexists. split; reflexivity.
Qed.

(** X6: An error a call returns is at a character of the input that begins no
    token; the token list returned with it is empty and the message names
    the character and the position.  It is the first place at which the
    input cannot be read: the input up to that position, taken alone, is
    tokenized without error. *)
Theorem tokenize_error_is_first (input : jsstring) (r : TokenizeResult)
  (msg : jsstring) :
  tokenize input = Some r -> error r = Some msg ->
  exists p c,
    errorPos r = Some p /\ nth_error input p = Some c /\ beginsNoToken c = true
    /\ tokens r = []
    /\ msg = lit "Unexpected character '" ++ [c] ++ lit "' at position "
             ++ decimal (Z.of_nat p)
    /\ exists r', tokenize (firstn p input) = Some r' /\ error r' = None.
Proof.
  intros Hr Herr.
  destruct (tokenize_cases _ _ Hr) as [(Hnone & _)|(p & c & Hc & Hbad & ->)];
    [congruence|].
  cbn [error] in Herr. injection Herr as <-.
  exists p, c. repeat split; auto.
  destruct (tokenizeLoop_prefix _ _ _ _ _ p Hr eq_refl) as (r' & Hr' & Herr').
  destruct (tokenize_total (firstn p input)) as (r'' & Hr'').
  exists r''. split; [exact Hr''|].
  now rewrite (tokenizeLoop_agree _ _ _ _ _ _ _ Hr'' Hr').
Qed.

Lemma tokenize_error_is_first_witness :
  exists p c,
    Some 3 = Some p /\ nth_error (lit "a+1$") p = Some c /\ beginsNoToken c = true
    /\ @nil Token = []
    /\ lit "Unexpected character '$' at position 3" =
       lit "Unexpected character '" ++ [c] ++ lit "' at position "
         ++ decimal (Z.of_nat p)
    /\ exists r', tokenize (firstn p (lit "a+1$")) = Some r' /\ error r' = None.
Proof.
  apply (tokenize_error_is_first (lit "a+1$")
           (mkResult [] (Some (lit "Unexpected character '$' at position 3")) (Some 3))
           (lit "Unexpected character '$' at position 3")); reflexivity.
Defined.

Lemma tiles_blank input body n :
  tiles input body n -> forallb isSpace (firstn n input) = true -> body = [].
Proof.
  intros Ht Hblank.
  pose proof (tiles_text _ _ _ Ht) as Htext.
  assert (Hvis : visible (firstn n input) = []).
  { unfold visible. clear -Hblank.
    induction (firstn n input) as [|c l IH]; [reflexivity|].
    simpl in *. apply andb_true_iff in Hblank as [Hc Hi]. rewrite Hc. simpl. auto. }
  rewrite Hvis in Htext.
  destruct (tiles_lexed _ _ _ Ht) as [_ Hall].
  destruct body as [|t body]; [reflexivity|].
  exfalso. simpl in Htext. apply app_eq_nil in Htext as [Hv _].
  pose proof (Forall_inv Hall) as (p & e & Hlex & _).
  exact (lexeme_nonempty _ _ (lexed_lexeme _ _ _ _ Hlex) Hv).
Qed.

(** X7: An input of white space only (the empty input included) is tokenized to
    the single [EOF] token. *)
Theorem tokenize_blank (input : jsstring) :
  forallb isSpace input = true ->
  tokenize input =
    Some (mkResult [createToken EOF (lit "EOF") (List.length input)
                      (List.length input)] None None).
Proof.
  intros Hblank.
  destruct (tokenize_total input) as (r & Hr). rewrite Hr. f_equal.
  destruct (tokenize_cases _ _ Hr) as [(_ & body & -> & Ht)|(p & c & Hc & Hbad & _)].
  - rewrite (tiles_blank _ _ _ Ht); [reflexivity|]. now rewrite firstn_all.
  - rewrite forallb_forall in Hblank.
    pose proof (Hblank c (nth_error_In _ _ Hc)) as Hs.
    destruct (beginsNoToken_true _ Hbad) as (Hs' & _). congruence.
Qed.

Lemma tokenize_blank_witness :
  tokenize (lit "   ") = Some (mkResult [tok EOF "EOF" 3 3] None None).
Proof. apply (tokenize_blank (lit "   ")). reflexivity. Defined.

(** * The tree of a successful parse *)

Lemma lookahead_at s : lookahead s = token_at (State.tokens s) (State.currentIndex s).
Proof. reflexivity. Qed.

Lemma span_nil (T : list Token) i : skipn i T = [] ++ skipn i T.
Proof. reflexivity. Qed.

Lemma span_app (T : list Token) i j k a b :
  skipn i T = a ++ skipn j T -> skipn j T = b ++ skipn k T ->
  skipn i T = (a ++ b) ++ skipn k T.
Proof. intros -> ->. now rewrite app_assoc. Qed.

Lemma span_next (T : list Token) i k b :
  i < List.length T -> skipn (S i) T = b ++ skipn k T ->
  skipn i T = (token_at T i :: b) ++ skipn k T.
Proof.
  intros Hi H. unfold token_at.
  destruct (nth_error T i) as [t|] eqn:Ht.
  - destruct (skipn_nth_error_cons _ _ _ Ht) as (rest & Hrest & _).
    rewrite Hrest. rewrite (skipn_S_tail _ _ _ _ Hrest) in H. simpl. now rewrite H.
  - apply nth_error_None in Ht. lia.
Qed.

Lemma span_last (T : list Token) i j a :
  skipn i T = a ++ skipn j T -> j < List.length T ->
  skipn i T = (a ++ [token_at T j]) ++ skipn (S j) T.
Proof.
  intros H Hj. eapply span_app; [exact H|].
  apply (span_next T j (S j) []); [exact Hj|reflexivity].
Qed.

Ltac tidy :=
  repeat match goal with
         | H : _ /\ _ |- _ => destruct H
         | H : exists _, _ |- _ => destruct H
         end;
  rewrite ?lookahead_at in *;
  cbn [State.tokens State.currentIndex State.steps State.nodeId State.depth] in *;
  repeat match goal with
         | H : State.tokens ?s = _ |- _ => is_var s; rewrite H in *; clear H
         end.

Ltac span :=
  first [ eassumption
        | apply span_nil
        | eapply span_next; [eassumption|span]
        | eapply span_app; [eassumption|span]
        | eapply span_last; [span|eassumption] ].

Ltac typed :=
  first [ eassumption
        | apply TokenType_eqb_eq; eassumption
        | apply TokenType_eqb_eq;
          match goal with
          | H : TokenType_eqb _ _ = true |- _ => exact H
          end ].

Lemma parse_functions_build fuel :
  builds nE (parseE fuel) /\ builds nE' (parseEPrime fuel)
  /\ builds nT (parseT fuel) /\ builds nT' (parseTPrime fuel)
  /\ builds nF (parseF fuel).
Proof.
  induction fuel as [|fuel (IHE & IHE' & IHT & IHT' & IHF)].
  { unfold builds. repeat split; intros s; exact I. }
  unfold builds in *.
  repeat split; intros [tokens i steps n d]; cbn [parseE parseEPrime parseT parseTPrime parseF].
  all: exec IHE IHE' IHT IHT' IHF ltac:(idtac).
  all: try exact I.
  all: tidy.
  all: (split; [reflexivity|]).
  all: eexists; (split; [span|]).
  all: cbn [app].
  all: solve [econstructor; typed].
Qed.

Lemma ParseTree_Derives nt ts node : ParseTree nt ts node -> Derives nt ts.
Proof.
  induction 1.
  - now apply Derives_E.
  - apply Derives_E'_op; auto.
  - apply Derives_E'_op; auto.
  - apply Derives_E'_eps.
  - now apply Derives_T.
  - apply Derives_T'_op; auto.
  - apply Derives_T'_op; auto.
  - apply Derives_T'_eps.
  - now apply Derives_F_paren.
  - now apply Derives_F_number.
  - now apply Derives_F_id.
Qed.

(** The call [parseE()] of [parse], when it returns. *)
Lemma descent_builds tokenArray tree s :
  descent tokenArray = Returns tree s ->
  State.tokens s = tokenArray
  /\ exists ts,
       tokenArray = ts ++ skipn (State.currentIndex s) tokenArray
       /\ ParseTree nE ts tree.
Proof.
  unfold descent. intros H.
  destruct (parse_functions_build (4 * List.length tokenArray + 3)) as (HE & _).
  specialize (HE (State.new tokenArray 0 [] 0 0%Z)). rewrite H in HE.
  exact HE.
Qed.

(** What a result with a tree tells about the descent. *)
Lemma parse_success tokenArray st r s' tree :
  parse tokenArray st = Returns r s' -> Result.tree r = Some tree ->
  exists s,
    descent tokenArray = Returns tree s
    /\ type (lookahead s) = EOF
    /\ State.tokens s = tokenArray
    /\ State.currentIndex s' = State.currentIndex s
    /\ Result.error r = None
    /\ Result.steps r =
       State.steps s ++
         [Step.new (check_mark ++ lit " Parse Complete")
            (lit "Expression parsed successfully!")
            (value (lookahead s)) (type (lookahead s)) (State.depth s)
            (List.length (State.steps s))].
Proof.
  intros Hp Htree. rewrite parse_eq in Hp.
  destruct (attempt_cases tokenArray) as [tree' s Hpe Hty|tree' s Hpe Hty|err s Hpe];
    injection Hp as <- <-; try discriminate.
  injection Htree as ->. exists s.
  destruct (descent_builds _ _ _ Hpe) as [Htok _].
  repeat split; auto.
Qed.

Lemma spoken_app a b : spoken (a ++ b) = spoken a ++ spoken b.
Proof. apply filter_app. Qed.

Lemma spoken_one l : l <> epsilon -> spoken [l] = [l].
Proof.
  intros H. unfold spoken, JS.eqb. simpl.
  destruct (list_eq_dec N.eq_dec l epsilon); [contradiction|reflexivity].
Qed.

Lemma ParseTree_frontier nt ts node :
  ParseTree nt ts node ->
  Forall (fun t => symbol t <> epsilon) ts ->
  spoken (frontier node) = map symbol ts.
Proof.
  induction 1 as [t e a b id _ IHa _ IHb
                 | op t e a b i id Hop _ IHa _ IHb
                 | op t e a b i id Hop _ IHa _ IHb
                 | i id
                 | f t a b id _ IHa _ IHb
                 | op f t a b i id Hop _ IHa _ IHb
                 | op f t a b i id Hop _ IHa _ IHb
                 | i id
                 | l e r a i j id Hl _ IHa Hr
                 | n i id Hn
                 | n i id Hn]; intros Hall.
  - apply Forall_app in Hall as [H1 H2].
    cbn [frontier flat_map]. rewrite app_nil_r, spoken_app, IHa, IHb, map_app; auto.
  - inversion Hall as [|? ? Hs Hrest]; subst. apply Forall_app in Hrest as [H1 H2].
    cbn [frontier flat_map map]. rewrite app_nil_r.
    change (spoken ([lit "+"] ++ frontier a ++ frontier b) = symbol op :: map symbol (t ++ e)).
    rewrite !spoken_app, IHa, IHb, map_app by auto.
    replace (symbol op) with (lit "+") by (unfold symbol; now rewrite Hop).
    reflexivity.
  - inversion Hall as [|? ? Hs Hrest]; subst. apply Forall_app in Hrest as [H1 H2].
    cbn [frontier flat_map map]. rewrite app_nil_r.
    change (spoken ([lit "-"] ++ frontier a ++ frontier b) = symbol op :: map symbol (t ++ e)).
    rewrite !spoken_app, IHa, IHb, map_app by auto.
    replace (symbol op) with (lit "-") by (unfold symbol; now rewrite Hop).
    reflexivity.
  - reflexivity.
  - apply Forall_app in Hall as [H1 H2].
    cbn [frontier flat_map]. rewrite app_nil_r, spoken_app, IHa, IHb, map_app; auto.
  - inversion Hall as [|? ? Hs Hrest]; subst. apply Forall_app in Hrest as [H1 H2].
    cbn [frontier flat_map map]. rewrite app_nil_r.
    change (spoken ([lit "*"] ++ frontier a ++ frontier b) = symbol op :: map symbol (f ++ t)).
    rewrite !spoken_app, IHa, IHb, map_app by auto.
    replace (symbol op) with (lit "*") by (unfold symbol; now rewrite Hop).
    reflexivity.
  - inversion Hall as [|? ? Hs Hrest]; subst. apply Forall_app in Hrest as [H1 H2].
    cbn [frontier flat_map map]. rewrite app_nil_r.
    change (spoken ([lit "/"] ++ frontier a ++ frontier b) = symbol op :: map symbol (f ++ t)).
    rewrite !spoken_app, IHa, IHb, map_app by auto.
    replace (symbol op) with (lit "/") by (unfold symbol; now rewrite Hop).
    reflexivity.
  - reflexivity.
  - inversion Hall as [|? ? Hs Hrest]; subst. apply Forall_app in Hrest as [H1 H2].
    cbn [frontier flat_map map]. rewrite app_nil_r.
    change (spoken ([lit "("] ++ frontier a ++ [lit ")"]) =
            symbol l :: map symbol (e ++ [r])).
    rewrite !spoken_app, IHa, map_app by auto.
    replace (symbol l) with (lit "(") by (unfold symbol; now rewrite Hl).
    cbn [map]. replace (symbol r) with (lit ")") by (unfold symbol; now rewrite Hr).
    reflexivity.
  - inversion Hall as [|? ? Hs _]; subst.
    cbn [frontier flat_map map]. rewrite app_nil_r.
    assert (Hsym : symbol n = value n) by (unfold symbol; now rewrite Hn).
    rewrite Hsym in *. now apply spoken_one.
  - inversion Hall as [|? ? Hs _]; subst.
    cbn [frontier flat_map map]. rewrite app_nil_r.
    assert (Hsym : symbol n = value n) by (unfold symbol; now rewrite Hn).
    rewrite Hsym in *. now apply spoken_one.
Qed.

Lemma parse_success_tree tokenArray st r s' tree :
  parse tokenArray st = Returns r s' -> Result.tree r = Some tree ->
  exists s ts rest,
    descent tokenArray = Returns tree s
    /\ rest = skipn (State.currentIndex s) tokenArray
    /\ tokenArray = ts ++ rest /\ next_type rest = EOF /\ ParseTree nE ts tree.
Proof.
  intros Hp Htree.
  destruct (parse_success _ _ _ _ _ Hp Htree) as (s & Hd & Hty & Htok & _).
  destruct (descent_builds _ _ _ Hd) as (_ & ts & Hts & Htree').
  exists s, ts, (skipn (State.currentIndex s) tokenArray).
  repeat split; auto.
  rewrite lookahead_type, Htok in Hty. exact Hty.
Qed.

(** X8: The tree of a successful parse is a parse tree of the grammar: the
    tokens are an expression [ts], for which the tree is the derivation tree
    with root [E], followed by a token of type [EOF] or by nothing. *)
Theorem parse_tree_follows_grammar (tokenArray : list Token) (st : State.t)
  (r : Result.t) (s' : State.t) (tree : Node) :
  parse tokenArray st = Returns r s' -> Result.tree r = Some tree ->
  exists ts rest,
    tokenArray = ts ++ rest /\ next_type rest = EOF /\ ParseTree nE ts tree.
Proof.
  intros Hp Htree.
  destruct (parse_success_tree _ _ _ _ _ Hp Htree) as (s & ts & rest & _ & _ & H).
  exists ts, rest. exact H.
Qed.

Lemma parse_tree_follows_grammar_witness :
  exists r s' tree ts rest,
    parse tokens_3 fresh_state = Returns r s'
    /\ Result.tree r = Some tree
    /\ tokens_3 = ts ++ rest /\ next_type rest = EOF /\ ParseTree nE ts tree.
Proof.
  destruct (parse_returns tokens_3 fresh_state) as (r & s' & Hp).
  assert (Htree : exists tree, Result.tree r = Some tree).
  { vm_compute in Hp. injection Hp as <- _. eexists. reflexivity. }
  destruct Htree as (tree & Htree).
  destruct (parse_tree_follows_grammar tokens_3 fresh_state r s' tree Hp Htree)
    as (ts & rest & H).
  exists r, s', tree, ts, rest. split; [exact Hp|]. split; [exact Htree|exact H].
Defined.

Lemma parse_sound tokenArray st r s' tree :
  parse tokenArray st = Returns r s' -> Result.tree r = Some tree ->
  exists ts rest,
    tokenArray = ts ++ rest /\ Derives nE ts /\ next_type rest = EOF.
Proof.
  intros Hp Htree.
  destruct (parse_success_tree _ _ _ _ _ Hp Htree)
    as (s & ts & rest & _ & _ & H1 & H2 & H3).
  exists ts, rest. repeat split; auto. exact (ParseTree_Derives _ _ _ H3).
Qed.

Lemma parse_finds tokenArray st r s' ts rest :
  parse tokenArray st = Returns r s' ->
  tokenArray = ts ++ rest -> Derives nE ts -> next_type rest = EOF ->
  exists tree, Result.tree r = Some tree.
Proof.
  intros Hp Hts Hd Hrest.
  set (fuel := 4 * List.length tokenArray + 3).
  pose proof (parser_complete _ _ Hd fuel (State.new tokenArray 0 [] 0 0%Z) rest) as Hc.
  cbn [State.tokens State.currentIndex parse_nonterminal skipn stops] in Hc.
  rewrite Hrest in Hc.
  specialize (Hc Hts ltac:(repeat split; discriminate)).
  rewrite parse_eq in Hp.
  destruct (attempt_cases tokenArray) as [tree s Hpe Hty|tree s Hpe Hty|err s Hpe];
    fold fuel in Hpe; rewrite Hpe in Hc; injection Hp as <- <-.
  - eexists. reflexivity.
  - exfalso. destruct Hc as [Htok Hrem]. apply Hty.
    rewrite lookahead_type, Hrem. exact Hrest.
  - contradiction.
Qed.

(** X9: [parse] accepts exactly the language of the grammar: it returns a tree if
    and only if the token array is an expression of the grammar followed by a
    token of type [EOF], or by nothing at all. *)
Theorem parse_accepts_the_grammar (tokenArray : list Token) (st : State.t) :
  exists r s',
    parse tokenArray st = Returns r s'
    /\ ((exists tree, Result.tree r = Some tree)
        <-> (exists ts rest,
               tokenArray = ts ++ rest /\ Derives nE ts /\ next_type rest = EOF)).
Proof.
  destruct (parse_returns tokenArray st) as (r & s' & Hp).
  exists r, s'. split; [exact Hp|]. split.
  - intros (tree & Htree). exact (parse_sound _ _ _ _ _ Hp Htree).
  - intros (ts & rest & Hts & Hd & Hrest).
    exact (parse_finds _ _ _ _ _ _ Hp Hts Hd Hrest).
Qed.

Lemma parse_accepts_the_grammar_witness :
  exists r s' tree,
    parse tokens_3 fresh_state = Returns r s' /\ Result.tree r = Some tree.
Proof.
  destruct (parse_accepts_the_grammar tokens_3 fresh_state) as (r & s' & Hp & Hiff).
  destruct (proj2 Hiff) as (tree & Htree).
  { exists [tok NUMBER "3" 0 1], [tok EOF "EOF" 1 1].
    split; [reflexivity|]. split; [apply Derives_number; reflexivity|reflexivity]. }
  exists r, s', tree. split; [exact Hp|exact Htree].
Defined.

(** X10: Read from left to right, the leaves of the tree of a successful parse,
    without the epsilon leaves, are the tokens of the expression: each
    operator or parenthesis by its character, each number or identifier by
    its text.  (No token may itself read as the letter epsilon.) *)
Theorem parse_tree_frontier (tokenArray : list Token) (st : State.t)
  (r : Result.t) (s' : State.t) (tree : Node) :
  parse tokenArray st = Returns r s' -> Result.tree r = Some tree ->
  Forall (fun t => symbol t <> epsilon) tokenArray ->
  exists ts rest,
    tokenArray = ts ++ rest /\ next_type rest = EOF
    /\ filter (fun l => negb (JS.eqb l epsilon)) (frontier tree) = map symbol ts.
Proof.
  intros Hp Htree Hall.
  destruct (parse_success_tree _ _ _ _ _ Hp Htree)
    as (s & ts & rest & _ & _ & H1 & H2 & H3).
  exists ts, rest. repeat split; auto.
  apply (ParseTree_frontier _ _ _ H3).
  rewrite H1 in Hall. now apply Forall_app in Hall as [Hall _].
Qed.

Lemma parse_tree_frontier_witness :
  exists r s' tree ts rest,
    parse tokens_paren_a_times_2 fresh_state = Returns r s'
    /\ Result.tree r = Some tree
    /\ tokens_paren_a_times_2 = ts ++ rest /\ next_type rest = EOF
    /\ filter (fun l => negb (JS.eqb l epsilon)) (frontier tree) = map symbol ts.
Proof.
  destruct (parse_returns tokens_paren_a_times_2 fresh_state) as (r & s' & Hp).
  assert (Htree : exists tree, Result.tree r = Some tree).
  { vm_compute in Hp. injection Hp as <- _. eexists. reflexivity. }
  destruct Htree as (tree & Htree).
  destruct (parse_tree_frontier tokens_paren_a_times_2 fresh_state r s' tree Hp Htree)
    as (ts & rest & H).
  { repeat constructor; vm_compute; discriminate. }
  exists r, s', tree, ts, rest. split; [exact Hp|]. split; [exact Htree|exact H].
Defined.

(** * The step log of a parse *)

(** How a call of [parse] ends: with the state [s] at the end of the
    descent, or at the throw, and the last step [final] logged after it. *)
Lemma parse_ends tokenArray st :
  exists r s' s final,
    parse tokenArray st = Returns r s'
    /\ State.tokens s = tokenArray
    /\ State.tokens s' = tokenArray
    /\ State.currentIndex s' = State.currentIndex s
    /\ Result.steps r = State.steps s ++ [final]
    /\ Step.depth final = State.depth s
    /\ Step.timestamp final = List.length (State.steps s)
    /\ ((exists tree,
           descent tokenArray = Returns tree s
           /\ type (lookahead s) = EOF
           /\ Result.tree r = Some tree /\ Result.error r = None
           /\ Result.errorPos r = None
           /\ Step.rule final = check_mark ++ lit " Parse Complete"
           /\ Step.action final = lit "Expression parsed successfully!")
        \/ (exists expected,
              (expected = lit "')'" \/ expected = expected_factor
               \/ expected = lit "end of expression")
              /\ (expected = lit "end of expression" ->
                  exists tree, descent tokenArray = Returns tree s)
              /\ (expected <> lit "end of expression" ->
                  exists err, descent tokenArray = Throws err s)
              /\ Result.tree r = None
              /\ Result.error r =
                 Some (ParseError.message (syntaxError (lookahead s) expected))
              /\ Result.errorPos r = Some (pos (lookahead s))
              /\ Step.rule final = cross_mark ++ lit " Parse Error"
              /\ Step.action final =
                 ParseError.message (syntaxError (lookahead s) expected))).
Proof.
  rewrite parse_eq.
  pose proof (attempt_throws tokenArray) as Hthrow.
  destruct (attempt_cases tokenArray) as [tree s Hpe Hty|tree s Hpe Hty|err s Hpe].
  - destruct (descent_builds _ _ _ Hpe) as [Htok _].
    do 4 eexists. split; [reflexivity|].
    cbn [State.tokens State.currentIndex Result.steps Step.depth Step.timestamp].
    repeat (split; [first [eassumption|reflexivity]|]).
    left. exists tree. repeat split; auto.
  - destruct (descent_builds _ _ _ Hpe) as [Htok _].
    do 4 eexists. split; [reflexivity|].
    cbn [failure_state failure_result failure_step State.tokens State.currentIndex
           Result.steps Step.depth Step.timestamp].
    repeat (split; [first [eassumption|reflexivity]|]).
    right. exists (lit "end of expression").
    split; [auto|]. split; [eauto|]. split; [congruence|].
    repeat split; reflexivity.
  - destruct (Hthrow err s eq_refl) as (Htok & _).
    destruct (parse_functions_raise (4 * List.length tokenArray + 3)) as (Hraise & _).
    specialize (Hraise (State.new tokenArray 0 [] 0 0%Z)). rewrite Hpe in Hraise.
    destruct Hraise as (expected & Hexp & ->).
    do 4 eexists. split; [reflexivity|].
    cbn [failure_state failure_result failure_step State.tokens State.currentIndex
           Result.steps Step.depth Step.timestamp].
    repeat (split; [first [eassumption|reflexivity]|]).
    right. exists expected.
    split; [tauto|].
    split.
    { intros ->. exfalso. destruct Hexp as [H|H]; vm_compute in H; discriminate H. }
    split; [eauto|].
    repeat split; reflexivity.
Qed.

(** ** Timestamps *)

Lemma stamped_log steps rule action token tokenType depth :
  stamped steps ->
  stamped (steps ++ [Step.new rule action token tokenType depth (List.length steps)]).
Proof.
  unfold stamped. intros H. rewrite map_app, length_app, H. simpl.
  now rewrite seq_app.
Qed.

Lemma stamped_nth steps i step :
  stamped steps -> nth_error steps i = Some step -> Step.timestamp step = i.
Proof.
  unfold stamped. intros H Hi.
  assert (Hlt : i < List.length steps) by (apply nth_error_Some; congruence).
  apply (map_nth_error Step.timestamp) in Hi. rewrite H in Hi.
  apply (nth_error_nth _ _ 0) in Hi. rewrite seq_nth in Hi by exact Hlt.
  simpl in Hi. congruence.
Qed.

Ltac stamp :=
  first [ assumption | exact I | apply stamped_log; stamp ].

Lemma parse_functions_stamp fuel :
  stamps (parseE fuel) /\ stamps (parseEPrime fuel)
  /\ stamps (parseT fuel) /\ stamps (parseTPrime fuel)
  /\ stamps (parseF fuel).
Proof.
  induction fuel as [|fuel (IHE & IHE' & IHT & IHT' & IHF)].
  { unfold stamps. repeat split; intros s _; exact I. }
  unfold stamps in *.
  repeat split; intros [tokens i steps n d] Hs;
    cbn [State.steps] in Hs;
    cbn [parseE parseEPrime parseT parseTPrime parseF].
  all: exec IHE IHE' IHT IHT' IHF ltac:(stamp).
  all: stamp.
Qed.

(** X11: The [timestamp] of every step of the log [parse] returns is the index of
    the step in the log. *)
Theorem parse_timestamps (tokenArray : list Token) (st : State.t) :
  exists r s',
    parse tokenArray st = Returns r s'
    /\ forall i step,
         nth_error (Result.steps r) i = Some step -> Step.timestamp step = i.
Proof.
  destruct (parse_ends tokenArray st)
    as (r & s' & s & final & Hp & _ & _ & _ & Hsteps & _ & Hstamp & Hend).
  exists r, s'. split; [exact Hp|]. intros i step Hi. rewrite Hsteps in Hi.
  assert (Hs : stamped (State.steps s)).
  { destruct (parse_functions_stamp (4 * List.length tokenArray + 3)) as (HE & _).
    specialize (HE (State.new tokenArray 0 [] 0 0%Z) eq_refl).
    destruct Hend as [(tree & Hd & _)|(expected & _ & H1 & H2 & _)].
    - unfold descent in Hd. now rewrite Hd in HE.
    - destruct (list_eq_dec N.eq_dec expected (lit "end of expression")) as [He|He].
      + destruct (H1 He) as (tree & Hd). unfold descent in Hd. now rewrite Hd in HE.
      + destruct (H2 He) as (err & Hd). unfold descent in Hd. now rewrite Hd in HE. }
  assert (Hall : stamped (State.steps s ++ [final])).
  { destruct final as [r0 a0 t0 ty0 d0 ts0]. cbn [Step.timestamp] in Hstamp. subst ts0.
    now apply stamped_log. }
  exact (stamped_nth _ _ _ Hall Hi).
Qed.

Lemma parse_timestamps_witness :
  exists r s' step,
    parse tokens_1_plus_2 fresh_state = Returns r s'
    /\ nth_error (Result.steps r) 5 = Some step
    /\ Step.action step = lit "Match '+'" /\ Step.timestamp step = 5.
Proof.
  destruct (parse_timestamps tokens_1_plus_2 fresh_state) as (r & s' & Hp & Hstamp).
  assert (Hstep : exists step, nth_error (Result.steps r) 5 = Some step
                               /\ Step.action step = lit "Match '+'").
  { vm_compute in Hp. injection Hp as <- _. eexists. split; reflexivity. }
  destruct Hstep as (step & Hstep & Hact).
  exists r, s', step. split; [exact Hp|]. split; [exact Hstep|]. split; [exact Hact|].
  exact (Hstamp 5 step Hstep).
Defined.

(** ** The shape of the log *)

Lemma deeper_refl d steps : deeper d steps steps.
Proof. exists []. split; [now rewrite app_nil_r|constructor]. Qed.

Lemma deeper_snoc d steps steps' step :
  deeper d steps steps' -> (d < Step.depth step)%Z ->
  deeper d steps (steps' ++ [step]).
Proof.
  intros (new & -> & Hnew) Hd. exists (new ++ [step]). split.
  - now rewrite app_assoc.
  - apply Forall_app. split; [exact Hnew|]. constructor; [exact Hd|constructor].
Qed.

Lemma deeper_trans d d' a b c :
  (d <= d')%Z -> deeper d a b -> deeper d' b c -> deeper d a c.
Proof.
  intros Hd (n1 & -> & H1) (n2 & -> & H2). exists (n1 ++ n2). split.
  - now rewrite app_assoc.
  - apply Forall_app. split; [exact H1|].
    eapply Forall_impl; [|exact H2]. simpl. intros st Hst. lia.
Qed.

Ltac deep :=
  first [ apply deeper_refl
        | apply deeper_snoc; [deep | cbn [Step.depth]; lia]
        | match goal with
          | H : deeper ?d' ?b (State.steps ?s) |- deeper ?d ?a (State.steps ?s) =>
              apply (deeper_trans d d' a b (State.steps s)); [lia | deep | exact H]
          end ].

Ltac nest :=
  repeat match goal with
         | H : _ /\ _ |- _ => destruct H
         end;
  first [ exact I | split; [lia | deep] ].

Lemma parse_functions_nest fuel :
  nests (parseE fuel) /\ nests (parseEPrime fuel)
  /\ nests (parseT fuel) /\ nests (parseTPrime fuel)
  /\ nests (parseF fuel).
Proof.
  induction fuel as [|fuel (IHE & IHE' & IHT & IHT' & IHF)].
  { unfold nests. repeat split; intros s; exact I. }
  unfold nests in *.
  repeat split; intros [tokens i steps n d];
    cbn [parseE parseEPrime parseT parseTPrime parseF].
  all: exec IHE IHE' IHT IHT' IHF ltac:(idtac).
  all: nest.
Qed.

Lemma parseE_opens fuel s :
  match parseE fuel s with
  | Returns _ s' =>
      State.depth s' = State.depth s
      /\ deeper (State.depth s) (State.steps s ++ [enter_step s]) (State.steps s')
  | Throws _ s' =>
      (State.depth s < State.depth s')%Z
      /\ deeper (State.depth s) (State.steps s ++ [enter_step s]) (State.steps s')
  | OutOfFuel => True
  end.
Proof.
  destruct fuel as [|fuel]; [exact I|].
  destruct (parse_functions_nest fuel) as (IHE & IHE' & IHT & IHT' & IHF).
  unfold nests in *. destruct s as [tokens i steps n d].
  unfold enter_step. cbn [parseE State.steps State.depth].
  exec IHE IHE' IHT IHT' IHF ltac:(idtac).
  all: nest.
Qed.

(** X12: The log [parse] returns begins with the step [Enter E] at depth 1, which
    records the first token, and ends with one closing step; every step in
    between is at depth 1 or more.  After a success the closing step is
    [Parse Complete], at depth 0; after a failure it is [Parse Error], with
    the message as its action, at the depth of the throw. *)
Theorem parse_log_shape (tokenArray : list Token) (st : State.t) :
  exists r s' middle final,
    parse tokenArray st = Returns r s'
    /\ Result.steps r =
       Step.new rule_E (lit "Enter E") (value (token_at tokenArray 0))
         (type (token_at tokenArray 0)) 1 0
       :: middle ++ [final]
    /\ Forall (fun step => (1 <= Step.depth step)%Z) middle
    /\ (0 <= Step.depth final)%Z
    /\ (Result.error r = None ->
        Step.rule final = check_mark ++ lit " Parse Complete"
        /\ Step.action final = lit "Expression parsed successfully!"
        /\ Step.depth final = 0%Z)
    /\ (forall msg, Result.error r = Some msg ->
        Step.rule final = cross_mark ++ lit " Parse Error"
        /\ Step.action final = msg).
Proof.
  destruct (parse_ends tokenArray st)
    as (r & s' & s & final & Hp & _ & _ & _ & Hsteps & Hdepth & _ & Hend).
  pose proof (parseE_opens (4 * List.length tokenArray + 3)
                (State.new tokenArray 0 [] 0 0%Z)) as Hopen.
  assert (Hshape : (0 <= State.depth s)%Z
                   /\ deeper 0 [enter_step (State.new tokenArray 0 [] 0 0%Z)]
                        (State.steps s)
                   /\ (Result.error r = None -> State.depth s = 0%Z)).
  { destruct Hend as [(tree & Hd & _)|(expected & _ & H1 & H2 & _ & Herr & _)].
    - unfold descent in Hd. rewrite Hd in Hopen. cbn [State.depth State.steps app] in Hopen.
      destruct Hopen as [H0 H]. split; [lia|]. split; [exact H|auto].
    - destruct (list_eq_dec N.eq_dec expected (lit "end of expression")) as [He|He].
      + destruct (H1 He) as (tree & Hd). unfold descent in Hd. rewrite Hd in Hopen.
        cbn [State.depth State.steps app] in Hopen.
        destruct Hopen as [H0 H]. split; [lia|]. split; [exact H|congruence].
      + destruct (H2 He) as (err & Hd). unfold descent in Hd. rewrite Hd in Hopen.
        cbn [State.depth State.steps app] in Hopen.
        destruct Hopen as [H0 H]. split; [lia|]. split; [exact H|congruence]. }
  destruct Hshape as (Hd0 & (middle & Hmid & Hdeep) & Hzero).
  exists r, s', middle, final. split; [exact Hp|].
  split. { rewrite Hsteps, Hmid. reflexivity. }
  split. { eapply Forall_impl; [|exact Hdeep]. simpl. intros step H. lia. }
  split; [lia|]. split.
  - intros Herr. destruct Hend as [(tree & _ & _ & _ & _ & _ & H1 & H2)|(expected & H)].
    + repeat split; auto. rewrite Hdepth. auto.
    + destruct H as (_ & _ & _ & _ & H & _). congruence.
  - intros msg Herr. destruct Hend as [(tree & _ & _ & _ & H & _)|(expected & H)].
    + congruence.
    + destruct H as (_ & _ & _ & _ & He & _ & H1 & H2).
      split; [exact H1|]. rewrite H2. congruence.
Qed.

Lemma parse_log_shape_witness :
  exists r s' final,
    parse tokens_3 fresh_state = Returns r s'
    /\ last (Result.steps r) final = final
    /\ Step.action final = lit "Expression parsed successfully!"
    /\ Step.depth final = 0%Z.
Proof.
  destruct (parse_log_shape tokens_3 fresh_state)
    as (r & s' & middle & final & Hp & Hsteps & _ & _ & Hok & _).
  assert (Herr : Result.error r = None).
  { vm_compute in Hp. injection Hp as <- _. reflexivity. }
  destruct (Hok Herr) as (_ & Hact & Hdepth).
  exists r, s', final. split; [exact Hp|]. split; [|split; assumption].
  rewrite Hsteps. change (last ((Step.new rule_E (lit "Enter E")
                                   (value (token_at tokens_3 0))
                                   (type (token_at tokens_3 0)) 1 0 :: middle)
                                ++ [final]) final = final).
  apply last_last.
Defined.

(** ** The match steps *)

Lemma replayed_skip T i steps step :
  StepLog.isMatch step = false -> replayed T i steps -> replayed T i (steps ++ [step]).
Proof.
  unfold replayed. intros Hm H. rewrite filter_app. simpl. rewrite Hm.
  now rewrite app_nil_r.
Qed.

Lemma firstn_token_at (T : list Token) i :
  i < List.length T -> firstn (S i) T = firstn i T ++ [token_at T i].
Proof.
  intros Hi. unfold token_at. destruct (nth_error T i) as [t|] eqn:Ht.
  - now apply firstn_next.
  - apply nth_error_None in Ht. lia.
Qed.

Lemma replayed_match T i steps step :
  i < List.length T -> StepLog.isMatch step = true ->
  Step.token step = value (token_at T i) ->
  Step.tokenType step = type (token_at T i) ->
  replayed T i steps -> replayed T (S i) (steps ++ [step]).
Proof.
  unfold replayed. intros Hi Hm Hv Hty H.
  rewrite filter_app, (firstn_token_at _ _ Hi). cbn [filter]. rewrite Hm.
  rewrite !map_app, H. cbn [map]. now rewrite Hv, Hty.
Qed.

Ltac replay :=
  first [ assumption | exact I
        | apply replayed_skip; [reflexivity | replay]
        | apply replayed_match; [assumption | reflexivity | reflexivity | reflexivity | replay] ].

Lemma parse_functions_replay fuel :
  replays (parseE fuel) /\ replays (parseEPrime fuel)
  /\ replays (parseT fuel) /\ replays (parseTPrime fuel)
  /\ replays (parseF fuel).
Proof.
  induction fuel as [|fuel (IHE & IHE' & IHT & IHT' & IHF)].
  { unfold replays. repeat split; intros s _; exact I. }
  unfold replays in *.
  repeat split; intros [tokens i steps n d] Hs;
    cbn [State.tokens State.currentIndex State.steps] in Hs;
    cbn [parseE parseEPrime parseT parseTPrime parseF].
  all: exec IHE IHE' IHT IHT' IHF ltac:(replay).
  all: replay.
Qed.

(** X13: The match steps of the log replay the input: taking the steps of the log
    but the closing one, those whose action contains [Match] (the test of
    [StepLog]) record, in order, the value and the type of each token the
    parser has consumed. *)
Theorem parse_match_steps_replay (tokenArray : list Token) (st : State.t) :
  exists r s',
    parse tokenArray st = Returns r s'
    /\ State.tokens s' = tokenArray
    /\ map (fun step => (Step.token step, Step.tokenType step))
         (filter StepLog.isMatch (removelast (Result.steps r)))
       = map (fun t => (value t, type t)) (firstn (State.currentIndex s') tokenArray).
Proof.
  destruct (parse_ends tokenArray st)
    as (r & s' & s & final & Hp & Htok & Htok' & Hidx & Hsteps & _ & _ & Hend).
  exists r, s'. split; [exact Hp|]. split; [exact Htok'|].
  rewrite Hsteps, removelast_last, Hidx.
  destruct (parse_functions_replay (4 * List.length tokenArray + 3)) as (HE & _).
  specialize (HE (State.new tokenArray 0 [] 0 0%Z) eq_refl).
  assert (H : replayed (State.tokens s) (State.currentIndex s) (State.steps s)).
  { destruct Hend as [(tree & Hd & _)|(expected & _ & H1 & H2 & _)].
    - unfold descent in Hd. now rewrite Hd in HE.
    - destruct (list_eq_dec N.eq_dec expected (lit "end of expression")) as [He|He].
      + destruct (H1 He) as (tree & Hd). unfold descent in Hd. now rewrite Hd in HE.
      + destruct (H2 He) as (err & Hd). unfold descent in Hd. now rewrite Hd in HE. }
  rewrite Htok in H. exact H.
Qed.

(** ** The end marker *)

Lemma unread_next T i ty :
  TokenType_eqb (type (token_at T i)) ty = true -> ty <> EOF ->
  i < List.length T -> unread T i -> unread T (S i).
Proof.
  unfold unread. intros Hty Hne Hi H. rewrite (firstn_token_at _ _ Hi).
  apply Forall_app. split; [exact H|]. constructor; [|constructor].
  unfold notEOF. apply TokenType_eqb_eq in Hty. congruence.
Qed.

Ltac unread_ :=
  first [ assumption | exact I
        | eapply unread_next; [eassumption | discriminate | assumption | unread_] ].

Lemma parse_functions_keep_end fuel :
  keeps_end (parseE fuel) /\ keeps_end (parseEPrime fuel)
  /\ keeps_end (parseT fuel) /\ keeps_end (parseTPrime fuel)
  /\ keeps_end (parseF fuel).
Proof.
  induction fuel as [|fuel (IHE & IHE' & IHT & IHT' & IHF)].
  { unfold keeps_end. repeat split; intros s _; exact I. }
  unfold keeps_end in *.
  repeat split; intros [tokens i steps n d] Hs;
    cbn [State.tokens State.currentIndex State.steps] in Hs;
    cbn [parseE parseEPrime parseT parseTPrime parseF].
  all: exec IHE IHE' IHT IHT' IHF ltac:(unread_).
  all: unread_.
Qed.

Lemma unread_before T i k t :
  unread T i -> nth_error T k = Some t -> type t = EOF -> i <= k.
Proof.
  unfold unread. intros H Hk Hty.
  destruct (Nat.le_gt_cases i k) as [Hle|Hgt]; [exact Hle|].
  exfalso.
  assert (Hin : In t (firstn i T)).
  { apply (nth_error_In _ k). rewrite nth_error_firstn.
    replace (k <? i) with true by (symmetry; apply Nat.ltb_lt; lia). exact Hk. }
  exact (proj1 (Forall_forall _ _) H t Hin Hty).
Qed.

Lemma lookahead_before (s : State.t) (k : nat) (t : Token) :
  unread (State.tokens s) (State.currentIndex s) ->
  nth_error (State.tokens s) k = Some t -> type t = EOF ->
  exists j t',
    j <= k /\ j = State.currentIndex s
    /\ nth_error (State.tokens s) j = Some t' /\ lookahead s = t'.
Proof.
  intros H Hk Hty. pose proof (unread_before _ _ _ _ H Hk Hty) as Hle.
  assert (Hlt : State.currentIndex s < List.length (State.tokens s)).
  { assert (k < List.length (State.tokens s)) by (apply nth_error_Some; congruence).
    lia. }
  unfold lookahead.
  destruct (nth_error (State.tokens s) (State.currentIndex s)) as [t'|] eqn:Ht'.
  - exists (State.currentIndex s), t'. auto.
  - apply nth_error_None in Ht'. lia.
Qed.

Lemma parse_unread (tokenArray : list Token) (st : State.t) :
  exists r s' s,
    parse tokenArray st = Returns r s'
    /\ State.tokens s = tokenArray
    /\ State.currentIndex s' = State.currentIndex s
    /\ unread (State.tokens s) (State.currentIndex s)
    /\ forall p, Result.errorPos r = Some p -> p = pos (lookahead s).
Proof.
  destruct (parse_ends tokenArray st)
    as (r & s' & s & final & Hp & Htok & Htok' & Hidx & _ & _ & _ & Hend).
  destruct (parse_functions_keep_end (4 * List.length tokenArray + 3)) as (HE & _).
  specialize (HE (State.new tokenArray 0 [] 0 0%Z)).
  cbn [State.tokens State.currentIndex firstn] in HE.
  specialize (HE ltac:(constructor)).
  assert (H : unread (State.tokens s) (State.currentIndex s)).
  { destruct Hend as [(tree & Hd & _)|(expected & _ & H1 & H2 & _)].
    - unfold descent in Hd. now rewrite Hd in HE.
    - destruct (list_eq_dec N.eq_dec expected (lit "end of expression")) as [He|He].
      + destruct (H1 He) as (tree & Hd). unfold descent in Hd. now rewrite Hd in HE.
      + destruct (H2 He) as (err & Hd). unfold descent in Hd. now rewrite Hd in HE. }
  exists r, s', s. repeat split; auto.
  intros p Hpos.
  destruct Hend as [(tree & _ & _ & _ & _ & Hnone & _)|(expected & _ & _ & _ & _ & _ & Hsome & _)];
    congruence.
Qed.

(** X14: The parser never reads past an [EOF] token: when the array holds a token
    of type [EOF] at index [k], the index is at [k] or before when [parse]
    returns, and an error position it reports is the position of a token of
    the array at index [k] or before, never the -1 of the stand-in. *)
Theorem parse_stops_at_EOF (tokenArray : list Token) (st : State.t)
  (k : nat) (t : Token) :
  nth_error tokenArray k = Some t -> type t = EOF ->
  exists r s',
    parse tokenArray st = Returns r s'
    /\ State.currentIndex s' <= k
    /\ forall p, Result.errorPos r = Some p ->
       exists j t', j <= k /\ nth_error tokenArray j = Some t' /\ pos t' = p.
Proof.
  intros Hk Hty.
  destruct (parse_unread tokenArray st) as (r & s' & s & Hp & Htok & Hidx & H & Hpos).
  rewrite <- Htok in Hk.
  destruct (lookahead_before s k t H Hk Hty) as (j & t' & Hle & Hj & Ht' & Hla).
  exists r, s'. split; [exact Hp|]. split; [lia|].
  intros p Hp'. exists j, t'. rewrite <- Htok. repeat split; auto.
  rewrite (Hpos p Hp'). now rewrite Hla.
Qed.

Lemma parse_stops_at_EOF_witness :
  exists r s',
    parse tokens_3_plus fresh_state = Returns r s'
    /\ State.currentIndex s' <= 2
    /\ forall p, Result.errorPos r = Some p ->
       exists j t', j <= 2 /\ nth_error tokens_3_plus j = Some t' /\ pos t' = p.
Proof.
  apply (parse_stops_at_EOF tokens_3_plus fresh_state 2 (tok EOF "EOF" 2 2));
    reflexivity.
Defined.

(** ** The closing step in [StepLog] *)

(** X15: [StepLog] marks the closing step of a log: after a success it is a
    success step and not an error step, and gets the icon of success; after a
    failure it is an error step, and gets the icon of an error unless the
    message contains the word [successfully]. *)
Theorem StepLog_closing_step (tokenArray : list Token) (st : State.t) :
  exists r s' final,
    parse tokenArray st = Returns r s'
    /\ last (Result.steps r) final = final
    /\ Result.steps r <> []
    /\ (Result.error r = None ->
        StepLog.isSuccess final = true /\ StepLog.isError final = false
        /\ StepLog.actionIcon final = StepLog.icon_party)
    /\ (Result.error r <> None ->
        StepLog.isError final = true
        /\ (StepLog.isSuccess final = false ->
            StepLog.actionIcon final = StepLog.icon_cross)).
Proof.
  destruct (parse_ends tokenArray st)
    as (r & s' & s & final & Hp & _ & _ & _ & Hsteps & _ & _ & Hend).
  exists r, s', final. split; [exact Hp|].
  split. { rewrite Hsteps. apply last_last. }
  split. { rewrite Hsteps. intros H. apply app_eq_nil in H as [_ H]. discriminate. }
  destruct Hend as [(tree & _ & _ & _ & Herr & _ & _ & Hact)
                   |(expected & _ & _ & _ & _ & Herr & _ & _ & Hact)].
  - split; [|congruence]. intros _.
    unfold StepLog.actionIcon, StepLog.isSuccess, StepLog.isError, StepLog.isMatch,
      StepLog.isEpsilon, StepLog.isEnter, StepLog.isExit.
    rewrite Hact. repeat split; reflexivity.
  - split; [congruence|]. intros _.
    assert (He : StepLog.isError final = true).
    { unfold StepLog.isError. rewrite Hact. unfold syntaxError. cbn [ParseError.message].
      match goal with
      | |- str_includes (lit "Syntax Error" ++ ?rest) _ = true =>
          change (lit "Syntax Error" ++ rest)
            with (lit "Syntax " ++ lit "Error" ++ rest)
      end.
      apply str_includes_app. }
    split; [exact He|]. intros Hs.
    unfold StepLog.actionIcon. now rewrite He, Hs.
Qed.

Lemma StepLog_closing_step_witness :
  exists r s' final,
    parse tokens_3_plus fresh_state = Returns r s'
    /\ last (Result.steps r) final = final
    /\ StepLog.isError final = true.
Proof.
  destruct (StepLog_closing_step tokens_3_plus fresh_state)
    as (r & s' & final & Hp & Hlast & _ & _ & Hfail).
  assert (Herr : Result.error r <> None).
  { vm_compute in Hp. injection Hp as <- _. discriminate. }
  exists r, s', final. split; [exact Hp|]. split; [exact Hlast|].
  exact (proj1 (Hfail Herr)).
Defined.

(** * Depths, edges and extent of a layout *)

(** ** [assignDepth] *)

Lemma assignDepth_leveled : forall node d, Leveled d (assignDepth node d).
Proof.
  induction node as [label kids id dep x IH] using Node_induction; intros d.
  cbn [assignDepth]. constructor.
  induction IH as [|c cs Hc _ IHcs]; simpl; constructor; auto.
Qed.

Lemma Leveled_at_least : forall node d, Leveled d node -> Forall (at_least d) (preorder node).
Proof.
  induction node as [label kids id dep x IH] using Node_induction; intros d H.
  inversion H as [d' l c i x' Hkids]; subst.
  cbn [preorder]. constructor.
  { exists d. split; [reflexivity|lia]. }
  clear H. induction Hkids as [|c cs Hc _ IHcs]; simpl; [constructor|].
  inversion IH as [|? ? IHc IHrest]; subst.
  apply Forall_app. split.
  - eapply Forall_impl; [|exact (IHc _ Hc)].
    intros m (e & He & Hle). exists e. split; [exact He|lia].
  - apply IHcs. exact IHrest.
Qed.

(** In a tree that holds its depths a child is one level below its
    parent. *)
Lemma Leveled_children : forall node d,
  Leveled d node ->
  forall parent child,
    In parent (preorder node) -> In child (children parent) ->
    exists e, _depth parent = Some e /\ _depth child = Some (e + 1)%Z.
Proof.
  induction node as [label kids id dep x IH] using Node_induction; intros d H parent child Hp Hc.
  inversion H as [d' l c i x' Hkids]; subst.
  cbn [preorder] in Hp. destruct Hp as [<-|Hp].
  - cbn [children] in Hc. exists d. split; [reflexivity|].
    pose proof (proj1 (Forall_forall _ _) Hkids child Hc) as Hl.
    inversion Hl; subst. reflexivity.
  - apply in_flat_map in Hp as (kid & Hkid & Hp).
    pose proof (proj1 (Forall_forall _ _) IH kid Hkid) as IHkid.
    pose proof (proj1 (Forall_forall _ _) Hkids kid Hkid) as Hl.
    exact (IHkid _ Hl parent child Hp Hc).
Qed.

(** ** [assignX] on a tree that holds its depths *)

Lemma FOP_app {A} (R : A -> A -> Prop) l1 l2 :
  ForallOrdPairs R l1 -> ForallOrdPairs R l2 ->
  (forall a b, In a l1 -> In b l2 -> R a b) ->
  ForallOrdPairs R (l1 ++ l2).
Proof.
  induction 1 as [|a l Ha Hl IH]; intros H2 H12; simpl; [exact H2|].
  constructor.
  - apply Forall_app. split; [exact Ha|].
    apply Forall_forall. intros b Hb. apply H12; [now left|exact Hb].
  - apply IH; [exact H2|]. intros x y Hx Hy. apply H12; [now right|exact Hy].
Qed.

Lemma between_widen lo hi lo' hi' node :
  (lo' <= lo)%Q -> (hi <= hi')%Q -> between lo hi node -> between lo' hi' node.
Proof.
  intros H1 H2 (q & Hq & Ha & Hb). exists q. split; [exact Hq|]. split; lra.
Qed.

Lemma assignX_children_arranged d kids :
  Forall (fun c => forall n, Leveled d c -> arranged d n (assignX c n)) kids ->
  Forall (Leveled d) kids ->
  forall n, arranged_all d n (assignX_children assignX kids n).
Proof.
  induction 1 as [|c cs Hc _ IH]; intros Hlev n.
  - simpl. constructor; simpl; try constructor. lra.
  - inversion Hlev as [|? ? Hlc Hlcs]; subst.
    simpl. specialize (Hc n Hlc). destruct (assignX c n) as [c' n1] eqn:Ec.
    specialize (IH Hlcs n1). destruct (assignX_children assignX cs n1) as [cs' n2] eqn:Ecs.
    destruct Hc as [c1 c2 c3 c4 c5]. destruct IH as [a1 a2 a3 a4 a5].
    cbn [fst snd] in *. unfold NODE_WIDTH, MIN_SIBLING_SEP in c3.
    constructor; cbn [fst snd flat_map].
    + constructor; assumption.
    + apply Forall_app. split; assumption.
    + lra.
    + apply Forall_app. split.
      * eapply Forall_impl; [|exact c4]. intros m. apply between_widen; lra.
      * eapply Forall_impl; [|exact a4]. intros m. apply between_widen; lra.
    + apply FOP_app; [exact c5|exact a5|].
      intros a b Ha Hb _.
      pose proof (proj1 (Forall_forall _ _) c4 a Ha) as (qa & Hqa & _ & Hhi).
      pose proof (proj1 (Forall_forall _ _) a4 b Hb) as (qb & Hqb & Hlo & _).
      exists qa, qb. split; [exact Hqa|]. split; [exact Hqb|]. lra.
Qed.

Lemma assignX_arranged : forall node d n,
  Leveled d node -> arranged d n (assignX node n).
Proof.
  induction node as [label kids id dep x IH] using Node_induction; intros d n Hlev.
  inversion Hlev as [d' l c i x' Hkids]; subst.
  destruct kids as [|c cs].
  - simpl. constructor; cbn [fst snd preorder flat_map].
    + constructor. constructor.
    + constructor; [|constructor]. exists d. split; [reflexivity|lia].
    + lra.
    + constructor; [|constructor]. exists n. split; [reflexivity|]. split; lra.
    + constructor; [constructor|constructor].
  - assert (IH' : Forall (fun c => forall n, Leveled (d + 1) c ->
                                   arranged (d + 1) n (assignX c n)) (c :: cs)).
    { eapply Forall_impl; [|exact IH]. intros k Hk m. apply Hk. }
    pose proof (assignX_children_arranged _ _ IH' Hkids n) as Hall.
    assert (Hpl : placed_all n (c :: cs) (assignX_children assignX (c :: cs) n)).
    { apply assignX_children_placed. apply Forall_forall.
      intros k _. exact (assignX_placed k). }
    cbn [assignX].
    destruct (assignX_children assignX (c :: cs) n) as [cs' n'] eqn:Ecs.
    destruct Hall as [a1 a2 a3 a4 a5]. cbn [fst snd] in a1, a2, a3, a4, a5.
    destruct Hpl as [p1 _ _ _ p5 _ _ _ _]. cbn [fst] in p1, p5.
    destruct cs' as [|first rest]; [discriminate p1|].
    rewrite nth_error_last. cbn [nth_error].
    assert (Hfirst : between n n' first).
    { apply (proj1 (Forall_forall _ _) a4). cbn [flat_map]. apply in_or_app. left.
      destruct (preorder_head first) as (r0 & ->). now left. }
    assert (Hlast : between n n' (last rest first)).
    { apply (proj1 (Forall_forall _ _) a4).
      assert (Hin : In (last rest first) (first :: rest)).
      { destruct rest as [|b rest]; [now left|].
        right. destruct (@exists_last _ (b :: rest) ltac:(discriminate)) as (l0 & z & E).
        rewrite E, last_last. apply in_or_app. right. now left. }
      apply in_flat_map. exists (last rest first). split; [exact Hin|].
      destruct (preorder_head (last rest first)) as (r0 & ->). now left. }
    destruct Hfirst as (xf & Hxf & Hf1 & Hf2). destruct Hlast as (xl & Hxl & Hl1 & Hl2).
    rewrite Hxf, Hxl. cbn [num_add num_div num].
    unfold NODE_WIDTH, MIN_SIBLING_SEP in Hf1, Hf2, Hl1, Hl2.
    constructor; cbn [fst snd preorder].
    + constructor. exact a1.
    + constructor.
      * exists d. split; [reflexivity|lia].
      * eapply Forall_impl; [|exact a2]. intros m (e & He & Hle). exists e. split; [exact He|lia].
    + unfold NODE_WIDTH, MIN_SIBLING_SEP. lra.
    + constructor; [|exact a4].
      exists ((xf + xl) / 2)%Q. split; [reflexivity|].
      assert (E : ((xf + xl) / 2 == (xf + xl) * (1 # 2))%Q) by field.
      rewrite E. unfold NODE_WIDTH, MIN_SIBLING_SEP. split; lra.
    + constructor; [|exact a5].
      apply Forall_forall. intros m Hm Heq. exfalso.
      pose proof (proj1 (Forall_forall _ _) a2 m Hm) as (e & He & Hle).
      cbn [_depth] in Heq. rewrite He in Heq. injection Heq as Heq. lia.
Qed.

(** ** [collect] *)

Lemma collect_children_edges nid px py kids :
  Forall (fun c => forall acc,
              c_edges (collect c acc) = c_edges acc ++ tree_edges c) kids ->
  forall acc,
    c_edges (collect_children collect nid px py kids acc) =
    c_edges acc ++ child_edges tree_edges nid (mkPoint px (num_add py (num 18))) kids.
Proof.
  induction 1 as [|c cs Hc _ IH]; intros acc; simpl.
  - now rewrite app_nil_r.
  - rewrite IH, Hc. cbn [c_edges]. now rewrite <- !app_assoc.
Qed.

Lemma collect_edges : forall node acc,
  c_edges (collect node acc) = c_edges acc ++ tree_edges node.
Proof.
  induction node as [label kids id dep x IH] using Node_induction; intros acc.
  cbn [collect tree_edges]. now rewrite (collect_children_edges _ _ _ _ IH).
Qed.

Lemma collect_children_maxX nid px py kids :
  Forall (fun c => forall acc,
              maxX (collect c acc) =
              fold_left raise (map (fun n => x (layoutNode n)) (preorder c)) (maxX acc))
    kids ->
  forall acc,
    maxX (collect_children collect nid px py kids acc) =
    fold_left raise (map (fun n => x (layoutNode n)) (flat_map preorder kids)) (maxX acc).
Proof.
  induction 1 as [|c cs Hc _ IH]; intros acc; simpl; [reflexivity|].
  rewrite IH, Hc. cbn [maxX]. now rewrite map_app, fold_left_app.
Qed.

Lemma collect_maxX : forall node acc,
  maxX (collect node acc) =
  fold_left raise (map (fun n => x (layoutNode n)) (preorder node)) (maxX acc).
Proof.
  induction node as [label kids id dep x IH] using Node_induction; intros acc.
  cbn [collect preorder map fold_left].
  now rewrite (collect_children_maxX _ _ _ _ IH).
Qed.

Lemma collect_children_maxDepth nid px py kids :
  Forall (fun c => forall acc,
              maxDepth (collect c acc) =
              fold_left raise_depth (map _depth (preorder c)) (maxDepth acc))
    kids ->
  forall acc,
    maxDepth (collect_children collect nid px py kids acc) =
    fold_left raise_depth (map _depth (flat_map preorder kids)) (maxDepth acc).
Proof.
  induction 1 as [|c cs Hc _ IH]; intros acc; simpl; [reflexivity|].
  rewrite IH, Hc. cbn [maxDepth]. now rewrite map_app, fold_left_app.
Qed.

Lemma collect_maxDepth : forall node acc,
  maxDepth (collect node acc) =
  fold_left raise_depth (map _depth (preorder node)) (maxDepth acc).
Proof.
  induction node as [label kids id dep x IH] using Node_induction; intros acc.
  cbn [collect preorder map fold_left].
  now rewrite (collect_children_maxDepth _ _ _ _ IH).
Qed.

(** The largest of the values met. *)
Lemma raise_largest l :
  Forall (fun v => exists q, v = Some q) l ->
  forall m,
    exists r,
      fold_left raise l (Some m) = Some r /\ (m <= r)%Q
      /\ Forall (fun v => exists q, v = Some q /\ (q <= r)%Q) l
      /\ (r = m \/ In (Some r) l).
Proof.
  induction 1 as [|v l (q & ->) _ IH]; intros m; simpl.
  - exists m. repeat split; auto. lra.
  - unfold raise at 2. cbn [num_gt].
    destruct (q ?= m)%Q eqn:Hc.
    + apply Qeq_alt in Hc. destruct (IH m) as (r & Hr & Hm & Hall & Hin).
      exists r. repeat split; auto.
      * constructor; [|exact Hall]. exists q. split; [reflexivity|lra].
      * destruct Hin; auto.
    + apply Qlt_alt in Hc. destruct (IH m) as (r & Hr & Hm & Hall & Hin).
      exists r. repeat split; auto.
      * constructor; [|exact Hall]. exists q. split; [reflexivity|lra].
      * destruct Hin; auto.
    + apply Qgt_alt in Hc. destruct (IH q) as (r & Hr & Hm & Hall & Hin).
      exists r. repeat split; auto.
      * lra.
      * constructor; [|exact Hall]. exists q. split; [reflexivity|lra].
      * destruct Hin as [->|Hin]; auto.
Qed.

Lemma raise_depth_largest l :
  Forall (fun v => exists e, v = Some e) l ->
  forall m,
    exists r,
      fold_left raise_depth l (Some m) = Some r /\ (m <= r)%Z
      /\ Forall (fun v => exists e, v = Some e /\ (e <= r)%Z) l
      /\ (r = m \/ In (Some r) l).
Proof.
  induction 1 as [|v l (e & ->) _ IH]; intros m; simpl.
  - exists m. repeat split; auto. lia.
  - unfold raise_depth at 2. cbn [Z_gt].
    destruct (e >? m)%Z eqn:Hc.
    + apply Z.gtb_lt in Hc. destruct (IH e) as (r & Hr & Hm & Hall & Hin).
      exists r. repeat split; auto.
      * lia.
      * constructor; [|exact Hall]. exists e. split; [reflexivity|lia].
      * destruct Hin as [->|Hin]; auto.
    + assert (e <= m)%Z by (rewrite Z.gtb_ltb in Hc; apply Z.ltb_ge in Hc; exact Hc).
      destruct (IH m) as (r & Hr & Hm & Hall & Hin).
      exists r. repeat split; auto.
      * constructor; [|exact Hall]. exists e. split; [reflexivity|lia].
      * destruct Hin; auto.
Qed.

(** ** A call on a tree *)

(** The tree a call leaves, with what [assignDepth], [assignX] and [collect]
    made of it. *)
Lemma computeTreeLayout_arranged root :
  exists layout t' n',
    computeTreeLayout (Some root) = (layout, Some t')
    /\ arranged 0 0 (t', n')
    /\ erase t' = erase root
    /\ nodes layout = map layoutNode (preorder t')
    /\ edges layout = tree_edges t'
    /\ width layout =
       num_add (num_add (fold_left raise (map (fun n => x (layoutNode n)) (preorder t'))
                           (num 0)) (num NODE_WIDTH)) (num 40)
    /\ height layout =
       num_add (num_mul (num_add (num_of_Z (fold_left raise_depth
                                              (map _depth (preorder t')) (Some 0%Z)))
                           (num 1)) (num LEVEL_HEIGHT)) (num 60).
Proof.
  unfold computeTreeLayout.
  pose proof (assignX_arranged _ _ 0%Q (assignDepth_leveled root 0)) as Harr.
  pose proof (assignX_placed (assignDepth root 0) 0) as Hpl.
  destruct (assignX (assignDepth root 0) 0) as [t' n'] eqn:E.
  exists (mkLayout (c_nodes (collect t' (mkCollected [] [] (num 0) (Some 0%Z))))
            (c_edges (collect t' (mkCollected [] [] (num 0) (Some 0%Z))))
            (num_add (num_add (maxX (collect t' (mkCollected [] [] (num 0) (Some 0%Z))))
                        (num NODE_WIDTH)) (num 40))
            (num_add
               (num_mul (num_add (num_of_Z (maxDepth (collect t' (mkCollected [] []
                                                       (num 0) (Some 0%Z)))))
                           (num 1)) (num LEVEL_HEIGHT)) (num 60))), t', n'.
  split; [reflexivity|]. split; [exact Harr|].
  split. { destruct Hpl as [He _ _ _ _ _ _]. cbn [fst] in He.
           now rewrite assignDepth_erase in He. }
  cbn [nodes edges width height].
  rewrite collect_nodes, collect_edges, collect_maxX, collect_maxDepth.
  repeat split; reflexivity.
Qed.

Lemma preorder_erase : forall node, preorder (erase node) = map erase (preorder node).
Proof.
  induction node as [label kids id dep x IH] using Node_induction.
  cbn [erase preorder map]. f_equal.
  induction IH as [|c cs Hc _ IHcs]; simpl; [reflexivity|].
  now rewrite map_app, Hc, IHcs.
Qed.

Lemma preorder_same (f : Node -> jsstring * nat * bool) a b :
  (forall n, f (erase n) = f n) -> erase a = erase b ->
  map f (preorder a) = map f (preorder b).
Proof.
  intros Hf He.
  assert (H : forall n, map f (preorder n) = map f (preorder (erase n))).
  { intros n. rewrite preorder_erase, map_map. apply map_ext. intros m. now rewrite Hf. }
  now rewrite (H a), (H b), He.
Qed.

Lemma children_in_preorder : forall node parent child,
  In parent (preorder node) -> In child (children parent) -> In child (preorder node).
Proof.
  induction node as [label kids id dep x IH] using Node_induction; intros parent child Hp Hc.
  cbn [preorder] in *. right. destruct Hp as [<-|Hp].
  - cbn [children] in Hc. apply in_flat_map. exists child. split; [exact Hc|].
    destruct (preorder_head child) as (r & ->). now left.
  - apply in_flat_map in Hp as (kid & Hkid & Hp). apply in_flat_map. exists kid.
    split; [exact Hkid|].
    exact (proj1 (Forall_forall _ _) IH kid Hkid parent child Hp Hc).
Qed.

Lemma tree_edges_toId : forall node,
  map toId (tree_edges node) = map id (flat_map preorder (children node)).
Proof.
  induction node as [label kids nid dep x IH] using Node_induction.
  cbn [tree_edges children].
  induction IH as [|c cs Hc _ IHcs]; simpl; [reflexivity|].
  rewrite !map_app, IHcs, Hc. destruct c as [l k i d0 x0]. reflexivity.
Qed.

Lemma tree_edges_in : forall node e,
  In e (tree_edges node) ->
  exists parent child,
    In parent (preorder node) /\ In child (children parent) /\ e = edge_of parent child.
Proof.
  induction node as [label kids nid dep x IH] using Node_induction; intros e He.
  cbn [tree_edges] in He.
  assert (Hgen : forall l,
             Forall (fun c => forall e, In e (tree_edges c) ->
                       exists parent child,
                         In parent (preorder c) /\ In child (children parent)
                         /\ e = edge_of parent child) l ->
             In e (child_edges tree_edges nid
                     (mkPoint (num_add x half_width) (num_add (y_of dep) (num 18))) l) ->
             (exists child, In child l
                            /\ e = edge_of (mkNode label kids nid dep x) child)
             \/ (exists kid parent child,
                    In kid l /\ In parent (preorder kid) /\ In child (children parent)
                    /\ e = edge_of parent child)).
  { induction 1 as [|c cs Hc _ IHcs]; simpl; [contradiction|].
    intros [<-|Hin].
    - left. exists c. split; [now left|reflexivity].
    - apply in_app_or in Hin as [Hin|Hin].
      + right. destruct (Hc _ Hin) as (p & ch & H1 & H2 & H3).
        exists c, p, ch. repeat split; auto.
      + destruct (IHcs Hin) as [(ch & H1 & H2)|(kid & p & ch & H1 & H2 & H3 & H4)].
        * left. exists ch. split; [now right|exact H2].
        * right. exists kid, p, ch. repeat split; auto. }
  destruct (Hgen kids IH He) as [(ch & H1 & H2)|(kid & p & ch & H1 & H2 & H3 & H4)].
  - exists (mkNode label kids nid dep x), ch. split; [now left|]. split; [exact H1|exact H2].
  - exists p, ch. split; [|split; assumption].
    cbn [preorder]. right. apply in_flat_map. exists kid. split; assumption.
Qed.

Lemma FOP_nth {A} (R : A -> A -> Prop) l :
  ForallOrdPairs R l ->
  forall i j a b, i < j -> nth_error l i = Some a -> nth_error l j = Some b -> R a b.
Proof.
  induction 1 as [|x l Hx _ IH]; intros i j a b Hij Ha Hb.
  - destruct i; discriminate.
  - destruct j as [|j]; [lia|]. destruct i as [|i]; simpl in *.
    + injection Ha as <-. exact (proj1 (Forall_forall _ _) Hx b (nth_error_In _ _ Hb)).
    + apply (IH i j); [lia|assumption|assumption].
Qed.

(** X16: The root of the tree is at depth 0 and each child one level below its
    parent; in the layout every node carries its depth, and its [y] is
    [depth * LEVEL_HEIGHT + NODE_HEIGHT / 2 + 20]. *)
Theorem layout_levels (root : Node) :
  exists layout t',
    computeTreeLayout (Some root) = (layout, Some t')
    /\ _depth t' = Some 0%Z
    /\ (forall parent child,
          In parent (preorder t') -> In child (children parent) ->
          exists e, _depth parent = Some e /\ _depth child = Some (e + 1)%Z)
    /\ (forall n, In n (nodes layout) ->
        exists e yq,
          depth n = Some e /\ (0 <= e)%Z /\ y n = Some yq
          /\ (yq == inject_Z e * LEVEL_HEIGHT + NODE_HEIGHT / 2 + 20)%Q).
Proof.
  destruct (computeTreeLayout_arranged root)
    as (layout & t' & n' & Hc & Harr & _ & Hn & _).
  destruct Harr as [Hlev Hdep _ _ _]. cbn [fst] in Hlev, Hdep.
  exists layout, t'. split; [exact Hc|]. split.
  { inversion Hlev; subst. reflexivity. }
  split; [exact (Leveled_children _ _ Hlev)|].
  intros n Hin. rewrite Hn in Hin. apply in_map_iff in Hin as (node & <- & Hin).
  pose proof (proj1 (Forall_forall _ _) Hdep node Hin) as (e & He & Hle).
  exists e. eexists. cbn [layoutNode depth y]. rewrite He.
  split; [reflexivity|]. split; [exact Hle|]. split; [reflexivity|]. reflexivity.
Qed.

Lemma layout_levels_witness :
  exists layout t',
    computeTreeLayout (Some tree_F_3) = (layout, Some t')
    /\ map depth (nodes layout) = [Some 0%Z; Some 1%Z].
Proof.
  destruct (layout_levels tree_F_3) as (layout & t' & Hc & _).
  exists layout, t'. split; [exact Hc|].
  vm_compute in Hc. injection Hc as <- _. reflexivity.
Defined.

(** X17: The layout has one node for each node of the tree, in the order parent
    first, then the children from left to right, with the id and the label
    of the tree node; it is a leaf when the tree node has no children. *)
Theorem layout_nodes_follow_tree (root : Node) :
  exists layout t',
    computeTreeLayout (Some root) = (layout, Some t')
    /\ map (fun n => (llabel n, lid n, isLeaf n)) (nodes layout) =
       map (fun node => (label node, id node,
                         match children node with [] => true | _ :: _ => false end))
         (preorder root).
Proof.
  destruct (computeTreeLayout_arranged root)
    as (layout & t' & n' & Hc & _ & He & Hn & _).
  exists layout, t'. split; [exact Hc|].
  rewrite Hn, map_map. cbn [layoutNode llabel lid isLeaf].
  apply preorder_same; [|exact He].
  intros [l k i d0 x0]. cbn [erase label id children]. destruct k; reflexivity.
Qed.

(** X18: The edges of the layout are the edges of the tree.  There is one edge
    into every node but the root: the edges, in order, lead to the second,
    third, ... node of the layout.  An edge joins a parent to one of its
    children, one level below; it leaves the parent 18 below its centre and
    reaches the child 18 above its centre. *)
Theorem layout_edges_form_tree (root : Node) :
  exists layout t',
    computeTreeLayout (Some root) = (layout, Some t')
    /\ List.length (edges layout) + 1 = List.length (nodes layout)
    /\ map toId (edges layout) = tl (map lid (nodes layout))
    /\ (forall e, In e (edges layout) ->
        exists parent child d,
          In parent (nodes layout) /\ In child (nodes layout)
          /\ fromId e = lid parent /\ toId e = lid child
          /\ depth parent = Some d /\ depth child = Some (d + 1)%Z
          /\ from e = mkPoint (x parent) (num_add (y parent) (num 18))
          /\ to e = mkPoint (x child) (num_sub (y child) (num 18))).
Proof.
  destruct (computeTreeLayout_arranged root)
    as (layout & t' & n' & Hc & Harr & _ & Hn & He & _).
  destruct Harr as [Hlev _ _ _ _]. cbn [fst] in Hlev.
  exists layout, t'. split; [exact Hc|].
  assert (Hto : map toId (edges layout) = tl (map lid (nodes layout))).
  { rewrite He, Hn, tree_edges_toId, map_map.
    destruct t' as [l k i d0 x0]. reflexivity. }
  split.
  { rewrite <- (length_map toId), Hto.
    rewrite Hn. destruct (preorder_head t') as (r & ->). simpl.
    rewrite !length_map. lia. }
  split; [exact Hto|].
  intros e Hin. rewrite He in Hin.
  destruct (tree_edges_in _ _ Hin) as (parent & child & Hp & Hch & ->).
  destruct (Leveled_children _ _ Hlev _ _ Hp Hch) as (d & Hd1 & Hd2).
  exists (layoutNode parent), (layoutNode child), d. rewrite Hn.
  split; [now apply in_map|].
  split; [apply in_map; exact (children_in_preorder _ _ _ Hp Hch)|].
  cbn [edge_of fromId toId from to layoutNode lid depth x y].
  repeat split; assumption.
Qed.

Lemma layout_edges_form_tree_witness :
  exists layout t',
    computeTreeLayout (Some tree_F_3) = (layout, Some t')
    /\ map (fun e => (fromId e, toId e)) (edges layout) = [(1, 0)].
Proof.
  destruct (layout_edges_form_tree tree_F_3) as (layout & t' & Hc & _).
  exists layout, t'. split; [exact Hc|].
  vm_compute in Hc. injection Hc as <- _. reflexivity.
Defined.

Lemma computeTreeLayout_maxima (root : Node) :
  exists layout t' rx rd,
    computeTreeLayout (Some root) = (layout, Some t')
    /\ nodes layout = map layoutNode (preorder t')
    /\ width layout = Some (rx + NODE_WIDTH + 40)%Q
    /\ height layout = Some ((inject_Z rd + 1) * LEVEL_HEIGHT + 60)%Q
    /\ (forall node, In node (preorder t') ->
        exists q e,
          _x node = Some q /\ _depth node = Some e
          /\ (0 <= q)%Q /\ (q + NODE_WIDTH / 2 <= rx)%Q
          /\ (0 <= e)%Z /\ (e <= rd)%Z)
    /\ (rx = 0%Q
        \/ In (Some rx) (map (fun n => x (layoutNode n)) (preorder t')))
    /\ (rd = 0%Z \/ In (Some rd) (map _depth (preorder t'))).
Proof.
  destruct (computeTreeLayout_arranged root)
    as (layout & t' & n' & Hc & Harr & _ & Hn & _ & Hw & Hh).
  destruct Harr as [_ Hdep _ Hbet _]. cbn [fst snd] in Hdep, Hbet.
  assert (Hxs : Forall (fun v => exists q, v = Some q)
                  (map (fun n => x (layoutNode n)) (preorder t'))).
  { apply Forall_forall. intros v Hv. apply in_map_iff in Hv as (node & <- & Hin).
    pose proof (proj1 (Forall_forall _ _) Hbet node Hin) as (q & Hq & _).
    cbn [layoutNode x]. rewrite Hq. eexists. reflexivity. }
  assert (Hds : Forall (fun v => exists e, v = Some e) (map _depth (preorder t'))).
  { apply Forall_forall. intros v Hv. apply in_map_iff in Hv as (node & <- & Hin).
    pose proof (proj1 (Forall_forall _ _) Hdep node Hin) as (e & He & _).
    exists e. exact He. }
  destruct (raise_largest _ Hxs 0%Q) as (rx & Hrx & Hrx0 & Hrxall & Hrxin).
  destruct (raise_depth_largest _ Hds 0%Z) as (rd & Hrd & Hrd0 & Hrdall & Hrdin).
  unfold num in Hw. rewrite Hrx in Hw. rewrite Hrd in Hh.
  cbn [num_add num_mul num_of_Z option_map num] in Hw, Hh.
  exists layout, t', rx, rd.
  split; [exact Hc|]. split; [exact Hn|]. split; [exact Hw|]. split; [exact Hh|].
  split; [|split; assumption].
  intros node Hin.
  pose proof (proj1 (Forall_forall _ _) Hbet node Hin) as (q & Hq & Hq0 & _).
  pose proof (proj1 (Forall_forall _ _) Hdep node Hin) as (e & He & He0).
  exists q, e. repeat split; auto.
  - assert (Hv : In (x (layoutNode node))
                   (map (fun n => x (layoutNode n)) (preorder t')))
      by (apply (in_map (fun n => x (layoutNode n))); exact Hin).
    pose proof (proj1 (Forall_forall _ _) Hrxall _ Hv) as (q' & Hq' & Hle).
    cbn [layoutNode x] in Hq'. rewrite Hq in Hq'. cbn [num_add half_width num] in Hq'.
    injection Hq' as <-. exact Hle.
  - assert (Hv : In (_depth node) (map _depth (preorder t')))
      by (apply in_map; exact Hin).
    pose proof (proj1 (Forall_forall _ _) Hrdall _ Hv) as (e' & He' & Hle).
    rewrite He in He'. injection He' as <-. exact Hle.
Qed.

Lemma layoutNode_inside (node : Node) (q rx : Q) (e rd : Z) :
  _x node = Some q -> _depth node = Some e ->
  (0 <= q)%Q -> (q + NODE_WIDTH / 2 <= rx)%Q -> (0 <= e)%Z -> (e <= rd)%Z ->
  exists xq yq,
    x (layoutNode node) = Some xq /\ y (layoutNode node) = Some yq
    /\ (NODE_WIDTH / 2 <= xq)%Q /\ (xq + NODE_WIDTH + 40 <= rx + NODE_WIDTH + 40)%Q
    /\ (NODE_HEIGHT / 2 + 20 <= yq)%Q
    /\ (yq + 95 <= (inject_Z rd + 1) * LEVEL_HEIGHT + 60)%Q.
Proof.
  intros Hq He Hq0 Hqr He0 Her.
  do 2 eexists. cbn [layoutNode x y]. rewrite Hq, He.
  cbn [num_add half_width num y_of num_of_Z option_map num_mul].
  split; [reflexivity|]. split; [reflexivity|].
  rewrite Zle_Qle in He0, Her. change (inject_Z 0) with 0%Q in He0.
  unfold NODE_WIDTH, NODE_HEIGHT, LEVEL_HEIGHT in *.
  clear -Hq0 Hqr He0 Her.
  set (qe := inject_Z e) in *. set (qr := inject_Z rd) in *. clearbody qe qr.
  assert (E : (50 / 2 == 25)%Q) by reflexivity. rewrite E.
  split; [lra|]. split; [lra|]. split; lra.
Qed.

(** X19: The extent of the layout: every node has [x] at least [NODE_WIDTH / 2]
    and [y] at least [NODE_HEIGHT / 2 + 20]; [width] is the largest [x] plus
    [NODE_WIDTH + 40], and [height] the largest [y] plus 95, which makes it
    [(largest depth + 1) * LEVEL_HEIGHT + 60]. *)
Theorem layout_extent (root : Node) :
  exists layout t' w h,
    computeTreeLayout (Some root) = (layout, Some t')
    /\ width layout = Some w /\ height layout = Some h
    /\ (forall n, In n (nodes layout) ->
        exists xq yq,
          x n = Some xq /\ y n = Some yq
          /\ (NODE_WIDTH / 2 <= xq)%Q /\ (xq + NODE_WIDTH + 40 <= w)%Q
          /\ (NODE_HEIGHT / 2 + 20 <= yq)%Q /\ (yq + 95 <= h)%Q)
    /\ (exists n xq, In n (nodes layout) /\ x n = Some xq
                     /\ (xq + NODE_WIDTH + 40 == w)%Q)
    /\ (exists n yq, In n (nodes layout) /\ y n = Some yq /\ (yq + 95 == h)%Q).
Proof.
  destruct (computeTreeLayout_maxima root)
    as (layout & t' & rx & rd & Hc & Hn & Hw & Hh & Hnode & Hrxin & Hrdin).
  exists layout, t'. do 2 eexists. split; [exact Hc|].
  split; [exact Hw|]. split; [exact Hh|].
  split; [|split].
  - intros n Hin. rewrite Hn in Hin. apply in_map_iff in Hin as (node & <- & Hin).
    destruct (Hnode node Hin) as (q & e & Hq & He & Hq0 & Hqr & He0 & Her).
    exact (layoutNode_inside node q rx e rd Hq He Hq0 Hqr He0 Her).
  - destruct (preorder_head t') as (rest & Hroot).
    assert (Hin0 : In t' (preorder t')) by (rewrite Hroot; now left).
    destruct (Hnode t' Hin0) as (q & e & Hq & He & Hq0 & Hqr & _).
    destruct Hrxin as [->|Hrxin].
    { exfalso. unfold NODE_WIDTH in Hqr.
      assert (E : (60 / 2 == 30)%Q) by reflexivity. rewrite E in Hqr. lra. }
    apply in_map_iff in Hrxin as (node & Hx & Hin).
    exists (layoutNode node), rx. rewrite Hn.
    split; [now apply in_map|]. split; [exact Hx|]. reflexivity.
  - destruct (preorder_head t') as (rest & Hroot).
    assert (Hin0 : In t' (preorder t')) by (rewrite Hroot; now left).
    assert (Hrd' : In (Some rd) (map _depth (preorder t'))).
    { destruct Hrdin as [->|H]; [|exact H].
      destruct (Hnode t' Hin0) as (q & e & _ & He & _ & _ & He0 & Her).
      replace e with 0%Z in He by lia. rewrite <- He. now apply in_map. }
    apply in_map_iff in Hrd' as (node & Hd & Hin).
    exists (layoutNode node). eexists. rewrite Hn.
    split; [now apply in_map|]. cbn [layoutNode y]. rewrite Hd.
    cbn [y_of num_of_Z option_map num_mul num_add num].
    split; [reflexivity|].
    unfold NODE_HEIGHT, LEVEL_HEIGHT. field.
Qed.

Lemma layout_extent_witness :
  exists layout t',
    computeTreeLayout (Some tree_F_3) = (layout, Some t')
    /\ option_map Qred (width layout) = Some 130%Q
    /\ option_map Qred (height layout) = Some 220%Q.
Proof.
  destruct (layout_extent tree_F_3) as (layout & t' & w & h & Hc & _).
  exists layout, t'. split; [exact Hc|].
  vm_compute in Hc. injection Hc as <- _. split; reflexivity.
Defined.

(** X20: No two nodes of a layout overlap: of two nodes at the same depth, the one
    that comes first in the layout is to the left, and their centres are at
    least [NODE_WIDTH + MIN_SIBLING_SEP] apart. *)
Theorem layout_no_overlap (root : Node) (i j : nat) (a b : LayoutNode) :
  i < j ->
  nth_error (nodes (fst (computeTreeLayout (Some root)))) i = Some a ->
  nth_error (nodes (fst (computeTreeLayout (Some root)))) j = Some b ->
  depth a = depth b ->
  exists xa xb,
    x a = Some xa /\ x b = Some xb
    /\ (xa + (NODE_WIDTH + MIN_SIBLING_SEP) <= xb)%Q.
Proof.
  destruct (computeTreeLayout_arranged root)
    as (layout & t' & n' & Hc & Harr & _ & Hn & _).
  rewrite Hc. cbn [fst]. rewrite Hn.
  destruct Harr as [_ _ _ _ Hclear]. cbn [fst] in Hclear.
  intros Hij Ha Hb Hd.
  rewrite nth_error_map in Ha, Hb.
  destruct (nth_error (preorder t') i) as [na|] eqn:Hna; [|discriminate].
  destruct (nth_error (preorder t') j) as [nb|] eqn:Hnb; [|discriminate].
  injection Ha as <-. injection Hb as <-. cbn [layoutNode depth] in Hd.
  destruct (FOP_nth _ _ Hclear _ _ _ _ Hij Hna Hnb Hd) as (qa & qb & Hqa & Hqb & Hle).
  cbn [layoutNode x]. rewrite Hqa, Hqb. cbn [num_add half_width num].
  do 2 eexists. split; [reflexivity|]. split; [reflexivity|].
  unfold NODE_WIDTH, MIN_SIBLING_SEP in *. lra.
Qed.

Lemma layout_no_overlap_witness :
  exists xa xb,
    x (mkLayoutNode 1 (lit "3") (Some (60 # 2)%Q) (Some (250 # 2)%Q) (Some 1%Z)
         true false false false) = Some xa
    /\ x (mkLayoutNode 2 (lit "4") (Some (220 # 2)%Q) (Some (250 # 2)%Q) (Some 1%Z)
            true false false false) = Some xb
    /\ (xa + (NODE_WIDTH + MIN_SIBLING_SEP) <= xb)%Q.
Proof.
  apply (layout_no_overlap
           (mkNode (lit "X") [mkNode (lit "3") [] 1 None None;
                              mkNode (lit "4") [] 2 None None] 0 None None) 1 2).
  - lia.
  - vm_compute. reflexivity.
  - vm_compute. reflexivity.
  - reflexivity.
Defined.

(** * From the input line to the tree: the hook and the components *)

(** ** [trim] *)

Lemma trimStart_empty s : UseParser.trimStart s = [] <-> forallb isSpace s = true.
Proof.
  induction s as [|c s IH]; simpl; [tauto|].
  destruct (isSpace c); simpl; [exact IH|]. split; discriminate.
Qed.

Lemma trimStart_head s c rest : UseParser.trimStart s = c :: rest -> isSpace c = false.
Proof.
  induction s as [|d s IH]; simpl; [discriminate|].
  destruct (isSpace d) eqn:Hd; [exact IH|]. intros H; injection H as <- _. exact Hd.
Qed.

Lemma trim_empty s : UseParser.trim s = [] <-> forallb isSpace s = true.
Proof.
  unfold UseParser.trim. split.
  - intros H.
    assert (H1 : UseParser.trimStart (rev (UseParser.trimStart s)) = []).
    { destruct (UseParser.trimStart (rev (UseParser.trimStart s))); [reflexivity|].
      simpl in H. apply app_eq_nil in H as [_ H]. discriminate. }
    apply trimStart_empty in H1.
    destruct (UseParser.trimStart s) as [|c rest] eqn:Hs.
    + now apply trimStart_empty.
    + pose proof (trimStart_head _ _ _ Hs) as Hc.
      rewrite forallb_forall in H1. specialize (H1 c).
      rewrite H1 in Hc; [discriminate|]. apply in_rev. rewrite rev_involutive. now left.
  - intros H. apply trimStart_empty in H. rewrite H. reflexivity.
Qed.

(** ** The results of [parse] *)

Lemma parse_result_kinds tokenArray st r s' :
  parse tokenArray st = Returns r s' ->
  (Result.error r = None /\ Result.errorPos r = None
   /\ exists tree, Result.tree r = Some tree)
  \/ (exists msg p,
         Result.error r = Some msg /\ UseParser.truthy (Some msg) = true
         /\ Result.errorPos r = Some p /\ Result.tree r = None).
Proof.
  intros Hp.
  destruct (parse_ends tokenArray st)
    as (r0 & s0 & s & final & Hp0 & _ & _ & _ & _ & _ & _ & Hend).
  rewrite Hp in Hp0. injection Hp0 as <- <-.
  destruct Hend as [(tree & _ & _ & Htree & Herr & Hpos & _)
                   |(expected & _ & _ & _ & Htree & Herr & Hpos & _)].
  - left. eauto.
  - right. do 2 eexists. split; [exact Herr|]. split; [reflexivity|].
    split; [exact Hpos|exact Htree].
Qed.

(** ** The three ways [handleParse] ends *)

Lemma handleParse_cases (h : UseParser.HookState) (st : State.t) :
  (forallb isSpace (UseParser.input h) = true
   /\ UseParser.handleParse h st = Returns (blank_state h) st)
  \/ (forallb isSpace (UseParser.input h) = false
      /\ exists p c,
           nth_error (UseParser.input h) p = Some c /\ beginsNoToken c = true
           /\ tokenize (UseParser.input h) =
              Some (mkResult [] (Some (unexpectedCharacter c p)) (Some p))
           /\ UseParser.handleParse h st = Returns (lexical_error_state h c p) st)
  \/ (forallb isSpace (UseParser.input h) = false
      /\ exists body r s',
           tiles (UseParser.input h) body (List.length (UseParser.input h))
           /\ tokenize (UseParser.input h) =
              Some (mkResult (body ++ [end_token (UseParser.input h)]) None None)
           /\ parse (body ++ [end_token (UseParser.input h)]) st = Returns r s'
           /\ UseParser.handleParse h st =
              Returns (parsed_state h (body ++ [end_token (UseParser.input h)]) r) s').
Proof.
  unfold UseParser.handleParse.
  cbn [UseParser.input UseParser.tokens UseParser.parseTree UseParser.steps
         UseParser.error UseParser.errorPos UseParser.isParsed UseParser.activeStep
         UseParser.isAnimating].
  destruct (UseParser.trim (UseParser.input h)) as [|c0 rest0] eqn:Htrim.
  { left. split; [now apply trim_empty|reflexivity]. }
  assert (Hnb : forallb isSpace (UseParser.input h) = false).
  { destruct (forallb isSpace (UseParser.input h)) eqn:Hb; [|reflexivity].
    apply trim_empty in Hb. congruence. }
  right. cbn [UseParser.truthy negb].
  destruct (tokenize_total (UseParser.input h)) as (tr & Htr). rewrite Htr.
  destruct (tokenize_cases _ _ Htr) as [(_ & body & -> & Ht)|(p & c & Hc & Hbad & ->)].
  - right. split; [exact Hnb|].
    cbn [Tokenizer.tokens Tokenizer.error Tokenizer.errorPos UseParser.truthy].
    fold (end_token (UseParser.input h)).
    destruct (parse_returns (body ++ [end_token (UseParser.input h)]) st) as (r & s' & Hp).
    exists body, r, s'. split; [exact Ht|]. split; [reflexivity|]. split; [exact Hp|].
    unfold bind. rewrite Hp. unfold parsed_state.
    destruct (UseParser.truthy (Result.error r)); reflexivity.
  - left. split; [exact Hnb|]. exists p, c. split; [exact Hc|]. split; [exact Hbad|].
    split; reflexivity.
Qed.

Lemma handleParse_error_or_tree_ends (h : UseParser.HookState) (st : State.t) :
  exists h' st', UseParser.handleParse h st = Returns h' st'.
Proof.
  destruct (handleParse_cases h st)
    as [(_ & ->)|[(_ & p & c & _ & _ & _ & ->)|(_ & body & r & s' & _ & _ & _ & ->)]];
    eauto.
Qed.

(** ** Properties of [handleParse] *)


(** X22: An error position [handleParse] leaves is a position of the input line,
    or the position just after its last character, and comes with an error
    message. *)
Theorem handleParse_error_position (h : UseParser.HookState) (st : State.t) :
  exists h' st',
    UseParser.handleParse h st = Returns h' st'
    /\ forall p,
         UseParser.errorPos h' = Some p ->
         (0 <= p <= Z.of_nat (List.length (UseParser.input h)))%Z
         /\ UseParser.error h' <> None.
Proof.
  destruct (handleParse_cases h st)
    as [(_ & ->)|[(_ & p & c & Hc & _ & _ & ->)|(_ & body & r & s' & Ht & _ & Hp & ->)]].
  - do 2 eexists. split; [reflexivity|]. intros p H. discriminate H.
  - do 2 eexists. split; [reflexivity|]. intros q H.
    cbn [lexical_error_state UseParser.errorPos UseParser.error] in *.
    injection H as <-.
    assert (p < List.length (UseParser.input h)) by (apply nth_error_Some; congruence).
    split; [lia|discriminate].
  - do 2 eexists. split; [reflexivity|]. intros q. unfold parsed_state.
    destruct (parse_result_kinds _ _ _ _ Hp)
      as [(Herr & Hpos & _)|(msg & q' & Herr & Htruthy & Hpos & _)]; rewrite Herr.
    + cbn [UseParser.truthy UseParser.errorPos]. discriminate.
    + rewrite Htruthy. cbn [UseParser.errorPos UseParser.error]. intros Hq.
      split; [|discriminate].
      set (input := UseParser.input h) in *.
      destruct (parse_unread (body ++ [end_token input]) st)
        as (r0 & s0 & s & Hp0 & Htok & _ & Hunread & Hwhere).
      rewrite Hp in Hp0. injection Hp0 as <- <-.
      destruct (lookahead_before s (List.length body) (end_token input) Hunread)
        as (j & t' & Hj & _ & Ht' & Hla).
      { now rewrite Htok, nth_error_app2, Nat.sub_diag by lia. }
      { reflexivity. }
      rewrite Htok in Ht'. rewrite (Hwhere q Hq), Hla. clear Hq.
      destruct (tiles_lexed _ _ _ Ht) as [_ Hall].
      destruct (Nat.eq_dec j (List.length body)) as [->|Hne].
      * rewrite nth_error_app2, Nat.sub_diag in Ht' by lia. injection Ht' as <-.
        cbn [end_token createToken pos]. lia.
      * rewrite nth_error_app1 in Ht' by lia.
        pose proof (proj1 (Forall_forall _ _) Hall t' (nth_error_In _ _ Ht'))
          as (p0 & e0 & Hlex & _).
        rewrite (lexed_pos _ _ _ _ Hlex).
        pose proof (lexed_range _ _ _ _ Hlex). lia.
Qed.

Lemma handleParse_error_position_witness :
  exists h' st',
    UseParser.handleParse
      (UseParser.mkHookState (lit "1 $") [] None [] None None false (-1) false)
      fresh_state = Returns h' st'
    /\ UseParser.errorPos h' = Some 2%Z
    /\ (0 <= 2 <= 3)%Z.
Proof.
  destruct (handleParse_error_position
              (UseParser.mkHookState (lit "1 $") [] None [] None None false (-1) false)
              fresh_state) as (h' & st' & Hh & Hpos).
  assert (H : UseParser.errorPos h' = Some 2%Z).
  { vm_compute in Hh. injection Hh as <- _. reflexivity. }
  exists h', st'. split; [exact Hh|]. split; [exact H|].
  exact (proj1 (Hpos 2%Z H)).
Defined.

Lemma Derives_notEOF nt ts : Derives nt ts -> Forall notEOF ts.
Proof.
  unfold notEOF.
  induction 1 as [t e _ IHt _ IHe
                 | op t e Hop _ IHt _ IHe
                 |
                 | f t _ IHf _ IHt
                 | op f t Hop _ IHf _ IHt
                 |
                 | l e r Hl _ IHe Hr
                 | n Hn
                 | i Hi].
  - apply Forall_app; auto.
  - constructor; [destruct Hop; congruence|apply Forall_app; auto].
  - constructor.
  - apply Forall_app; auto.
  - constructor; [destruct Hop; congruence|apply Forall_app; auto].
  - constructor.
  - constructor; [congruence|]. apply Forall_app. split; [exact IHe|].
    constructor; [congruence|constructor].
  - constructor; [congruence|constructor].
  - constructor; [congruence|constructor].
Qed.

Lemma Derives_F_nonempty ts : Derives nF ts -> ts <> [].
Proof. intros H. inversion H; subst; discriminate. Qed.

Lemma Derives_E_nonempty ts : Derives nE ts -> ts <> [].
Proof.
  intros H. inversion H as [t e Ht He| | | | | | | |]; subst.
  inversion Ht as [| | |f t' Hf Ht'| | | | |]; subst.
  pose proof (Derives_F_nonempty _ Hf) as Hne.
  destruct f; [contradiction|discriminate].
Qed.

(** The expression ends where the [EOF] token is. *)
Lemma split_at_EOF body :
  forall ts rest e,
    Forall notEOF body -> Forall notEOF ts -> type e = EOF ->
    body ++ [e] = ts ++ rest -> next_type rest = EOF -> ts = body.
Proof.
  induction body as [|b body IH]; intros ts rest e Hb Hts He Heq Hrest.
  - destruct ts as [|t ts]; [reflexivity|]. exfalso.
    simpl in Heq. injection Heq as <- _.
    exact (Forall_inv Hts He).
  - destruct ts as [|t ts].
    + exfalso. simpl in Heq. subst rest. simpl in Hrest.
      exact (Forall_inv Hb Hrest).
    + simpl in Heq. injection Heq as <- Heq. f_equal.
      apply (IH ts rest e); auto.
      * exact (Forall_inv_tail Hb).
      * exact (Forall_inv_tail Hts).
Qed.

Lemma lexeme_symbol t :
  lexeme (type t) (value t) = true -> type t <> EOF ->
  symbol t = value t /\ symbol t <> epsilon.
Proof.
  intros H Hty. unfold symbol.
  destruct (type t) eqn:Et; cbn [lexeme] in H; try contradiction;
    try (apply eqb_eq in H; rewrite H; split; [reflexivity|discriminate]).
  - split; [reflexivity|]. destruct (value t) as [|d ds]; [discriminate|].
    apply andb_true_iff in H as [H _]. apply andb_true_iff in H as [Hd _].
    apply isDigit_range in Hd. intros E. injection E as -> _. lia.
  - split; [reflexivity|]. destruct (value t) as [|c cs]; [discriminate|].
    apply andb_true_iff in H as [Hc _]. apply isIdStart_range in Hc.
    intros E. injection E as -> _. lia.
Qed.

(** The tree [handleParse] leaves is in the field [tree] of the result of
    [parse]. *)
Lemma parsed_state_tree h tokenArray st r s' :
  parse tokenArray st = Returns r s' ->
  UseParser.parseTree (parsed_state h tokenArray r) = Result.tree r.
Proof.
  intros Hp. unfold parsed_state.
  destruct (parse_result_kinds _ _ _ _ Hp)
    as [(Herr & _ & _)|(msg & q & Herr & Htruthy & _ & Htree)]; rewrite Herr.
  - reflexivity.
  - rewrite Htruthy. cbn [UseParser.parseTree]. now rewrite Htree.
Qed.

(** X23: [handleParse] leaves a tree exactly when the input line is tokenized
    without error and its tokens, up to the [EOF] token, are an expression of
    the grammar. *)
Theorem handleParse_accepts_expressions (h : UseParser.HookState) (st : State.t) :
  exists h' st',
    UseParser.handleParse h st = Returns h' st'
    /\ ((exists tree, UseParser.parseTree h' = Some tree)
        <-> (exists body,
               tokenize (UseParser.input h) =
                 Some (mkResult (body ++ [end_token (UseParser.input h)]) None None)
               /\ Derives nE body)).
Proof.
  destruct (handleParse_cases h st)
    as [(Hblank & ->)
       |[(_ & p & c & _ & _ & Htok & ->)
        |(_ & body & r & s' & Ht & Htok & Hp & ->)]].
  - do 2 eexists. split; [reflexivity|]. split.
    + intros (tree & H). discriminate H.
    + intros (body & Htok & Hd). exfalso.
      destruct (tokenize_tiles _ _ Htok eq_refl) as (body' & Heq & Ht').
      rewrite (tiles_blank _ _ _ Ht') in Heq by now rewrite firstn_all.
      injection Heq as Htok'. clear Htok. rename Htok' into Htok.
      destruct body as [|b body]; [exact (Derives_E_nonempty _ Hd eq_refl)|].
      destruct body; discriminate Htok.
  - do 2 eexists. split; [reflexivity|]. split.
    + intros (tree & H). discriminate H.
    + intros (body & Htok' & _). rewrite Htok in Htok'. discriminate Htok'.
  - do 2 eexists. split; [reflexivity|].
    rewrite (parsed_state_tree _ _ _ _ _ Hp).
    assert (Hiff : (exists tree, Result.tree r = Some tree)
                   <-> (exists ts rest,
                          body ++ [end_token (UseParser.input h)] = ts ++ rest
                          /\ Derives nE ts /\ next_type rest = EOF)).
    { split.
      - intros (tree & Htree). exact (parse_sound _ _ _ _ _ Hp Htree).
      - intros (ts & rest & Hts & Hd & Hrest).
        exact (parse_finds _ _ _ _ _ _ Hp Hts Hd Hrest). }
    rewrite Hiff. split.
    + intros (ts & rest & Heq & Hd & Hrest). exists body. split; [exact Htok|].
      assert (Hbody : Forall notEOF body).
      { destruct (tiles_lexed _ _ _ Ht) as [_ Hall].
        eapply Forall_impl; [|exact Hall]. intros t (p0 & e0 & Hlex & _).
        exact (lexed_type _ _ _ _ Hlex). }
      rewrite <- (split_at_EOF body ts rest (end_token (UseParser.input h)) Hbody
                    (Derives_notEOF _ _ Hd) eq_refl Heq Hrest).
      exact Hd.
    + intros (body' & Htok' & Hd). rewrite Htok in Htok'. injection Htok' as Heq.
      apply app_inj_tail in Heq as [<- _].
      exists body, [end_token (UseParser.input h)]. repeat split; auto.
Qed.

Lemma handleParse_accepts_expressions_witness :
  exists h' st' tree,
    UseParser.handleParse
      (UseParser.mkHookState (lit "3") [] None [] None None false (-1) false)
      fresh_state = Returns h' st'
    /\ UseParser.parseTree h' = Some tree.
Proof.
  destruct (handleParse_accepts_expressions
              (UseParser.mkHookState (lit "3") [] None [] None None false (-1) false)
              fresh_state) as (h' & st' & Hh & Hiff).
  destruct (proj2 Hiff) as (tree & Htree).
  { exists [tok NUMBER "3" 0 1]. split; [reflexivity|].
    apply Derives_number. reflexivity. }
  exists h', st', tree. split; [exact Hh|exact Htree].
Defined.

(** X24: From the input line back to it: when [handleParse] leaves a tree, the
    labels of its leaves, read from left to right without the epsilon
    leaves and put together, are the input line without its white space. *)
Theorem handleParse_round_trip (h : UseParser.HookState) (st : State.t)
  (h' : UseParser.HookState) (st' : State.t) (tree : Node) :
  UseParser.handleParse h st = Returns h' st' ->
  UseParser.parseTree h' = Some tree ->
  List.concat (filter (fun l => negb (JS.eqb l epsilon)) (frontier tree))
  = filter (fun c => negb (isSpace c)) (UseParser.input h).
Proof.
  intros Hh Htree.
  destruct (handleParse_cases h st)
    as [(_ & Hc)|[(_ & p & c & _ & _ & _ & Hc)|(_ & body & r & s' & Ht & _ & Hp & Hc)]];
    rewrite Hc in Hh; injection Hh as <- <-; try discriminate Htree.
  rewrite (parsed_state_tree _ _ _ _ _ Hp) in Htree.
  destruct (parse_success_tree _ _ _ _ _ Hp Htree)
    as (s0 & ts & rest & _ & _ & Heq & Hrest & Hpt).
  destruct (tiles_lexed _ _ _ Ht) as [_ Hall].
  assert (Hbody : Forall (fun t => symbol t = value t /\ symbol t <> epsilon) body).
  { eapply Forall_impl; [|exact Hall]. intros t (p0 & e0 & Hlex & _).
    exact (lexeme_symbol _ (lexed_lexeme _ _ _ _ Hlex) (lexed_type _ _ _ _ Hlex)). }
  assert (Hnot : Forall notEOF body).
  { eapply Forall_impl; [|exact Hall]. intros t (p0 & e0 & Hlex & _).
    exact (lexed_type _ _ _ _ Hlex). }
  assert (Hts : ts = body).
  { exact (split_at_EOF body ts rest (end_token (UseParser.input h)) Hnot
             (Derives_notEOF _ _ (ParseTree_Derives _ _ _ Hpt)) eq_refl Heq Hrest). }
  subst ts.
  change (List.concat (spoken (frontier tree)) = visible (UseParser.input h)).
  rewrite (ParseTree_frontier _ _ _ Hpt).
  2:{ eapply Forall_impl; [|exact Hbody]. intros t [_ H]. exact H. }
  rewrite <- (firstn_all (UseParser.input h)), <- (tiles_text _ _ _ Ht).
  rewrite <- flat_map_concat_map.
  clear -Hbody. induction Hbody as [|t l [Ht _] _ IH]; simpl; [reflexivity|].
  now rewrite Ht, IH.
Qed.

Lemma handleParse_round_trip_witness :
  exists h' st' tree,
    UseParser.handleParse (hook_with "( a + 1 )") fresh_state = Returns h' st'
    /\ UseParser.parseTree h' = Some tree
    /\ List.concat (filter (fun l => negb (JS.eqb l epsilon)) (frontier tree)) = lit "(a+1)".
Proof.
  destruct (handleParse_error_or_tree_ends (hook_with "( a + 1 )") fresh_state)
    as (h' & st' & Hh).
  assert (Htree : exists tree, UseParser.parseTree h' = Some tree).
  { vm_compute in Hh. injection Hh as <- _. eexists. reflexivity. }
  destruct Htree as (tree & Htree).
  exists h', st', tree. split; [exact Hh|]. split; [exact Htree|].
  exact (handleParse_round_trip _ _ _ _ _ Hh Htree).
Defined.

(** ** The token table *)

Lemma tokenTypeLabel_labels ty : In (ty, tokenTypeLabel ty) labels.
Proof. destruct ty; vm_compute; tauto. Qed.

Lemma displayTokens_body body e :
  Forall notEOF body -> type e = EOF ->
  TokenTable.displayTokens (body ++ [e]) = body.
Proof.
  intros Hb He. unfold TokenTable.displayTokens. rewrite filter_app. simpl.
  rewrite He. simpl. rewrite app_nil_r.
  induction Hb as [|t l Ht _ IH]; simpl; [reflexivity|].
  rewrite IH. unfold notEOF in Ht.
  destruct (type t); try contradiction; reflexivity.
Qed.

Lemma rows_from_badges body :
  forall index,
    Forall (fun row => exists ty, In (ty, TokenTable.badge row) labels)
      (TokenTable.rows_from body index).
Proof.
  induction body as [|t body IH]; intros index; simpl; constructor.
  - exists (type t). apply tokenTypeLabel_labels.
  - apply IH.
Qed.

(** X25: After a call of [tokenize] that succeeds, the table shows a row for each
    token before [EOF], in order and numbered from 1, and none for [EOF];
    the badge of each row is one of the labels of [tokenTypeLabel], never
    the bare name of the type. *)
Theorem TokenTable_rows_are_tokens (input : jsstring) (r : TokenizeResult) :
  tokenize input = Some r -> error r = None ->
  exists body,
    tokens r = body ++ [end_token input]
    /\ TokenTable.displayTokens (tokens r) = body
    /\ TokenTable.rows (tokens r) = Some (TokenTable.rows_from body 0)
    /\ List.length (TokenTable.rows_from body 0) + 1 = List.length (tokens r)
    /\ Forall (fun row => exists ty, In (ty, TokenTable.badge row) labels)
         (TokenTable.rows_from body 0).
Proof.
  intros Hr Herr.
  destruct (tokenize_cases _ _ Hr) as [(_ & body & -> & Ht)|(p & c & _ & _ & ->)];
    [|discriminate].
  fold (end_token input). cbn [tokens]. exists body.
  assert (Hbody : Forall notEOF body).
  { destruct (tiles_lexed _ _ _ Ht) as [_ Hall].
    eapply Forall_impl; [|exact Hall]. intros t (p0 & e0 & Hlex & _).
    exact (lexed_type _ _ _ _ Hlex). }
  pose proof (displayTokens_body body (end_token input) Hbody eq_refl) as Hd.
  split; [reflexivity|]. split; [exact Hd|]. split; [|split].
  - unfold TokenTable.rows. rewrite Hd. destruct body; reflexivity.
  - rewrite length_app. simpl. f_equal.
    clear. generalize 0. induction body as [|t body IH]; intros n; simpl; [reflexivity|].
    now rewrite IH.
  - apply rows_from_badges.
Qed.

Lemma TokenTable_rows_are_tokens_witness :
  exists body,
    [tok NUMBER "7" 0 1; tok EOF "EOF" 1 1] = body ++ [end_token (lit "7")]
    /\ TokenTable.rows [tok NUMBER "7" 0 1; tok EOF "EOF" 1 1] =
       Some [TokenTable.mkRow 1 (lit "Number") (lit "7") 0].
Proof.
  destruct (TokenTable_rows_are_tokens (lit "7")
              (mkResult [tok NUMBER "7" 0 1; tok EOF "EOF" 1 1] None None)
              eq_refl eq_refl) as (body & Hb & _ & Hrows & _).
  exists body. split; [exact Hb|]. reflexivity.
Defined.

(** ** The tree view *)

Lemma nodeClass_layoutNode node :
  ParseTreeView.nodeClass (layoutNode node) = class_of (label node) (is_leaf node).
Proof. reflexivity. Qed.

Lemma includes_false arr v : Forall (fun l => l <> v) arr -> includes arr v = false.
Proof.
  unfold includes. induction 1 as [|l arr Hl _ IH]; simpl; [reflexivity|].
  rewrite IH, orb_false_r. unfold JS.eqb.
  destruct (list_eq_dec N.eq_dec v l); [congruence|reflexivity].
Qed.

Lemma eqb_false a b : a <> b -> JS.eqb a b = false.
Proof. intros H. unfold JS.eqb. destruct (list_eq_dec N.eq_dec a b); [contradiction|reflexivity]. Qed.

Ltac other_head H :=
  vm_compute in H; injection H; intros; subst; lia.

Lemma number_classed v : lexeme NUMBER v = true -> well_classed v true.
Proof.
  cbn [lexeme]. destruct v as [|d ds]; [discriminate|]. intros H.
  apply andb_true_iff in H as [H _]. apply andb_true_iff in H as [Hd _].
  apply isDigit_range in Hd.
  unfold well_classed, class_of, ParseTreeView.nodeClass.
  cbn [isEpsilon isOperator isLeaf isNonTerminal].
  rewrite eqb_false by (intros E; other_head E).
  rewrite !includes_false by (repeat constructor; intros E; other_head E).
  cbn [negb andb]. split.
  - intros E. vm_compute in E. discriminate E.
  - intros [E|[E|[E|[]]]]; other_head E.
Qed.

Lemma id_classed v : lexeme ID v = true -> well_classed v true.
Proof.
  cbn [lexeme]. destruct v as [|c cs]; [discriminate|]. intros H.
  apply andb_true_iff in H as [Hc Hcs]. apply isIdStart_range in Hc.
  unfold well_classed, class_of, ParseTreeView.nodeClass.
  cbn [isEpsilon isOperator isLeaf isNonTerminal].
  rewrite eqb_false by (intros E; other_head E).
  rewrite (includes_false [lit "+"; lit "-"; lit "*"; lit "/"; lit "("; lit ")"])
    by (repeat constructor; intros E; other_head E).
  cbn [andb].
  destruct (includes [lit "E"; lit "E'"; lit "T"; lit "T'"; lit "F"] (c :: cs)) eqn:Hin;
    cbn [negb].
  - split; [intros _|reflexivity].
    unfold includes in Hin. apply existsb_exists in Hin as (l & Hl & Heq).
    apply eqb_eq in Heq. subst l.
    destruct Hl as [E|[E|[E|[E|[E|[]]]]]].
    + left. exact E.
    + exfalso. vm_compute in E. injection E as _ <-. discriminate Hcs.
    + right. left. exact E.
    + exfalso. vm_compute in E. injection E as _ <-. discriminate Hcs.
    + right. right. left. exact E.
  - split; [intros E; vm_compute in E; discriminate E|].
    intros Hl. exfalso.
    assert (Htrue : includes [lit "E"; lit "E'"; lit "T"; lit "T'"; lit "F"] (c :: cs)
                    = true).
    { unfold includes. apply existsb_exists. exists (c :: cs).
      split; [|apply eqb_refl].
      destruct Hl as [E|[E|[E|[]]]]; rewrite <- E; simpl; tauto. }
    congruence.
Qed.

Ltac closed_class :=
  unfold well_classed, is_leaf; cbn [label children];
  first [ reflexivity
        | split; [ intros E; vm_compute in E; discriminate E
                 | intros [E|[E|[E|[]]]]; vm_compute in E; discriminate E ] ].

Lemma ParseTree_classes nt ts tree :
  ParseTree nt ts tree ->
  Forall (fun t => lexeme (type t) (value t) = true) ts ->
  Forall (fun node => well_classed (label node) (is_leaf node)) (preorder tree).
Proof.
  induction 1 as [t e a b id _ IHa _ IHb
                 | op t e a b i id Hop _ IHa _ IHb
                 | op t e a b i id Hop _ IHa _ IHb
                 | i id
                 | f t a b id _ IHa _ IHb
                 | op f t a b i id Hop _ IHa _ IHb
                 | op f t a b i id Hop _ IHa _ IHb
                 | i id
                 | l e r a i j id Hl _ IHa Hr
                 | n i id Hn
                 | n i id Hn]; intros Hall; cbn [preorder flat_map];
    rewrite ?app_nil_r.
  - apply Forall_app in Hall as [H1 H2].
    constructor; [closed_class|]. apply Forall_app. auto.
  - inversion Hall as [|? ? _ Hrest]; subst. apply Forall_app in Hrest as [H1 H2].
    constructor; [closed_class|]. constructor; [closed_class|]. apply Forall_app. auto.
  - inversion Hall as [|? ? _ Hrest]; subst. apply Forall_app in Hrest as [H1 H2].
    constructor; [closed_class|]. constructor; [closed_class|]. apply Forall_app. auto.
  - constructor; [closed_class|]. constructor; [closed_class|constructor].
  - apply Forall_app in Hall as [H1 H2].
    constructor; [closed_class|]. apply Forall_app. auto.
  - inversion Hall as [|? ? _ Hrest]; subst. apply Forall_app in Hrest as [H1 H2].
    constructor; [closed_class|]. constructor; [closed_class|]. apply Forall_app. auto.
  - inversion Hall as [|? ? _ Hrest]; subst. apply Forall_app in Hrest as [H1 H2].
    constructor; [closed_class|]. constructor; [closed_class|]. apply Forall_app. auto.
  - constructor; [closed_class|]. constructor; [closed_class|constructor].
  - inversion Hall as [|? ? _ Hrest]; subst. apply Forall_app in Hrest as [H1 _].
    constructor; [closed_class|]. constructor; [closed_class|].
    apply Forall_app. split; [auto|]. constructor; [closed_class|constructor].
  - inversion Hall as [|? ? Hlex _]; subst. rewrite Hn in Hlex.
    constructor; [closed_class|]. constructor; [|constructor].
    exact (number_classed _ Hlex).
  - inversion Hall as [|? ? Hlex _]; subst. rewrite Hn in Hlex.
    constructor; [closed_class|]. constructor; [|constructor].
    exact (id_classed _ Hlex).
Qed.

Lemma erase_label_leaf a b :
  erase a = erase b -> label a = label b /\ is_leaf a = is_leaf b.
Proof.
  destruct a as [la ka ia da xa], b as [lb kb ib db xb]. cbn [erase].
  intros H. injection H as Hl Hk _. split; [exact Hl|].
  unfold is_leaf. cbn [children]. destruct ka, kb; try reflexivity; discriminate Hk.
Qed.

(** X26: In the view of the tree of a parse whose tokens have the text of their
    type (as those of [tokenize] have), a node with children is drawn as a
    non-terminal; a leaf is drawn as an operator, a terminal or an epsilon
    node, and as a non-terminal only when it is an identifier named [E], [T]
    or [F]. *)
Theorem ParseTreeView_node_classes (tokenArray : list Token) (st : State.t)
  (r : Result.t) (s' : State.t) (tree : Node) (n : LayoutNode) :
  parse tokenArray st = Returns r s' -> Result.tree r = Some tree ->
  Forall (fun t => lexeme (type t) (value t) = true) tokenArray ->
  In n (nodes (fst (computeTreeLayout (Some tree)))) ->
  if isLeaf n then
    ParseTreeView.nodeClass n = lit "non-terminal"
    <-> In (llabel n) [lit "E"; lit "T"; lit "F"]
  else ParseTreeView.nodeClass n = lit "non-terminal".
Proof.
  intros Hp Htree Hlex Hin.
  destruct (parse_success_tree _ _ _ _ _ Hp Htree)
    as (s0 & ts & rest & _ & _ & Heq & _ & Hpt).
  rewrite Heq in Hlex. apply Forall_app in Hlex as [Hlex _].
  pose proof (ParseTree_classes _ _ _ Hpt Hlex) as Hall.
  destruct (computeTreeLayout_arranged tree)
    as (layout & t' & n' & Hc & _ & He & Hn & _).
  rewrite Hc in Hin. cbn [fst] in Hin. rewrite Hn in Hin.
  apply in_map_iff in Hin as (m & <- & Hm).
  assert (Hm0 : exists m0, In m0 (preorder tree) /\ erase m0 = erase m).
  { apply (in_map erase) in Hm. rewrite <- preorder_erase, He, preorder_erase in Hm.
    apply in_map_iff in Hm as (m0 & H1 & H2). eauto. }
  destruct Hm0 as (m0 & Hm0 & Herase).
  destruct (erase_label_leaf _ _ Herase) as [Hl Hk].
  pose proof (proj1 (Forall_forall _ _) Hall m0 Hm0) as Hclass.
  cbv beta in Hclass. rewrite Hl, Hk in Hclass. unfold well_classed in Hclass.
  rewrite nodeClass_layoutNode.
  change (isLeaf (layoutNode m)) with (is_leaf m).
  change (llabel (layoutNode m)) with (label m).
  destruct (is_leaf m); exact Hclass.
Qed.

Lemma ParseTreeView_node_classes_witness :
  ParseTreeView.nodeClass
    (mkLayoutNode 0 (lit "3") (Some (60 # 2)%Q) (Some (570 # 2)%Q) (Some 3%Z)
       true false false false) = lit "non-terminal"
  <-> In (lit "3") [lit "E"; lit "T"; lit "F"].
Proof.
  destruct (parse_returns tokens_3 fresh_state) as (r & s' & Hp).
  assert (Htree : exists tree, Result.tree r = Some tree
                               /\ In (mkLayoutNode 0 (lit "3") (Some (60 # 2)%Q)
                                        (Some (570 # 2)%Q) (Some 3%Z)
                                        true false false false)
                                    (nodes (fst (computeTreeLayout (Some tree))))).
  { vm_compute in Hp. injection Hp as <- _. eexists. split; [reflexivity|].
    vm_compute. tauto. }
  destruct Htree as (tree & Htree & Hin).
  assert (Hlex : Forall (fun t => lexeme (type t) (value t) = true) tokens_3)
    by (repeat constructor).
  exact (ParseTreeView_node_classes tokens_3 fresh_state r s' tree
           (mkLayoutNode 0 (lit "3") (Some (60 # 2)%Q) (Some (570 # 2)%Q) (Some 3%Z)
              true false false false) Hp Htree Hlex Hin).
Defined.

Lemma radius_bounds n : (16 <= ParseTreeView.radius n <= 22)%Q.
Proof.
  unfold ParseTreeView.radius.
  destruct (isEpsilon n); [split; lra|].
  destruct (isOperator n); [split; lra|].
  destruct (isLeaf n && negb (isNonTerminal n)); split; lra.
Qed.

Lemma num_max_bounds p q :
  exists m, ParseTreeView.num_max (Some p) (Some q) = Some m
            /\ (p <= m)%Q /\ (q <= m)%Q /\ (m == p \/ m == q)%Q.
Proof.
  unfold ParseTreeView.num_max. destruct (Qle_bool p q) eqn:H.
  - apply Qle_bool_iff in H. exists q.
    split; [reflexivity|]. split; [exact H|]. split; [lra|]. right. reflexivity.
  - assert (Hlt : (q < p)%Q).
    { apply Qnot_le_lt. intros Hle. apply Qle_bool_iff in Hle. congruence. }
    exists p.
    split; [reflexivity|]. split; [lra|]. split; [lra|]. left. reflexivity.
Qed.

(** X27: Nothing is cut off: whatever the size of the container, the circle of
    every node of the layout, drawn at its centre moved by the offsets and
    with its radius, lies within the view box. *)
Theorem ParseTreeView_nodes_inside (root : Node)
  (dimensions : ParseTreeView.Dimensions) :
  exists layout t' vw vh,
    computeTreeLayout (Some root) = (layout, Some t')
    /\ ParseTreeView.viewBoxWidth layout dimensions = Some vw
    /\ ParseTreeView.viewBoxHeight layout = Some vh
    /\ forall n, In n (nodes layout) ->
       exists cxq cyq,
         ParseTreeView.cx layout dimensions n = Some cxq
         /\ ParseTreeView.cy n = Some cyq
         /\ (0 <= cxq - ParseTreeView.radius n)%Q
         /\ (cxq + ParseTreeView.radius n <= vw)%Q
         /\ (0 <= cyq - ParseTreeView.radius n)%Q
         /\ (cyq + ParseTreeView.radius n <= vh)%Q.
Proof.
  destruct (computeTreeLayout_maxima root)
    as (layout & t' & rx & rd & Hc & Hn & Hw & Hh & Hnode & _).
  assert (Hall : forall n, In n (nodes layout) ->
            exists xq yq,
              x n = Some xq /\ y n = Some yq
              /\ (NODE_WIDTH / 2 <= xq)%Q
              /\ (xq + NODE_WIDTH + 40 <= rx + NODE_WIDTH + 40)%Q
              /\ (NODE_HEIGHT / 2 + 20 <= yq)%Q
              /\ (yq + 95 <= (inject_Z rd + 1) * LEVEL_HEIGHT + 60)%Q).
  { intros n Hin. rewrite Hn in Hin. apply in_map_iff in Hin as (node & <- & Hin).
    destruct (Hnode node Hin) as (q & e & Hq & He & Hq0 & Hqr & He0 & Her).
    exact (layoutNode_inside node q rx e rd Hq He Hq0 Hqr He0 Her). }
  clear Hn Hnode.
  set (w := (rx + NODE_WIDTH + 40)%Q) in *.
  set (h := ((inject_Z rd + 1) * LEVEL_HEIGHT + 60)%Q) in *.
  clearbody w h.
  destruct (num_max_bounds (w + 40 * 2) (ParseTreeView.dim_width dimensions))
    as (vw & Hvw & Hvw1 & _ & _).
  destruct (num_max_bounds (h + 40 * 2) 400) as (vh & Hvh & Hvh1 & _ & _).
  destruct (num_max_bounds ((vw - w) / 2) 40) as (off & Hoff & Hoff1 & Hoff2 & Hoff3).
  assert (E : ((vw - w) / 2 == (vw - w) * (1 # 2))%Q) by field.
  rewrite E in Hoff1, Hoff3.
  exists layout, t', vw, vh.
  unfold ParseTreeView.cx, ParseTreeView.cy, ParseTreeView.offsetX,
    ParseTreeView.offsetY, ParseTreeView.viewBoxWidth, ParseTreeView.viewBoxHeight,
    ParseTreeView.padding.
  rewrite Hw, Hh. unfold num. cbn [num_add]. rewrite Hvw, Hvh. cbn [num_sub num_div].
  rewrite Hoff.
  split; [exact Hc|]. split; [reflexivity|]. split; [reflexivity|].
  intros n Hin. destruct (Hall n Hin) as (xq & yq & Hx & Hy & Hx1 & Hx2 & Hy1 & Hy2).
  rewrite Hx, Hy. cbn [num_add].
  exists (xq + off)%Q, (yq + 40)%Q. split; [reflexivity|]. split; [reflexivity|].
  pose proof (radius_bounds n) as [Hr1 Hr2].
  unfold NODE_WIDTH, NODE_HEIGHT in *.
  assert (E60 : (60 / 2 == 30)%Q) by reflexivity.
  assert (E50 : (50 / 2 == 25)%Q) by reflexivity.
  rewrite E60 in Hx1. rewrite E50 in Hy1.
  set (rad := ParseTreeView.radius n) in *. clearbody rad.
  split; [lra|]. split; [|split; lra].
  destruct Hoff3 as [Hoff3|Hoff3]; rewrite Hoff3; lra.
Qed.

Lemma ParseTreeView_nodes_inside_witness :
  exists layout t' vw vh,
    computeTreeLayout (Some tree_F_3) = (layout, Some t')
    /\ ParseTreeView.viewBoxWidth layout (ParseTreeView.mkDimensions 800 500) = Some vw
    /\ ParseTreeView.viewBoxHeight layout = Some vh
    /\ (vw == 800)%Q /\ (vh == 400)%Q.
Proof.
  destruct (ParseTreeView_nodes_inside tree_F_3 (ParseTreeView.mkDimensions 800 500))
    as (layout & t' & vw & vh & Hc & Hvw & Hvh & _).
  exists layout, t', vw, vh. split; [exact Hc|]. split; [exact Hvw|]. split; [exact Hvh|].
  vm_compute in Hc. injection Hc as <- _.
  vm_compute in Hvw. injection Hvw as <-. vm_compute in Hvh. injection Hvh as <-.
  split; reflexivity.
Defined.
